(** * Batch annotation and variant-generation pipeline: a shallow embedding

    The Python scripts under [RQ2/] and [RQ3/] are modelled function by
    function.  Python [str] values are sequences of Unicode code points, so
    a string is a [list N]; JSON documents are a small inductive type whose
    objects keep their keys in insertion order, as Python dictionaries do.
    Calls to the remote completion service are oracles passed as arguments. *)

From Stdlib Require Import ZArith QArith Qabs Lia Lqa Bool.
From Stdlib Require Import Strings.Ascii Strings.String Numbers.DecimalString.
From Stdlib Require Import Floats.SpecFloat.
From stdpp Require Import base option list gmap.

Local Open Scope N_scope.
Set Warnings "-register-all".


(** ** Python strings *)

Module PyStr.

(** Code points and strings. *)
Abbreviation char := N.
Abbreviation str := (list N).

(** A literal of the source, as its code points. *)
Fixpoint py (s : string) : str :=
  match s with
  | EmptyString => []
  | String c s' => N_of_ascii c :: py s'
  end.
#[global] Arguments py _%_string : simpl never.

Definition NL : char := 10.
Definition CR : char := 13.

(** [str.isspace] on one code point: the table of [_PyUnicode_IsWhitespace]. *)
Definition isspace (c : char) : bool :=
  ((9 <=? c) && (c <=? 13)) || ((28 <=? c) && (c <=? 32))
  || (c =? 133) || (c =? 160) || (c =? 5760)
  || ((8192 <=? c) && (c <=? 8202))
  || (c =? 8232) || (c =? 8233) || (c =? 8239) || (c =? 8287) || (c =? 12288).

(** The line boundaries of [str.splitlines]. *)
Definition islinebreak (c : char) : bool :=
  ((10 <=? c) && (c <=? 13)) || ((28 <=? c) && (c <=? 30))
  || (c =? 133) || (c =? 8232) || (c =? 8233).

Definition str_eqb (a b : str) : bool := bool_decide (a = b).

Fixpoint lstrip (s : str) : str :=
  match s with
  | [] => []
  | c :: s' => if isspace c then lstrip s' else s
  end.

Definition rstrip (s : str) : str := rev (lstrip (rev s)).

Definition strip (s : str) : str := rstrip (lstrip s).

(** [s.startswith(p)] *)
Fixpoint startswith (s p : str) {struct p} : bool :=
  match p, s with
  | [], _ => true
  | _ :: _, [] => false
  | a :: p', b :: s' => (a =? b) && startswith s' p'
  end.

(** [s.find(sub)]: the lowest index where [sub] occurs; [None] stands for
    Python's [-1]. *)
Fixpoint find (s sub : str) : option nat :=
  if startswith s sub then Some 0%nat
  else match s with
       | [] => None
       | _ :: s' => S <$> find s' sub
       end.

(** [sub in s] *)
Definition contains (s sub : str) : bool :=
  match find s sub with Some _ => true | None => false end.

(** [s.split(sep)] for a one-character separator: always at least one
    piece, empty pieces kept. *)
Fixpoint split (sep : char) (s : str) : list str :=
  match s with
  | [] => [[]]
  | c :: s' =>
      if c =? sep then [] :: split sep s'
      else match split sep s' with
           | [] => [[c]]
           | l :: ls => (c :: l) :: ls
           end
  end.

(** [s.splitlines()]: every line boundary ends a line, [\r\n] counts as
    one boundary, and no empty line is produced after the last boundary. *)
Fixpoint splitlines (s : str) : list str :=
  match s with
  | [] => []
  | c :: s' =>
      if islinebreak c then
        match s' with
        | d :: s'' =>
            if (c =? CR) && (d =? NL) then [] :: splitlines s''
            else [] :: splitlines s'
        | [] => [[]]
        end
      else match splitlines s' with
           | [] => [[c]]
           | l :: ls => (c :: l) :: ls
           end
  end.

(** [sep.join(parts)] *)
Fixpoint join (sep : str) (parts : list str) : str :=
  match parts with
  | [] => []
  | [p] => p
  | p :: rest => p ++ sep ++ join sep rest
  end.

(** [s.replace(c, "")] for a one-character [c]. *)
Definition remove_char (c : char) (s : str) : str :=
  filter (fun d => d ≠ c) s.

(** [re.split(r'[\n\r]+', s)]: pieces between maximal runs of separators;
    [in_run] records that the previous character was a separator. *)
Fixpoint re_split_runs (sep : char -> bool) (in_run : bool) (s : str)
  : list str :=
  match s with
  | [] => [[]]
  | c :: s' =>
      if sep c then
        if in_run then re_split_runs sep true s'
        else [] :: re_split_runs sep true s'
      else match re_split_runs sep false s' with
           | [] => [[c]]
           | l :: ls => (c :: l) :: ls
           end
  end.

(** [str(n)] for a natural number. *)
Definition str_of_nat (n : nat) : str :=
  py (NilEmpty.string_of_uint (Nat.to_uint n)).

End PyStr.

(** ** JSON values, Python exceptions *)

Module Json.
Import PyStr.

(** What [json.load] returns.  Numbers are integers: the scripts that
    read these documents never compute with a number they read, they only
    copy and compare the [index] field.  The splitter, which fails on a
    number that is not an integer, has its own type of parsed values,
    [Divide.ivalue].  A [JDict] lists its keys in insertion order. *)
Inductive json :=
| JNull
| JBool (b : bool)
| JInt (z : Z)
| JStr (s : str)
| JList (l : list json)
| JDict (kv : list (str * json)).

Definition is_dict (v : json) : bool :=
  match v with JDict _ => true | _ => false end.

(** [d.get(k)] on the key-value list of a dictionary. *)
Fixpoint dict_get (k : str) (kv : list (str * json)) : option json :=
  match kv with
  | [] => None
  | (k', v) :: rest => if str_eqb k' k then Some v else dict_get k rest
  end.

(** [d[k] = v]: an existing key keeps its place, a new key goes last. *)
Fixpoint dict_set (k : str) (v : json) (kv : list (str * json))
  : list (str * json) :=
  match kv with
  | [] => [(k, v)]
  | (k', v') :: rest =>
      if str_eqb k' k then (k', v) :: rest
      else (k', v') :: dict_set k v rest
  end.

(** [bool(v)] *)
Definition py_truthy (v : json) : bool :=
  match v with
  | JNull => false
  | JBool b => b
  | JInt z => negb (z =? 0)%Z
  | JStr s => negb (str_eqb s [])
  | JList l => match l with [] => false | _ => true end
  | JDict kv => match kv with [] => false | _ => true end
  end.

(** The items a [for] loop over [v] visits; [None] is the [TypeError] of
    a value that is not iterable. *)
Definition py_iter (v : json) : option (list json) :=
  match v with
  | JStr s => Some (map (fun c => JStr [c]) s)
  | JList l => Some l
  | JDict kv => Some (map (fun p => JStr (fst p)) kv)
  | _ => None
  end.

Inductive exn :=
| ZeroDivisionError
| TypeError
| AttributeError
| OtherError (msg : str).

Inductive result (A : Type) :=
| Ok (a : A)
| Raise (e : exn).
#[global] Arguments Ok {A} a.
#[global] Arguments Raise {A} e.

(** Dictionary and set keys: hashable values up to Python's [==], under
    which [True == 1] and [False == 0]. *)
Inductive pykey :=
| KNone
| KInt (z : Z)
| KStr (s : str).

(** [None] is the [TypeError: unhashable type] of a list or a dict. *)
Definition hash_key (v : json) : option pykey :=
  match v with
  | JNull => Some KNone
  | JBool b => Some (KInt (if b then 1 else 0))
  | JInt z => Some (KInt z)
  | JStr s => Some (KStr s)
  | JList _ | JDict _ => None
  end.

#[global] Instance pykey_eq_dec : EqDecision pykey.
Proof. solve_decision. Defined.

Definition pykey_to_sum (k : pykey) : unit + (Z + list N) :=
  match k with
  | KNone => inl tt
  | KInt z => inr (inl z)
  | KStr s => inr (inr s)
  end.

Definition pykey_of_sum (x : unit + (Z + list N)) : pykey :=
  match x with
  | inl _ => KNone
  | inr (inl z) => KInt z
  | inr (inr s) => KStr s
  end.

#[global] Instance pykey_countable : Countable pykey.
Proof.
  refine (inj_countable' pykey_to_sum pykey_of_sum _).
  intros []; reflexivity.
Defined.

End Json.

(** ** Regular expressions of the scripts

    A backtracking matcher for the fragment the scripts use: one-character
    tests, greedy and lazy stars over a character class, one capture group.
    Alternatives are tried in the order Python's [re] tries them. *)

Module Regex.
Import PyStr.

Inductive atom :=
| Chr (p : char -> bool)
| StarGreedy (p : char -> bool)
| StarLazy (p : char -> bool)
| GroupOpen
| GroupClose.

(** [match_here re s pos gs ge]: match [re] against [s], which starts at
    offset [pos] of the subject; [gs], [ge] are the group's bounds so far.
    The result is the bounds of group 1. *)
Fixpoint match_here (re : list atom)
  : str -> nat -> nat -> nat -> option (nat * nat) :=
  match re with
  | [] => fun _ _ gs ge => Some (gs, ge)
  | Chr p :: re' =>
      fun s pos gs ge =>
        match s with
        | c :: s' => if p c then match_here re' s' (S pos) gs ge else None
        | [] => None
        end
  | GroupOpen :: re' => fun s pos _ ge => match_here re' s pos pos ge
  | GroupClose :: re' => fun s pos gs _ => match_here re' s pos gs pos
  | StarGreedy p :: re' =>
      fix star (s : str) (pos gs ge : nat) : option (nat * nat) :=
        match s with
        | c :: s' =>
            if p c then
              match star s' (S pos) gs ge with
              | Some r => Some r
              | None => match_here re' s pos gs ge
              end
            else match_here re' s pos gs ge
        | [] => match_here re' s pos gs ge
        end
  | StarLazy p :: re' =>
      fix star (s : str) (pos gs ge : nat) : option (nat * nat) :=
        match match_here re' s pos gs ge with
        | Some r => Some r
        | None =>
            match s with
            | c :: s' => if p c then star s' (S pos) gs ge else None
            | [] => None
            end
        end
  end.

(** [re.search]: the first start offset at which the pattern matches. *)
Fixpoint search_from (re : list atom) (s : str) (pos : nat)
  : option (nat * nat) :=
  match match_here re s pos 0%nat 0%nat with
  | Some r => Some r
  | None =>
      match s with
      | [] => None
      | _ :: s' => search_from re s' (S pos)
      end
  end.

(** [m = re.search(re, text)] followed by [m.group(1)]. *)
Definition search_group1 (re : list atom) (text : str) : option str :=
  match search_from re text 0%nat with
  | Some (gs, ge) => Some (take (ge - gs) (drop gs text))
  | None => None
  end.

Definition backtick (c : char) : bool := c =? 96.
(** The letter [c] under [re.IGNORECASE]. *)
Definition letter_c (c : char) : bool := (c =? 99) || (c =? 67).
(** [.] under [re.DOTALL]. *)
Definition any_char (_ : char) : bool := true.

Definition fence : list atom := [Chr backtick; Chr backtick; Chr backtick].

(** [r"```c\s*(.*?)\s*```"] with [re.DOTALL | re.IGNORECASE] *)
Definition RE_FENCED_C_TRIMMED : list atom :=
  fence ++ [Chr letter_c; StarGreedy isspace; GroupOpen; StarLazy any_char;
            GroupClose; StarGreedy isspace] ++ fence.

(** [r"```c(.*?)```"] with [re.DOTALL | re.IGNORECASE] *)
Definition RE_FENCED_C : list atom :=
  fence ++ [Chr letter_c; GroupOpen; StarLazy any_char; GroupClose] ++ fence.

Definition newline (c : char) : bool := c =? NL.

(** [r"```c\s*\n(.*?)\n```"] with [re.DOTALL | re.IGNORECASE] *)
Definition RE_FENCED_C_LINES : list atom :=
  fence ++ [Chr letter_c; StarGreedy isspace; Chr newline; GroupOpen;
            StarLazy any_char; GroupClose; Chr newline] ++ fence.

End Regex.

(** ** [RQ2/run_full_patched.py]: the analysis runner *)

Module RunFullPatched.
Import PyStr Json.

Definition REASONING_HEADER : str := py "# Reasoning:".
Definition ANSWER_HEADER : str := py "# Answer:".
Definition SECURE : str := py "Secure".
Definition INSECURE : str := py "Insecure".

(** The loop over [enumerate(tail_lines)] that stops at the first line
    whose stripped content is the answer header. *)
Fixpoint first_answer_line (i : nat) (lines : list str) : option nat :=
  match lines with
  | [] => None
  | ln :: rest =>
      if str_eqb (strip ln) ANSWER_HEADER then Some i
      else first_answer_line (S i) rest
  end.

(** The empty string is the rejection. *)
Definition validate_and_trim_strict (text : str) : str :=
  match text with
  | [] => []
  | _ =>
      let t := strip text in
      let located :=
        if startswith t REASONING_HEADER then Some t
        else match find t REASONING_HEADER with
             | None => None
             | Some idx_r => Some (strip (drop idx_r t))
             end in
      match located with
      | None => []
      | Some t =>
          match find t ANSWER_HEADER with
          | None => []
          | Some idx_ans =>
              let head := rstrip (take idx_ans t) in
              let tail_lines := splitlines (drop idx_ans t) in
              match first_answer_line 0 tail_lines with
              | None => []
              | Some ans_idx =>
                  if (Z.of_nat ans_idx =? Z.of_nat (length tail_lines) - 1)%Z
                  then []
                  else
                    (* in range: [ans_idx < len(tail_lines) - 1] here *)
                    match tail_lines !! (ans_idx + 1)%nat with
                    | None => []
                    | Some ln =>
                        let final_word := strip ln in
                        if str_eqb final_word SECURE
                           || str_eqb final_word INSECURE
                        then
                          let answer_header :=
                            join [NL] (take (ans_idx + 1) tail_lines) in
                          head ++ [NL] ++ answer_header ++ [NL] ++ final_word
                        else []
                    end
              end
          end
      end
  end.

Definition is_nl_or_cr (c : char) : bool := (c =? NL) || (c =? CR).

Definition PLACEHOLDER : str := py "No explicit reasoning found.".

(** [f"{i+1}. {b}" for i, b in enumerate(bullets)] *)
Definition numbered (bullets : list str) : list str :=
  imap (fun i b => str_of_nat (i + 1) ++ py ". " ++ b) bullets.

Definition coerce_to_template (raw_text : str) : str :=
  let lines :=
    map strip
      (filter (fun ln => strip ln ≠ [])
         (re_split_runs is_nl_or_cr false raw_text)) in
  let lines := match lines with [] => [PLACEHOLDER] | _ => lines end in
  let bullets := take 5 lines in
  let reasoning := join [NL] (numbered bullets) in
  REASONING_HEADER ++ [NL] ++ reasoning ++ [NL; NL]
    ++ ANSWER_HEADER ++ [NL] ++ INSECURE.

(** The body of the loop over the generation outputs: the answer that is
    recorded for one raw output text. *)
Definition recorded_answer (text : str) : str :=
  let trimmed := validate_and_trim_strict text in
  match trimmed with
  | [] => coerce_to_template text
  | _ => trimmed
  end.

(** [outputs] holds, for each request, the texts of its completions;
    a request without completion counts as the empty text. *)
Definition run_with_vllm_direct (outputs : list (list str)) : list json :=
  map (fun out =>
         let text := match out with t :: _ => t | [] => [] end in
         JDict [(py "answer", JStr (recorded_answer text))])
      outputs.

(** *** Reading the inputs and building the prompts *)

Import Regex.

(** [isinstance(x, dict) and isinstance(x.get("input"), str)] *)
Definition is_input_row (x : json) : bool :=
  match x with
  | JDict kv =>
      match dict_get (py "input") kv with
      | Some (JStr _) => true
      | _ => false
      end
  | _ => false
  end.

(** [read_per_model_inputs] on the decoded file; [None] is its
    [ValueError]. *)
Definition read_per_model_inputs (data : json) : option (list json) :=
  match data with
  | JList l => Some (filter (fun x => is_input_row x = true) l)
  | _ => None
  end.

(** [m = re.search(re, text)], then [m.group(1).strip()] when there is a
    match and the stripped group is not empty. *)
Definition fenced_code (re : list atom) (text : str) : option str :=
  match search_group1 re text with
  | Some body =>
      match strip body with
      | [] => None
      | code => Some code
      end
  | None => None
  end.

Definition extract_code_from_input (input_field : json) : option str :=
  match input_field with
  | JStr s =>
      let text := strip s in
      match fenced_code RE_FENCED_C_LINES text with
      | Some code => Some code
      | None =>
          match fenced_code RE_FENCED_C text with
          | Some code => Some code
          | None =>
              match text with
              | [] => None
              | _ => Some text
              end
          end
      end
  | _ => None
  end.

Definition DEFAULT_CODE : str := py "int main(void){return 0;}".

Section Prompt.
(** The module constant [SYSTEM_PROMPT]; the prompts depend on it only
    through [SYSTEM_PROMPT.strip()]. *)
Variable SYSTEM_PROMPT : str.

Definition build_prompt_from_code (code : str) : str :=
  let system := strip SYSTEM_PROMPT in
  let user :=
    py "Here is the source code to analyze:" ++ [NL]
    ++ py "```c" ++ [NL] ++ strip code ++ [NL] ++ py "```" ++ [NL]
    ++ py "Follow the example format strictly and do not output any additional content." ++ [NL]
    ++ py "# Reasoning: [Provide your detailed step-by-step analysis using numbered steps: 1., 2., 3., etc.]" ++ [NL]
    ++ py "# Answer:" ++ [NL] ++ py "['Secure' or 'Insecure']" in
  py "System:" ++ [NL] ++ system ++ [NL; NL] ++ py "User:" ++ [NL] ++ user
    ++ [NL; NL] ++ py "Assistant:".

(** The body of [for row in data] in [run_with_vllm_direct]: the prompt
    of one row.  [row["input"]] raises [KeyError] on a dictionary without
    the key and [TypeError] on a value that is not a dictionary. *)
Definition prompt_of_row (row : json) : result str :=
  match row with
  | JDict kv =>
      match dict_get (py "input") kv with
      | Some v =>
          let code :=
            match extract_code_from_input v with
            | Some ((_ :: _) as code) => code
            | _ => DEFAULT_CODE
            end in
          Ok (build_prompt_from_code code)
      | None => Raise (OtherError (py "KeyError"))
      end
  | _ => Raise TypeError
  end.

Fixpoint build_prompts (data : list json) : result (list str) :=
  match data with
  | [] => Ok []
  | row :: rest =>
      match prompt_of_row row with
      | Raise e => Raise e
      | Ok p =>
          match build_prompts rest with
          | Raise e => Raise e
          | Ok ps => Ok (p :: ps)
          end
      end
  end.

End Prompt.

End RunFullPatched.

(** ** What the two aggregation scripts return *)

Module Aggregate.
Import PyStr Json.

(** A Python [float] is a binary64 number: 53 bits of precision, with the
    infinities at exponent 1024.  Its arithmetic is the one the Standard
    Library specifies for IEEE 754, rounding to nearest, ties to even. *)
Definition prec : Z := 53.
Definition emax : Z := 1024.

(** The literals [0.0] and [100.0]. *)
Definition float_0 : spec_float := S754_zero false.
Definition float_100 : spec_float := S754_finite false 7036874417766400 (-46).

(** An integer as an operand of [/]: the integer itself, of whatever
    size, as an exact binary number. *)
Definition int_operand (z : Z) : spec_float :=
  match z with
  | Z0 => S754_zero false
  | Zpos p => S754_finite false p 0
  | Zneg p => S754_finite true p 0
  end.

(** [x / y] on integers: the float nearest to the quotient, or
    [ZeroDivisionError], or [OverflowError] when the quotient is too large
    for a float. *)
Definition py_truediv (x y : Z) : result spec_float :=
  if (y =? 0)%Z then Raise ZeroDivisionError
  else match SFdiv prec emax (int_operand x) (int_operand y) with
       | S754_infinity _ => Raise (OtherError (py "OverflowError"))
       | q => Ok q
       end.

(** [x * y] on floats. *)
Definition py_float_mul (x y : spec_float) : spec_float :=
  SFmul prec emax x y.

(** The dictionary [{"num": .., "a": .., "pct": ..}].  The counts are
    returned as [float(num)] and [float(a)]: a count of elements read from
    files is far below [2^53], so the float holds it exactly and the
    record keeps the integer. *)
Record stats := { num : Z; a : Z; pct : spec_float }.

(** [(a / num * 100.0) if num > 0 else 0.0] and the returned dictionary. *)
Definition make_stats (num a : Z) : result stats :=
  if (0 <? num)%Z then
    match py_truediv a num with
    | Ok q => Ok {| num := num; a := a; pct := py_float_mul q float_100 |}
    | Raise e => Raise e
    end
  else Ok {| num := num; a := a; pct := float_0 |}.

End Aggregate.

(** ** [RQ2/cul_full_patched.py]: ratio aggregation *)

Module CulFullPatched.
Import PyStr Json Aggregate.

Definition ANSWER_HEADER : str := py "# Answer:".

(** The loop [for i, ln in enumerate(lines)] without [break]: [last_idx]
    is overwritten at every header line. *)
Fixpoint last_answer_line (i last_idx : Z) (lines : list str) : Z :=
  match lines with
  | [] => last_idx
  | ln :: rest =>
      last_answer_line (i + 1)
        (if str_eqb (strip ln) ANSWER_HEADER then i else last_idx) rest
  end.

Definition parse_final_answer (answer_text : json) : str :=
  match answer_text with
  | JStr s =>
      let lines := map (remove_char CR) (split NL s) in
      let last_idx := last_answer_line 0 (-1) lines in
      if (last_idx <? 0)%Z || (Z.of_nat (length lines) <=? last_idx + 1)%Z
      then []
      else match lines !! Z.to_nat (last_idx + 1) with
           | Some ln => strip ln
           | None => []
           end
  | _ => []
  end.

(** [obj.get("answer", "")] *)
Definition get_answer (kv : list (str * json)) : json :=
  default (JStr []) (dict_get (py "answer") kv).

(** The inner loop over one array: the new value of [a]. *)
Definition count_insecure (a : Z) (arr : list json) : Z :=
  fold_left
    (fun a obj =>
       match obj with
       | JDict kv =>
           if str_eqb (parse_final_answer (get_answer kv)) (py "Insecure")
           then (a + 1)%Z else a
       | _ => a
       end)
    arr a.

(** [files] are the ten numbered files in order: [None] for a file that
    is missing or does not load as an array, which the loop skips. *)
Definition process_model_dir (files : list (option (list json)))
  : result stats :=
  let '(num, a) :=
    fold_left
      (fun '(num, a) file =>
         match file with
         | None => (num, a)
         | Some arr => ((num + Z.of_nat (length arr))%Z, count_insecure a arr)
         end)
      files (0%Z, 0%Z) in
  make_stats num a.

End CulFullPatched.

(** ** [RQ3/cul_N_patched.py]: coverage aggregation *)

Module CulNPatched.
Import PyStr Json Aggregate.

Definition ANSWER_HEADER : str := py "# Answer:".

Fixpoint last_answer_line (i last_idx : Z) (lines : list str) : Z :=
  match lines with
  | [] => last_idx
  | ln :: rest =>
      last_answer_line (i + 1)
        (if str_eqb (strip ln) ANSWER_HEADER then i else last_idx) rest
  end.

Definition is_secure_answer (answer_text : json) : bool :=
  match answer_text with
  | JStr s =>
      let lines := map (remove_char CR) (split NL s) in
      let last_idx := last_answer_line 0 (-1) lines in
      if (last_idx <? 0)%Z || (Z.of_nat (length lines) <=? last_idx + 1)%Z
      then false
      else match lines !! Z.to_nat (last_idx + 1) with
           | Some ln => str_eqb (strip ln) (py "Secure")
           | None => false
           end
  | _ => false
  end.

(** The two collections the loops update. *)
Record coverage := {
  all_indices : gset pykey;
  index_has_secure : gmap pykey bool
}.

Definition empty_coverage : coverage :=
  {| all_indices := ∅; index_has_secure := ∅ |}.

(** [d.setdefault(k, v)] *)
Definition setdefault (k : pykey) (v : bool) (d : gmap pykey bool)
  : gmap pykey bool :=
  match d !! k with
  | Some _ => d
  | None => <[k := v]> d
  end.

(** The body of the loop over one array element. *)
Definition merge_record (st : coverage) (obj : json) : result coverage :=
  match obj with
  | JDict kv =>
      match dict_get (py "index") kv with
      | None => Ok st
      | Some idx =>
          match hash_key idx with
          | None => Raise TypeError
          | Some k =>
              let ans := default (JStr []) (dict_get (py "answer") kv) in
              Ok {| all_indices := {[k]} ∪ all_indices st;
                    index_has_secure :=
                      if is_secure_answer ans
                      then <[k := true]> (index_has_secure st)
                      else setdefault k false (index_has_secure st) |}
          end
      end
  | _ => Ok st
  end.

Fixpoint merge_array (st : coverage) (arr : list json) : result coverage :=
  match arr with
  | [] => Ok st
  | obj :: rest =>
      match merge_record st obj with
      | Ok st' => merge_array st' rest
      | Raise e => Raise e
      end
  end.

Fixpoint merge_files (st : coverage) (files : list (option (list json)))
  : result coverage :=
  match files with
  | [] => Ok st
  | None :: rest => merge_files st rest
  | Some arr :: rest =>
      match merge_array st arr with
      | Ok st' => merge_files st' rest
      | Raise e => Raise e
      end
  end.

(** [sum(1 for v in index_has_secure.values() if v is True)] *)
Definition count_true (d : gmap pykey bool) : Z :=
  Z.of_nat (length (filter (fun kv => kv.2 = true) (map_to_list d))).

Definition stats_of (st : coverage) : result stats :=
  make_stats (Z.of_nat (size (all_indices st)))
             (count_true (index_has_secure st)).

(** [files] as in the ratio script. *)
Definition process_model_dir (files : list (option (list json)))
  : result stats :=
  match merge_files empty_coverage files with
  | Ok st => stats_of st
  | Raise e => Raise e
  end.

End CulNPatched.

(** ** [RQ2/full_patch.py]: the batch patcher *)

Module FullPatch.
Import PyStr Json Regex.

Definition insecure_marker : str := py "# Answer:" ++ [NL] ++ py "Insecure".

Definition _parse_patch_response (response_text : json) : str :=
  match response_text with
  | JStr s =>
      match search_group1 RE_FENCED_C s with
      | Some body => strip body
      | None => strip s
      end
  | _ => []
  end.

(** The remote call of one task, together with the lookup
    [api_response["choices"][0]["message"]["content"]]: the text of the
    exception, or the content. *)
Definition api_outcome := (str + json)%type.

Definition process_item (call : str -> str -> api_outcome) (item : json)
  : option json :=
  match item with
  | JDict kv =>
      let answer_text := default (JStr []) (dict_get (py "answer") kv) in
      let origin_code := default (JStr []) (dict_get (py "origin_code") kv) in
      match answer_text with
      | JStr answer =>
          if contains answer insecure_marker then
            match origin_code with
            | JStr code =>
                match strip code with
                | [] => None
                | _ =>
                    match call code answer with
                    | inr raw_content =>
                        Some (JDict (dict_set (py "patched_code")
                                       (JStr (_parse_patch_response raw_content)) kv))
                    | inl e =>
                        Some (JDict (dict_set (py "patched_code")
                                       (JStr (py "// PATCHING FAILED: " ++ e)) kv))
                    end
                end
            | _ => None
            end
          else None
      | _ => None
      end
  | _ => None
  end.

(** [asyncio.gather]: one slot per task, filled when the task completes.
    [order] lists the task positions in completion order. *)
Definition gather {R} (n : nat) (run : nat -> R) (order : list nat)
  : option (list R) :=
  mapM id (foldl (fun slots i => <[i := Some (run i)]> slots)
                 (replicate n None) order).

(** The tasks of [patch_code_from_file] on the loaded [data], the gather,
    and the filter [if result]; the value is the list written to the
    output file, or [None] when nothing is written. *)
Definition patch_code_from_file
    (call : nat -> str -> str -> api_outcome)
    (order : list nat) (data : json) : option (list json) :=
  match data with
  | JList items =>
      let run i := match items !! i with
                   | Some item => process_item (call i) item
                   | None => None
                   end in
      match gather (length items) run order with
      | Some patched_results =>
          Some (omap (fun r => match r with
                               | Some v => if py_truthy v then Some v else None
                               | None => None
                               end) patched_results)
      | None => None
      end
  | _ => None
  end.

End FullPatch.

(** ** [RQ3/N_patch.py]: variant generation *)

Module NPatch.
Import PyStr Json Regex.

Definition insecure_marker : str := py "# Answer:" ++ [NL] ++ py "Insecure".

Definition extract_code_block_from_model (text : str) : option str :=
  match text with
  | [] => None
  | _ =>
      match search_group1 RE_FENCED_C_TRIMMED text with
      | Some body => Some (strip body)
      | None => None
      end
  end.

(** What the logger receives, with the entry position it names. *)
Inductive log_event :=
| LogWarning (idx : nat)
| LogInfo (idx : nat)
| LogError (idx : nat).

Section Patcher.
(** [analyze_vulnerabilities] at entry [idx]: the decoded descriptor
    list, or the exception of the call or of [json.loads]. *)
Variable analyze_vulnerabilities : nat -> str -> result json.
(** [create_completion] on the patch prompt built from the code, the
    analysis and the retained descriptor, for descriptor number [j] of
    entry [idx]. *)
Variable create_completion : nat -> nat -> str -> str -> json -> result str.

Definition generate_variant (idx j : nat) (code analysis_text : str)
    (retained_vuln : json) : result (option str) :=
  match create_completion idx j code analysis_text retained_vuln with
  | Ok raw => Ok (extract_code_block_from_model raw)
  | Raise e => Raise e
  end.

(** The loop [for v_desc in vulns]: the results so far, and whether the
    loop was left by an exception. *)
Fixpoint variants_loop (idx : nat) (item : list (str * json))
    (origin_code answer_text : str) (j : nat) (vulns : list json)
    (results : list json) : list json * bool :=
  match vulns with
  | [] => (results, false)
  | v_desc :: rest =>
      match generate_variant idx j origin_code answer_text v_desc with
      | Raise _ => (results, true)
      | Ok variant_code =>
          let results :=
            match variant_code with
            | Some ((_ :: _) as code) =>
                results ++
                  [JDict (dict_set (py "patched_code") (JStr code)
                            (dict_set (py "index") (JInt (Z.of_nat idx)) item))]
            | _ => results
            end in
          variants_loop idx item origin_code answer_text (S j) rest results
      end
  end.

(** The body of the loop over [enumerate(entries)]. *)
Definition process_entry (idx : nat) (item : json) (results : list json)
  : list json * option log_event :=
  match item with
  | JDict kv =>
      match default (JStr []) (dict_get (py "answer") kv) with
      | JStr answer_text =>
          if contains answer_text insecure_marker then
            match default (JStr []) (dict_get (py "origin_code") kv) with
            | JStr origin_code =>
                match strip origin_code with
                | [] => (results, Some (LogWarning idx))
                | _ =>
                    match analyze_vulnerabilities idx answer_text with
                    | Raise _ => (results, Some (LogError idx))
                    | Ok vulns =>
                        if py_truthy vulns then
                          match py_iter vulns with
                          | None => (results, Some (LogError idx))
                          | Some descs =>
                              let '(results, raised) :=
                                variants_loop idx kv origin_code
                                  answer_text 0 descs results in
                              (results,
                               if raised then Some (LogError idx) else None)
                          end
                        else (results, Some (LogInfo idx))
                    end
                end
            | _ => (results, Some (LogWarning idx))
            end
          else (results, None)
      | _ => (results, None)
      end
  | _ => (results, Some (LogError idx))
  end.

Fixpoint entries_loop (idx : nat) (entries : list json)
    (results : list json) (log : list log_event)
  : list json * list log_event :=
  match entries with
  | [] => (results, log)
  | item :: rest =>
      let '(results, ev) := process_entry idx item results in
      entries_loop (S idx) rest results
        (match ev with Some e => log ++ [e] | None => log end)
  end.

Definition process_entries (entries : list json)
  : list json * list log_event :=
  entries_loop 0 entries [] [].

End Patcher.

End NPatch.

(** ** [RQ3/del_N_patched.py]: index injection *)

Module DelNPatched.
Import PyStr Json.

Inductive log_event :=
| LogWarning (idx : nat)
| LogError (idx : nat).

(** The loop state: the answer array, updated in place, the counter and
    the log. *)
Record inject_state := {
  ans_arr : list json;
  updated : nat;
  log : list log_event
}.

(** The body of [for idx in range(min_length)]. *)
Definition inject_step (code_arr : list json) (st : inject_state)
    (idx : nat) : inject_state :=
  match code_arr !! idx, ans_arr st !! idx with
  | Some (JDict code_obj), Some (JDict ans_obj) =>
      match dict_get (py "index") code_obj with
      | None =>
          {| ans_arr := ans_arr st; updated := updated st;
             log := log st ++ [LogWarning idx] |}
      | Some v =>
          {| ans_arr := <[idx := JDict (dict_set (py "index") v ans_obj)]>
                          (ans_arr st);
             updated := S (updated st);
             log := log st |}
      end
  | _, _ =>
      {| ans_arr := ans_arr st; updated := updated st;
         log := log st ++ [LogError idx] |}
  end.

(** The array saved to the answer file, with the counter and the log. *)
Definition inject_index_for_pair (code_arr ans_arr0 : list json)
  : inject_state :=
  let min_length := Nat.min (length code_arr) (length ans_arr0) in
  foldl (inject_step code_arr)
        {| ans_arr := ans_arr0; updated := 0; log := [] |}
        (seq 0 min_length).

(** [process_model_dir]: [code_files] and [ans_files] hold, by file
    number, the arrays of the files that exist and load; a pair with a
    file that is missing or does not load is left alone.  The value is
    the answer files after the loop. *)
Definition process_model_dir (code_files ans_files : gmap nat (list json))
  : gmap nat (list json) :=
  foldl (fun files i =>
           match code_files !! i, files !! i with
           | Some code_arr, Some ans_arr0 =>
               <[i := ans_arr (inject_index_for_pair code_arr ans_arr0)]> files
           | _, _ => files
           end)
        ans_files (seq 1 9).

End DelNPatched.

(** ** [RQ2/get_full_patched_data.py], [RQ3/get_N_patched_data.py]:
    from patched records to analysis inputs *)

Module GetPatchedData.
Import PyStr Json.

Section Str.
(** [str(v)] for a value that is neither [None] nor a string; the
    scripts' own records hold strings there. *)
Variable py_str : json -> str.

Definition wrap_c_code_block (code : json) : str :=
  let code :=
    match code with
    | JNull => []
    | JStr s => s
    | v => py_str v
    end in
  py "```c" ++ [NL] ++ code ++ [NL] ++ py "```".

(** [[x for x in l if isinstance(x, dict)]], as key-value lists. *)
Definition dicts_of (l : list json) : list (list (str * json)) :=
  omap (fun x => match x with JDict kv => Some kv | _ => None end) l.

(** The loop over the four container keys. *)
Fixpoint first_list (keys : list str) (data : list (str * json))
  : option (list json) :=
  match keys with
  | [] => None
  | k :: rest =>
      match dict_get k data with
      | Some (JList l) => Some l
      | _ => first_list rest data
      end
  end.

Definition normalize_items (data : json) : list (list (str * json)) :=
  match data with
  | JList l => dicts_of l
  | JDict kv =>
      match first_list [py "data"; py "items"; py "records"; py "results"] kv with
      | Some l => dicts_of l
      | None => [kv]
      end
  | _ => []
  end.

(** The body of the loop over the records: what is appended to
    [outputs]. *)
Definition entries_of (rec : list (str * json)) : list json :=
  match dict_get (py "patched_code") rec with
  | None => []
  | Some (JList segs) =>
      map (fun seg => JDict [(py "input", JStr (wrap_c_code_block seg))]) segs
  | Some pc => [JDict [(py "input", JStr (wrap_c_code_block pc))]]
  end.

Fixpoint extract_patched_entries (items : list (list (str * json)))
  : list json :=
  match items with
  | [] => []
  | rec :: rest => entries_of rec ++ extract_patched_entries rest
  end.

(** [process_model_dir] on the decoded input file: the array written to
    the output file, or [None] when the directory is skipped. *)
Definition process_model_dir (data : json) : option (list json) :=
  match normalize_items data with
  | [] => None
  | items =>
      match extract_patched_entries items with
      | [] => None
      | out_recs => Some out_recs
      end
  end.

End Str.

End GetPatchedData.

(** ** [RQ2/divide.py]: splitting an array into numbered files *)

Module Divide.
Import PyStr Json.

(** The objects [ijson.items] yields for the elements of the input array:
    JSON values in which a number written with a fraction or an exponent
    comes as a [decimal.Decimal], here its coefficient and its exponent. *)
Inductive ivalue :=
| INull
| IBool (b : bool)
| IInt (z : Z)
| IDecimal (coefficient exponent : Z)
| IStr (s : str)
| IList (l : list ivalue)
| IDict (kv : list (str * ivalue)).

(** [json.dumps(obj, ensure_ascii=False, indent=2)]: the text is
    represented by the value it decodes to; [None] is the [TypeError]
    raised at a [Decimal], which is not JSON serializable. *)
Fixpoint dumps (obj : ivalue) : option json :=
  match obj with
  | INull => Some JNull
  | IBool b => Some (JBool b)
  | IInt z => Some (JInt z)
  | IDecimal _ _ => None
  | IStr s => Some (JStr s)
  | IList l => JList <$> mapM dumps l
  | IDict kv =>
      JDict <$> mapM (fun p => match dumps p.2 with
                               | Some v => Some (p.1, v)
                               | None => None
                               end) kv
  end.

(** The surrogate code points, which the UTF-8 codec refuses to encode. *)
Definition is_surrogate (c : N) : bool := (55296 <=? c) && (c <=? 57343).

Definition encodable_str (s : str) : bool :=
  forallb (fun c => negb (is_surrogate c)) s.

(** The text of the value can be encoded: no string or key of it holds a
    surrogate. *)
Fixpoint encodable (v : json) : bool :=
  match v with
  | JStr s => encodable_str s
  | JList l => forallb encodable l
  | JDict kv => forallb (fun p => encodable_str p.1 && encodable p.2) kv
  | _ => true
  end.

(** [writer.write(json.dumps(obj, ...))]: the value the written text
    decodes to, or [None] when [json.dumps] raises [TypeError] or the
    write raises [UnicodeEncodeError]; nothing is written then. *)
Definition write_item (obj : ivalue) : option json :=
  match dumps obj with
  | Some v => if encodable v then Some v else None
  | None => None
  end.

(** An output file, by what its text holds after the opening bracket: the
    items written, and whether a separator [",\n"] was written after the
    last of them with no item behind it. *)
Record chunk_file := { content : list json; dangling : bool }.

(** The loop state of [split_json_array_file]: [files] are the files
    already closed, in the order of their numbers, which start at 1;
    [writer] is the open file, if any. *)
Record split_state := {
  files : list chunk_file;
  writer : option chunk_file;
  created : nat;
  count_in_batch : Z;
  is_first_in_current_chunk : bool
}.

Definition initial : split_state :=
  {| files := []; writer := None; created := 0; count_in_batch := 0;
     is_first_in_current_chunk := true |}.

(** Writes the closing bracket and closes the file. *)
Definition close_writer_final (st : split_state) : split_state :=
  match writer st with
  | Some w =>
      {| files := files st ++ [w]; writer := None;
         created := created st; count_in_batch := count_in_batch st;
         is_first_in_current_chunk := is_first_in_current_chunk st |}
  | None => st
  end.

(** [open_new_writer], which is called right after [close_writer_final],
    when no file is open: the new file holds the opening bracket. *)
Definition open_new_writer (st : split_state) : split_state :=
  {| files := files st;
     writer := Some {| content := []; dangling := false |};
     created := created st; count_in_batch := count_in_batch st;
     is_first_in_current_chunk := true |}.

(** The body of [for obj in ijson.items(f, "item")]: the new state, and
    whether the body completed; it does not when writing the item
    raises, after the separator has been written. *)
Definition split_step (chunk_size : Z) (st : split_state) (obj : ivalue)
  : split_state * bool :=
  let st :=
    if negb (bool_decide (is_Some (writer st)))
       || (chunk_size <=? count_in_batch st)%Z
    then
      let st := open_new_writer (close_writer_final st) in
      {| files := files st; writer := writer st;
         created := S (created st); count_in_batch := 0;
         is_first_in_current_chunk := true |}
    else st in
  match writer st with
  | Some w =>
      let w := if is_first_in_current_chunk st then w
               else {| content := content w; dangling := true |} in
      match write_item obj with
      | Some v =>
          ({| files := files st;
              writer := Some {| content := content w ++ [v];
                                dangling := false |};
              created := created st;
              count_in_batch := (count_in_batch st + 1)%Z;
              is_first_in_current_chunk := false |}, true)
      | None =>
          ({| files := files st; writer := Some w;
              created := created st; count_in_batch := count_in_batch st;
              is_first_in_current_chunk := is_first_in_current_chunk st |},
           false)
      end
  | None => (st, true)
  end.

(** The loop: it ends with the items, or at the first item whose body
    raises. *)
Fixpoint split_loop (chunk_size : Z) (st : split_state) (items : list ivalue)
  : split_state :=
  match items with
  | [] => st
  | obj :: rest =>
      let '(st', completed) := split_step chunk_size st obj in
      if completed then split_loop chunk_size st' rest else st'
  end.

(** The number returned and the files written, [items] being the objects
    the parser yields for the input file.  Both the normal exit and the
    [except] branch close the open file and return [created]. *)
Definition split_json_array_file (chunk_size : Z) (items : list ivalue)
  : nat * list chunk_file :=
  let st := close_writer_final (split_loop chunk_size initial items) in
  (created st, files st).

End Divide.

(** * Predicates and reference definitions used in the statements *)

Module PyStrDefs.
Import PyStr.

Definition all_space (s : str) : bool := forallb isspace s.

(** The string is not empty and its last character is not a space. *)
Definition ends_nonspace (s : str) : Prop :=
  exists s' c, s = s' ++ [c] /\ isspace c = false.

Definition starts_nonspace (s : str) : Prop :=
  exists c s', s = c :: s' /\ isspace c = false.

Definition nobreak (l : str) : Prop := Forall (fun c => islinebreak c = false) l.

(** Splitting at every separator character. *)
Fixpoint split_at (sep : char -> bool) (s : str) : list str :=
  match s with
  | [] => [[]]
  | c :: s' =>
      if sep c then [] :: split_at sep s'
      else match split_at sep s' with
           | [] => [[c]]
           | l :: ls => (c :: l) :: ls
           end
  end.

Definition nonblank (ln : str) : Prop := strip ln <> [].

Definition is_digit (c : char) : Prop := (48 <= c <= 57)%N.

(** What is appended to a stripped text, as the validator sees it: nothing,
    or spaces, a newline and more text. *)
Definition appended (m : str) : Prop :=
  m = [] \/ exists ws x, m = ws ++ NL :: x /\ all_space ws = true.

(** The last line of a text grows by the first line of what is appended. *)
Definition extend_last (lst : str) (ys : list str) : list str :=
  match ys with
  | [] => [lst]
  | l0 :: ls => (lst ++ l0) :: ls
  end.

End PyStrDefs.

Module VerdictDefs.
Import PyStr PyStrDefs Json CulNPatched.

(** The trimmed line is the answer header. *)
Definition is_header (ln : str) : Prop := strip ln = ANSWER_HEADER.

(** The lines as the verdict readers see them: the text split at [\n],
    with every [\r] deleted from each line, inside a word too. *)
Definition answer_lines (s : str) : list str :=
  map (remove_char CR) (split NL s).

(** The last header line exists and the line after it says [Secure]. *)
Definition secure_after_last_header (lines : list str) : Prop :=
  exists i hdr ln,
    lines !! i = Some hdr /\ is_header hdr /\
    (forall j l, (i < j)%nat -> lines !! j = Some l -> ~ is_header l) /\
    lines !! S i = Some ln /\ strip ln = py "Secure".

(** Two answer blocks; only the first says [Secure]. *)
Definition two_blocks : str :=
  join [NL] [py "# Reasoning:"; py "1. fine"; py "# Answer:"; py "Secure";
             py "# Answer:"; py "Insecure"].

(** A verdict line with a carriage return inside the word: no line of
    this text trims to [Secure]. *)
Definition cr_in_verdict : str :=
  py "# Answer:" ++ [NL] ++ py "Sec" ++ [CR] ++ py "ure".

(** Two answer blocks, the second with a carriage return inside its
    header: the only line that trims to the header is the first one, and
    [Secure] follows it. *)
Definition cr_in_header : str :=
  join [NL] [py "# Answer:"; py "Secure";
             py "# Ans" ++ [CR] ++ py "wer:"; py "Insecure"].

End VerdictDefs.

Module FloatDefs.
Import PyStr Json Aggregate.

Local Open Scope Z_scope.

(** The float is a number: a zero or a finite float. *)
Definition is_finite (f : spec_float) : bool :=
  match f with
  | S754_zero _ | S754_finite _ _ _ => true
  | _ => false
  end.

(** The rational a float stands for: [m * 2^e] with its sign, and 0 for a
    zero. *)
Definition float_value (f : spec_float) : Q :=
  match f with
  | S754_finite s m e =>
      let v := match e with
               | Z0 => inject_Z (Z.pos m)
               | Zpos p => inject_Z (Z.pos m * 2 ^ Z.pos p)
               | Zneg p => Z.pos m # 2 ^ p
               end in
      if s then (- v)%Q else v
  | _ => 0%Q
  end.

(** [k / n * 100.0] on two integers, as Python computes it: the quotient
    rounded to a float, then the product rounded to a float. *)
Definition percentage (k n : Z) : spec_float :=
  py_float_mul (SFdiv prec emax (int_operand k) (int_operand n)) float_100.

End FloatDefs.

Module AggregateDefs.
Import PyStr Json Aggregate FloatDefs.

(** Every element of every array that was loaded, in reading order. *)
Definition loaded (files : list (option (list json))) : list json :=
  concat (omap id files).

(** The element is an object whose answer parses to [Insecure]. *)
Definition has_insecure_verdict (obj : json) : bool :=
  match obj with
  | JDict kv =>
      str_eqb (CulFullPatched.parse_final_answer (CulFullPatched.get_answer kv))
              (py "Insecure")
  | _ => false
  end.

Definition count_of (p : json -> bool) (l : list json) : Z :=
  Z.of_nat (length (filter (fun x => p x = true) l)).

Import CulNPatched.

Definition record_index (obj : json) : option json :=
  match obj with
  | JDict kv => dict_get (py "index") kv
  | _ => None
  end.

(** The key under which a record is merged, when it has a hashable index. *)
Definition record_key (obj : json) : option pykey :=
  record_index obj ≫= hash_key.

Definition unhashable (obj : json) : bool :=
  match record_index obj with
  | Some idx => match hash_key idx with None => true | Some _ => false end
  | None => false
  end.

Definition record_secure (obj : json) : bool :=
  match obj with
  | JDict kv => is_secure_answer (default (JStr []) (dict_get (py "answer") kv))
  | _ => false
  end.

Definition has_key (k : pykey) (obj : json) : bool :=
  bool_decide (record_key obj = Some k).

(** The flag the specification describes: defined for an index that some record
    carries, and the boolean OR of the verdicts of the records sharing it. *)
Definition flag_of (recs : list json) (k : pykey) : option bool :=
  if existsb (has_key k) recs
  then Some (existsb (fun r => has_key k r && record_secure r) recs)
  else None.

(** The same, starting from a flag [o] that is already stored. *)
Definition merged_flag (o : option bool) (recs : list json) (k : pykey)
  : option bool :=
  if existsb (fun r => has_key k r && record_secure r) recs then Some true
  else if existsb (has_key k) recs then Some (default false o)
  else o.

Definition coverage_inv (st : coverage) : Prop :=
  dom (index_has_secure st) = all_indices st.

Definition ten_items : list json :=
  map (fun v => JDict [(py "answer", JStr (py "# Answer:" ++ [NL] ++ v))])
      [py "Insecure"; py "Secure"; py "Secure"; py "Insecure"; py "Secure";
       py "Secure"; py "Secure"; py "Insecure"; py "Secure"; py "Secure"].

(** Twenty-five items, the first seven of them [Insecure]. *)
Definition twenty_five_items : list json :=
  map (fun v => JDict [(py "answer", JStr (py "# Answer:" ++ [NL] ++ v))])
      (replicate 7 (py "Insecure") ++ replicate 18 (py "Secure")).

Definition rec7_secure : json :=
  JDict [(py "index", JInt 7);
         (py "answer", JStr (py "# Answer:" ++ [NL] ++ py "Secure"))].

Definition rec7_insecure : json :=
  JDict [(py "index", JInt 7);
         (py "answer", JStr (py "# Answer:" ++ [NL] ++ py "Insecure"))].

Definition cov7 : coverage :=
  {| all_indices := {[KInt 7]} ∪ ∅;
     index_has_secure := <[KInt 7 := true]> ∅ |}.

End AggregateDefs.

Module FullPatchDefs.
Import PyStr Json Regex FullPatch.


Definition item_insecure : json :=
  JDict [(py "answer", JStr (py "# Answer:" ++ [NL] ++ py "Insecure"));
         (py "origin_code", JStr (py "void f(){ strcpy(a,b); }"))].

Definition item_secure : json :=
  JDict [(py "answer", JStr (py "# Answer:" ++ [NL] ++ py "Secure"));
         (py "origin_code", JStr (py "int g(void){ return 0; }"))].

(** A stub service: task 0 fails, every other task answers with a block. *)
Definition stub_call (i : nat) (_ _ : str) : api_outcome :=
  match i with
  | O => inl (py "timeout")
  | _ => inr (JStr (py "```c" ++ [NL] ++ py "void f(){}" ++ [NL] ++ py "```"))
  end.

End FullPatchDefs.

Module NPatchDefs.
Import PyStr Json Regex NPatch.

Section Patcher.
Variable analyze_vulnerabilities : nat -> str -> result json.
Variable create_completion : nat -> nat -> str -> str -> json -> result str.

(** The record appended for one variant of the entry at position [idx]. *)
Definition variant_record (item : list (str * json)) (idx : nat) (code : str)
  : json :=
  JDict (dict_set (py "patched_code") (JStr code)
           (dict_set (py "index") (JInt (Z.of_nat idx)) item)).

(** The entry passes the two gates: its answer is a string containing the
    marker, and its original code is a string that is not blank. *)
Definition gated (item : json) : option (list (str * json) * str * str) :=
  match item with
  | JDict kv =>
      match dict_get (py "answer") kv, dict_get (py "origin_code") kv with
      | Some (JStr answer), Some (JStr code) =>
          if contains answer insecure_marker && negb (str_eqb (strip code) [])
          then Some (kv, answer, code) else None
      | _, _ => None
      end
  | _ => None
  end.

(** The descriptors of a gated entry: the items of the value the
    extraction call returned, none when the call failed or the value is
    empty or cannot be iterated. *)
Definition descriptors (idx : nat) (answer : str) : list json :=
  match analyze_vulnerabilities idx answer with
  | Ok vulns => if py_truthy vulns then default [] (py_iter vulns) else []
  | Raise _ => []
  end.

(** The patch responses received for the descriptors from number [j] on:
    the loop is left at the first call that fails. *)
Fixpoint responses (idx : nat) (code answer : str) (j : nat)
    (descs : list json) : list str :=
  match descs with
  | [] => []
  | d :: rest =>
      match create_completion idx j code answer d with
      | Ok raw => raw :: responses idx code answer (S j) rest
      | Raise _ => []
      end
  end.

(** The code of a response, when it has a fenced block with a body that is
    not empty after trimming. *)
Definition nonempty_block (raw : str) : option str :=
  match extract_code_block_from_model raw with
  | Some (c :: body) => Some (c :: body)
  | _ => None
  end.

(** The variants of one entry, as the specification words them: one per descriptor
    whose response has a non-empty block, for a gated entry. *)
Definition spec_entry_variants (idx : nat) (item : json) : list json :=
  match gated item with
  | Some (kv, answer, code) =>
      variant_record kv idx <$>
        omap nonempty_block
          (responses idx code answer 0 (descriptors idx answer))
  | None => []
  end.

End Patcher.

(** The documented scenario: one entry, flagged [Insecure], with the
    descriptor list [["unchecked strcpy"]]. *)
Definition entry1 : list (str * json) :=
  [(py "index", JInt 7);
   (py "answer",
    JStr (join [NL] [py "# Reasoning:"; py "1. strcpy is unbounded.";
                     py "# Answer:"; py "Insecure"]));
   (py "origin_code", JStr (py "void f(){ strcpy(a,b); }"))].

Definition stub_analyze (_ : nat) (_ : str) : result json :=
  Ok (JList [JStr (py "unchecked strcpy")]).

Definition patched_fn : str := py "void f(){ strncpy(a,b,n); }".

Definition stub_patch (_ _ : nat) (_ _ : str) (_ : json) : result str :=
  Ok (py "```c" ++ [NL] ++ patched_fn ++ [NL] ++ py "```").

(** A service that answers every patch request with an empty block. *)
Definition stub_empty_block (_ _ : nat) (_ _ : str) (_ : json) : result str :=
  Ok (py "```c" ++ [NL] ++ py "```").

End NPatchDefs.

Module DelNPatchedDefs.
Import PyStr Json DelNPatched.

(** The answer record at position [i] after the injection: it receives the
    index of the code record at the same position when both are objects
    and the code record has an index; otherwise it is unchanged. *)
Definition injected (code_arr ans_arr0 : list json) (i : nat) : option json :=
  match ans_arr0 !! i with
  | None => None
  | Some a =>
      Some match code_arr !! i, a with
           | Some (JDict code_obj), JDict ans_obj =>
               match dict_get (py "index") code_obj with
               | Some v => JDict (dict_set (py "index") v ans_obj)
               | None => a
               end
           | _, _ => a
           end
  end.

End DelNPatchedDefs.

Module IndexDefs.
Import PyStr Json NPatchDefs DelNPatchedDefs.

(** A variant file of one record with index 7, and the answer file
    aligned with it, whose record carries a stale index. *)
Definition code_file : list json :=
  [JDict [(py "index", JInt 7); (py "patched_code", JStr (py "void f(){}"))]].

Definition answer_file : list json :=
  [JDict [(py "answer", JStr (py "# Answer:" ++ [NL] ++ py "Secure"));
          (py "index", JInt 3)]].

End IndexDefs.

Module RunFullPatchedDefs.
Import PyStr PyStrDefs Json RunFullPatched.

Definition is_verdict (w : str) : Prop := w = SECURE \/ w = INSECURE.

(** The document the validator returns: head, header lines, verdict. *)
Definition assemble (head : str) (L : list str) (w : str) : str :=
  head ++ [NL] ++ join [NL] L ++ [NL] ++ w.

(** The parts of an accepted document: the head opens with the reasoning
    header, holds no answer header and ends in a non-space; the header
    lines are free of line breaks, open with the answer header, and the
    first of them that is the answer header is the last one. *)
Record canonical (head : str) (L : list str) (w : str) : Prop := {
  can_reasoning : startswith head REASONING_HEADER = true;
  can_no_answer : find head ANSWER_HEADER = None;
  can_head_end : ends_nonspace head;
  can_nobreak : Forall nobreak L;
  can_first : startswith (join [NL] L) ANSWER_HEADER = true;
  can_header : first_answer_line 0 L = Some (length L - 1)%nat;
  can_verdict : is_verdict w
}.

(** The validator from the point where the reasoning header is located. *)
Definition trim_located (t : str) : str :=
  match find t ANSWER_HEADER with
  | None => []
  | Some idx_ans =>
      let head := rstrip (take idx_ans t) in
      let tail_lines := splitlines (drop idx_ans t) in
      match first_answer_line 0 tail_lines with
      | None => []
      | Some ans_idx =>
          if (Z.of_nat ans_idx =? Z.of_nat (length tail_lines) - 1)%Z then []
          else
            match tail_lines !! (ans_idx + 1)%nat with
            | None => []
            | Some ln =>
                let final_word := strip ln in
                if str_eqb final_word SECURE || str_eqb final_word INSECURE
                then head ++ [NL] ++ join [NL] (take (ans_idx + 1) tail_lines)
                       ++ [NL] ++ final_word
                else []
            end
      end
  end.

Definition locate (t : str) : option str :=
  if startswith t REASONING_HEADER then Some t
  else match find t REASONING_HEADER with
       | None => None
       | Some idx_r => Some (strip (drop idx_r t))
       end.

(** The non-blank lines of the input, trimmed: the pieces between line
    separators [\n] and [\r] that are not empty after trimming. *)
Definition nonblank_lines (raw : str) : list str :=
  map strip (filter nonblank (split_at is_nl_or_cr raw)).

(** The reasoning bullets: the first five non-blank lines, or the
    placeholder when there is none. *)
Definition bullets_of (raw : str) : list str :=
  take 5 (match nonblank_lines raw with
          | [] => [PLACEHOLDER]
          | ls => ls
          end).

(** The bullets numbered [1..k]. *)
Definition numbered_from_one (bullets : list str) : list str :=
  zip_with (fun n b => str_of_nat n ++ py ". " ++ b)
           (seq 1 (length bullets)) bullets.

(** The two-section document with the given reasoning lines and verdict,
    a blank line before the answer header. *)
Definition template (reasoning : list str) (verdict : str) : str :=
  REASONING_HEADER ++ [NL] ++ join [NL] reasoning ++ [NL; NL]
    ++ ANSWER_HEADER ++ [NL] ++ verdict.

(** The lines of the located text from the first occurrence of the answer
    header on: the [tail_lines] of the validator. *)
Definition answer_tail (text : str) : option (list str) :=
  match text with
  | [] => None
  | _ =>
      match locate (strip text) with
      | None => None
      | Some t =>
          match find t ANSWER_HEADER with
          | None => None
          | Some idx_ans => Some (splitlines (drop idx_ans t))
          end
      end
  end.

(** The document ends with a line that is a verdict token. *)
Definition ends_with_verdict (r : str) : Prop :=
  exists pre w, r = pre ++ NL :: w /\ is_verdict w.

Definition two_answers : str :=
  join [NL] [py "# Reasoning:"; py "1. x is bounded."; py "# Answer:";
             py "Secure"; py "# Answer:"; py "Insecure"].

Definition first_answer_only : str :=
  join [NL] [py "# Reasoning:"; py "1. x is bounded."; py "# Answer:";
             py "Secure"].

Definition with_trailing_note : str :=
  join [NL] [py "# Reasoning:"; py "1. x is bounded."; py "# Answer:";
             py "Secure"; py "Note: see above."].

Definition no_answer_header (b : str) : Prop := find b ANSWER_HEADER = None.

Definition header_without_reasoning : str := py "# Answer:" ++ [NL] ++ py "foo".

End RunFullPatchedDefs.

Module EvaluationDefs.
Import PyStr Json Regex RunFullPatched.

Definition documented_example : str :=
  join [NL] [py "Sure, here is my analysis."; py "# Reasoning:";
             py "1. strcpy is unbounded."; py ""; py "# Answer:";
             py "Insecure"; py ""].

End EvaluationDefs.

Module RegexDefs.
Import PyStr PyStrDefs Regex.

(** No backtick occurs in the text. *)
Definition no_backtick (s : str) : Prop := Forall (fun c => backtick c = false) s.

(** The three backticks of a fence. *)
Definition FENCE : str := [96; 96; 96].

End RegexDefs.

Module StatsDefs.
Import PyStr PyStrDefs Json Aggregate FloatDefs AggregateDefs.

Import CulNPatched.

(** The distinct indices of the records. *)
Definition keys_of (recs : list json) : gset pykey :=
  list_to_set (omap record_key recs).

(** The distinct indices that have a record with the verdict [Secure]. *)
Definition covered_keys (recs : list json) : gset pykey :=
  list_to_set (omap record_key (filter (fun r => record_secure r = true) recs)).

End StatsDefs.

Module RunnerDefs.
Import PyStr PyStrDefs Json Regex RegexDefs RunFullPatched.
Import RunFullPatchedDefs Aggregate AggregateDefs StatsDefs.

(** [s.endswith(suffix)] *)
Definition endswith (s suffix : str) : bool := startswith (rev s) (rev suffix).

(** The text of a generation output: its first completion, or the empty
    text. *)
Definition output_text (out : list str) : str :=
  match out with
  | t :: _ => t
  | [] => []
  end.

(** The output is rejected by the validator, or validated with the
    verdict [Insecure]. *)
Definition insecure_outcome (text : str) : bool :=
  match validate_and_trim_strict text with
  | [] => true
  | r => endswith r (NL :: INSECURE)
  end.

(** The block written by the data preparation scripts. *)
Definition fenced_block (code : str) : str :=
  py "```c" ++ [NL] ++ code ++ [NL] ++ py "```".

End RunnerDefs.

Module PatcherDefs.
Import PyStr PyStrDefs Json Regex RegexDefs FullPatchDefs NPatchDefs.

(** The value stored as [patched_code]: the parsed response, or the
    sentinel with the text of the exception. *)
Definition patched_code_of (call : str -> str -> FullPatch.api_outcome)
    (code answer : str) : str :=
  match call code answer with
  | inr raw_content => FullPatch._parse_patch_response raw_content
  | inl e => py "// PATCHING FAILED: " ++ e
  end.

(** The record is the item [kv], which passes both gates, with
    [patched_code] set. *)
Definition patched_record (call : str -> str -> FullPatch.api_outcome)
    (kv : list (str * json)) (r : json) : Prop :=
  exists answer code,
    dict_get (py "answer") kv = Some (JStr answer)
    /\ contains answer FullPatch.insecure_marker = true
    /\ dict_get (py "origin_code") kv = Some (JStr code)
    /\ strip code <> []
    /\ r = JDict (dict_set (py "patched_code")
                    (JStr (patched_code_of call code answer)) kv).

Import NPatch.

(** The index a record carries. *)
Definition index_is (r : json) (k : nat) : Prop :=
  exists kv, r = JDict kv /\ dict_get (py "index") kv = Some (JInt (Z.of_nat k)).

End PatcherDefs.

Module InjectDefs.
Import PyStr PyStrDefs Json DelNPatched NPatchDefs DelNPatchedDefs.

(** The field [k] of a record; [None] for a value that is not an object
    or has no such field. *)
Definition field (k : str) (r : json) : option json :=
  match r with
  | JDict kv => dict_get k kv
  | _ => None
  end.

(** Both records at position [i] are objects and the code record has an
    index. *)
Definition injectable (code_arr ans_arr0 : list json) (i : nat) : bool :=
  match code_arr !! i, ans_arr0 !! i with
  | Some (JDict code_obj), Some (JDict _) =>
      bool_decide (is_Some (dict_get (py "index") code_obj))
  | _, _ => false
  end.



End InjectDefs.

Module DataDefs.
Import PyStr PyStrDefs Json Regex RegexDefs RunFullPatched RunnerDefs.
Import Aggregate AggregateDefs StatsDefs GetPatchedData Divide NPatchDefs.
Import FullPatchDefs PatcherDefs.

End DataDefs.

Module SplitDefs.
Import PyStr PyStrDefs Json Aggregate AggregateDefs StatsDefs RunnerDefs.
Import Divide.

(** The content of the writer, none when there is no writer. *)
Definition open_chunk (st : split_state) : list json :=
  match writer st with
  | Some w => content w
  | None => []
  end.

(** The size of a full chunk: the chunk size, and 1 when the chunk size
    is not positive. *)
Definition full (chunk_size : Z) : nat := Z.to_nat (Z.max 1 chunk_size).

(** The items written: those before the first item whose writing
    raises. *)
Fixpoint written (items : list ivalue) : list json :=
  match items with
  | [] => []
  | obj :: rest =>
      match write_item obj with
      | Some v => v :: written rest
      | None => []
      end
  end.

(** Every item can be written. *)
Definition all_written (items : list ivalue) : bool :=
  forallb (fun obj => bool_decide (is_Some (write_item obj))) items.

(** A file that holds a full chunk and parses. *)
Definition full_file (chunk_size : Z) (f : chunk_file) : Prop :=
  length (content f) = full chunk_size /\ dangling f = false.

(** The loop invariant, [done] being the items written so far. *)
Definition split_inv (chunk_size : Z) (done : list json) (st : split_state)
  : Prop :=
  concat (content <$> files st) ++ open_chunk st = done
  /\ created st = (length (files st)
                   + if bool_decide (is_Some (writer st)) then 1 else 0)%nat
  /\ Forall (full_file chunk_size) (files st)
  /\ match writer st with
     | Some w => count_in_batch st = Z.of_nat (length (content w))
                 /\ (1 <= length (content w) <= full chunk_size)%nat
                 /\ dangling w = false
                 /\ is_first_in_current_chunk st = false
     | None => files st = []
     end.

(** What [json.load] makes of an output file: a file left with a
    separator before its closing bracket does not parse. *)
Definition load_chunk (f : chunk_file) : option (list json) :=
  if dangling f then None else Some (content f).

(** The ten numbered files the aggregators look for: absent, or present
    and loaded, or present and not parsing. *)
Definition ten_files (fs : list chunk_file) : list (option (list json)) :=
  map (fun i => fs !! i ≫= load_chunk) (seq 0 10).

(** The items that can be read back from the files: all the items when
    all were written, and otherwise those of the full chunks before the
    item that stopped the run. *)
Definition readable (chunk_size : Z) (items : list ivalue) : list json :=
  if all_written items then written items
  else take (Nat.div (length (written items)) (full chunk_size)
             * full chunk_size)%nat
            (written items).

(** An array of three numbers, the second of which is not an integer. *)
Definition with_decimal : list ivalue := [IInt 1; IDecimal 25 (-1); IInt 3].

End SplitDefs.

Module PipelineDefs.
Import PyStr PyStrDefs Json RunFullPatched RunFullPatchedDefs RunnerDefs.
Import Aggregate AggregateDefs StatsDefs NPatchDefs DelNPatchedDefs.
Import PatcherDefs InjectDefs CulNPatched.

(** The output is validated with the verdict [Secure]. *)
Definition secure_outcome (text : str) : bool :=
  match validate_and_trim_strict text with
  | [] => false
  | r => endswith r (NL :: SECURE)
  end.

(** The indices of the variants that have an output validated with the
    verdict [Secure], the outputs being aligned with the variants. *)
Definition covered_entries (variants : list json) (outputs : list (list str))
  : gset pykey :=
  list_to_set
    (omap (fun p : json * list str =>
             if secure_outcome (output_text p.2) then record_key p.1 else None)
          (zip variants outputs)).

(** An answer record with the index of its variant. *)
Definition indexed_answer (k : nat) (out : list str) : json :=
  JDict [(py "answer", JStr (recorded_answer (output_text out)));
         (py "index", JInt (Z.of_nat k))].

(** The injected records against the variants and outputs they come from. *)
Definition same_entry (r : json) (p : json * list str) : Prop :=
  record_key r = record_key p.1
  /\ record_secure r = secure_outcome (output_text p.2)
  /\ unhashable r = false.

End PipelineDefs.


(** * Facts about the string operations *)

Module PyStrFacts.
Import PyStr PyStrDefs.

Lemma str_eqb_true (a b : str) : str_eqb a b = true <-> a = b.
Proof. unfold str_eqb. apply bool_decide_eq_true. Qed.

Lemma str_eqb_false (a b : str) : str_eqb a b = false <-> a <> b.
Proof. unfold str_eqb. apply bool_decide_eq_false. Qed.

Lemma str_eqb_refl (a : str) : str_eqb a a = true.
Proof. apply str_eqb_true. reflexivity. Qed.

(** ** Stripping *)

Lemma lstrip_starts_nonspace s : starts_nonspace s -> lstrip s = s.
Proof. intros (c & s' & -> & Hc). simpl. rewrite Hc. reflexivity. Qed.

Lemma lstrip_all_space s : all_space s = true -> lstrip s = [].
Proof.
  induction s as [|c s IH]; simpl; [reflexivity|].
  intros H. apply andb_true_iff in H as [Hc Hs]. rewrite Hc. auto.
Qed.

Lemma lstrip_app_nonspace a c b :
  isspace c = false -> all_space a = true -> lstrip (a ++ c :: b) = c :: b.
Proof.
  intros Hc. induction a as [|d a IH]; simpl.
  - rewrite Hc. reflexivity.
  - intros H. apply andb_true_iff in H as [Hd Ha]. rewrite Hd. auto.
Qed.

Lemma lstrip_keeps s c b :
  isspace c = false -> lstrip (s ++ c :: b) = lstrip s ++ c :: b.
Proof.
  intros Hc. induction s as [|d s IH]; simpl.
  - rewrite Hc. reflexivity.
  - destruct (isspace d); [exact IH|reflexivity].
Qed.

Lemma rstrip_snoc_nonspace s c : isspace c = false -> rstrip (s ++ [c]) = s ++ [c].
Proof.
  intros Hc. unfold rstrip. rewrite rev_app_distr. simpl. rewrite Hc.
  simpl. rewrite rev_involutive. reflexivity.
Qed.

Lemma rstrip_ends_nonspace s : ends_nonspace s -> rstrip s = s.
Proof. intros (s' & c & -> & Hc). apply rstrip_snoc_nonspace. exact Hc. Qed.

Lemma rstrip_app_ends a b : ends_nonspace b -> rstrip (a ++ b) = a ++ b.
Proof.
  intros (b' & c & -> & Hc). rewrite app_assoc.
  apply rstrip_snoc_nonspace. exact Hc.
Qed.

Lemma all_space_rev s : all_space (rev s) = all_space s.
Proof.
  unfold all_space. induction s as [|c s IH]; [reflexivity|].
  cbn [rev forallb]. rewrite forallb_app, IH. cbn [forallb].
  rewrite andb_true_r. apply andb_comm.
Qed.

Lemma rstrip_app_spaces a b : all_space b = true -> rstrip (a ++ b) = rstrip a.
Proof.
  intros Hb. unfold rstrip. rewrite rev_app_distr.
  f_equal. revert Hb. rewrite <- all_space_rev.
  generalize (rev b) as rb. induction rb as [|c rb IH]; simpl; [reflexivity|].
  intros H. apply andb_true_iff in H as [Hc Hs]. rewrite Hc. auto.
Qed.

Lemma rstrip_nil_or_ends s : rstrip s = [] \/ ends_nonspace (rstrip s).
Proof.
  unfold rstrip. generalize (rev s) as r.
  induction r as [|c r IH]; simpl; [left; reflexivity|].
  destruct (isspace c) eqn:Hc; [exact IH|].
  right. exists (rev r), c. simpl. auto.
Qed.

(** [rstrip] removes a suffix of spaces. *)
Lemma rstrip_decompose s :
  exists sp, s = rstrip s ++ sp /\ all_space sp = true.
Proof.
  assert (H : forall r, exists sp, rev r = rev (lstrip r) ++ sp /\ all_space sp = true).
  { induction r as [|c r (sp & Heq & Hsp)]; simpl.
    - exists []. auto.
    - destruct (isspace c) eqn:Hc.
      + exists (sp ++ [c]). split.
        * rewrite Heq at 1. rewrite app_assoc. reflexivity.
        * unfold all_space in *. rewrite forallb_app, Hsp. simpl.
          rewrite Hc. reflexivity.
      + exists []. rewrite app_nil_r. auto. }
  destruct (H (rev s)) as (sp & Heq & Hsp). rewrite rev_involutive in Heq.
  exists sp. auto.
Qed.

Lemma ends_nonspace_app a b : ends_nonspace b -> ends_nonspace (a ++ b).
Proof.
  intros (b' & c & -> & Hc). exists (a ++ b'), c. rewrite app_assoc. auto.
Qed.

Lemma ends_nonspace_not_nil s : ends_nonspace s -> s <> [].
Proof. intros (s' & c & -> & _). destruct s'; discriminate. Qed.

Lemma strip_fixed s : starts_nonspace s -> ends_nonspace s -> strip s = s.
Proof.
  intros Hs He. unfold strip. rewrite lstrip_starts_nonspace by assumption.
  apply rstrip_ends_nonspace. assumption.
Qed.

(** A stripped string is empty or has a non-space character at both ends. *)
Lemma lstrip_nil_or_starts s : lstrip s = [] \/ starts_nonspace (lstrip s).
Proof.
  induction s as [|c s IH]; simpl; [left; reflexivity|].
  destruct (isspace c) eqn:Hc; [exact IH|].
  right. exists c, s. auto.
Qed.

Lemma strip_nil_or_ends s : strip s = [] \/ ends_nonspace (strip s).
Proof. apply rstrip_nil_or_ends. Qed.

(** ** Prefixes and first occurrences *)

Lemma startswith_iff s p : startswith s p = true <-> exists x, s = p ++ x.
Proof.
  revert s. induction p as [|a p IH]; intros s; simpl.
  - split; [intros _; exists s; reflexivity|reflexivity].
  - destruct s as [|b s]; [split; [discriminate|intros (x & Hx); discriminate]|].
    rewrite andb_true_iff, N.eqb_eq, IH. split.
    + intros (-> & x & ->). exists x. reflexivity.
    + intros (x & Hx). injection Hx as -> ->. eauto.
Qed.

Lemma startswith_app s p x : startswith s p = true -> startswith (s ++ x) p = true.
Proof.
  rewrite !startswith_iff. intros (y & ->). exists (y ++ x).
  rewrite app_assoc. reflexivity.
Qed.

Lemma startswith_self p x : startswith (p ++ x) p = true.
Proof. apply startswith_iff. eauto. Qed.

(** A pattern without [c] that matches across a [c] would have to contain it. *)
Lemma startswith_across (c : char) a b p :
  c ∉ p -> startswith (a ++ c :: b) p = startswith a p.
Proof.
  revert a. induction p as [|d p IH]; intros a Hc; [reflexivity|].
  destruct a as [|e a]; simpl.
  - destruct (d =? c) eqn:E; [|reflexivity].
    apply N.eqb_eq in E. subst d. exfalso. apply Hc. left.
  - rewrite IH; [reflexivity|]. intros Hin. apply Hc. right. exact Hin.
Qed.

Lemma find_nil sub : sub <> [] -> find [] sub = None.
Proof. destruct sub; [congruence|reflexivity]. Qed.

Lemma find_cons c s sub :
  find (c :: s) sub
  = if startswith (c :: s) sub then Some 0%nat else S <$> find s sub.
Proof. reflexivity. Qed.

(** No occurrence in a string means none in its prefixes. *)
Lemma find_None_prefix a b sub : find (a ++ b) sub = None -> find a sub = None.
Proof.
  induction a as [|c a IH]; simpl.
  - destruct sub as [|d sub]; [|reflexivity]. destruct b; discriminate.
  - destruct (startswith (c :: a ++ b) sub) eqn:E; [discriminate|].
    destruct (startswith (c :: a) sub) eqn:E'.
    + apply (startswith_app _ _ b) in E'. simpl in E'. congruence.
    + destruct (find (a ++ b) sub); [discriminate|].
      intros _. rewrite IH; reflexivity.
Qed.

(** What [find] returns is an occurrence, and the first one. *)
Lemma find_Some s sub i :
  sub <> [] -> find s sub = Some i ->
  (i <= length s)%nat
  /\ startswith (drop i s) sub = true
  /\ find (take i s) sub = None.
Proof.
  intros Hsub. revert i. induction s as [|c s IH]; intros i.
  - rewrite find_nil by assumption. discriminate.
  - rewrite find_cons. destruct (startswith (c :: s) sub) eqn:E.
    + intros [= <-]. split; [simpl; lia|]. split; [exact E|].
      apply find_nil. assumption.
    + destruct (find s sub) as [j|] eqn:Hj; [|discriminate].
      intros [= <-]. destruct (IH j eq_refl) as (Hlen & Hocc & Hpre).
      split; [simpl; lia|]. split; [exact Hocc|].
      cbn [take]. rewrite find_cons.
      destruct (startswith (c :: take j s) sub) eqn:E'.
      * apply (startswith_app _ _ (drop j s)) in E'.
        rewrite <- app_comm_cons, take_drop in E'. congruence.
      * rewrite Hpre. reflexivity.
Qed.

(** Searching across a character that the pattern does not contain. *)
Lemma find_across (c : char) a b sub :
  sub <> [] -> c ∉ sub ->
  find (a ++ c :: b) sub
  = match find a sub with
    | Some i => Some i
    | None => (fun j => (length a + 1 + j)%nat) <$> find b sub
    end.
Proof.
  intros Hsub Hc. induction a as [|d a IH].
  - cbn [app length Nat.add]. rewrite find_cons, find_nil by assumption.
    replace (startswith (c :: b) sub) with false.
    + destruct (find b sub); reflexivity.
    + symmetry. change (c :: b) with ([] ++ c :: b).
      rewrite (startswith_across c [] b sub Hc).
      destruct sub; [congruence|reflexivity].
  - rewrite <- app_comm_cons, !find_cons.
    rewrite (app_comm_cons a (c :: b) d), startswith_across by assumption.
    destruct (startswith (d :: a) sub); [reflexivity|].
    rewrite IH. destruct (find a sub); [reflexivity|].
    destruct (find b sub); reflexivity.
Qed.

(** A character that does not start the pattern is skipped. *)
Lemma find_skip c s d sub :
  c <> d -> find (c :: s) (d :: sub) = S <$> find s (d :: sub).
Proof.
  intros Hne. rewrite find_cons. simpl.
  destruct (d =? c) eqn:E; [|reflexivity].
  apply N.eqb_eq in E. congruence.
Qed.

Lemma find_skip_all a s d sub :
  Forall (fun c => c <> d) a ->
  find (a ++ s) (d :: sub) = (fun j => (length a + j)%nat) <$> find s (d :: sub).
Proof.
  induction 1 as [|c a Hc _ IH]; cbn [app length Nat.add].
  - destruct (find s (d :: sub)); reflexivity.
  - rewrite find_skip by assumption. rewrite IH.
    destruct (find s (d :: sub)); reflexivity.
Qed.

(** ** Lines *)

Lemma splitlines_line l rest :
  nobreak l -> splitlines (l ++ NL :: rest) = l :: splitlines rest.
Proof.
  induction 1 as [|c l Hc _ IH].
  - cbn [app]. destruct rest; reflexivity.
  - rewrite <- app_comm_cons. cbn [splitlines]. rewrite Hc, IH. reflexivity.
Qed.

Lemma splitlines_single l : nobreak l -> l <> [] -> splitlines l = [l].
Proof.
  induction 1 as [|c l Hc Hl IH]; [congruence|]. intros _.
  cbn [splitlines]. rewrite Hc. destruct l as [|d l]; [reflexivity|].
  rewrite IH by discriminate. reflexivity.
Qed.

Lemma splitlines_nobreak s : Forall nobreak (splitlines s).
Proof.
  assert (H : forall n s, (length s <= n)%nat -> Forall nobreak (splitlines s)).
  { induction n as [|n IH]; intros [|c t] Hlen; try constructor;
      simpl in Hlen; try lia.
    cbn [splitlines]. destruct (islinebreak c) eqn:Hc.
    - destruct t as [|d t']; [repeat constructor|].
      destruct ((c =? CR) && (d =? NL)); constructor; try constructor;
        apply IH; simpl in *; lia.
    - pose proof (IH t ltac:(lia)) as Ht.
      destruct (splitlines t) as [|l ls].
      + repeat constructor. exact Hc.
      + inversion Ht; subst. constructor; [|assumption].
        constructor; assumption. }
  apply (H (length s)). lia.
Qed.

(** The first line of a text that begins with break-free characters begins
    with them. *)
Lemma splitlines_starts p x :
  nobreak p -> p <> [] -> exists l ls, splitlines (p ++ x) = (p ++ l) :: ls.
Proof.
  induction 1 as [|c p Hc Hp IH]; [congruence|]. intros _.
  rewrite <- app_comm_cons. cbn [splitlines]. rewrite Hc.
  destruct p as [|d p].
  - cbn [app]. destruct (splitlines x) as [|l ls]; [exists [], []|exists l, ls];
      reflexivity.
  - destruct IH as (l & ls & ->); [discriminate|]. exists l, ls. reflexivity.
Qed.

Lemma join_cons sep p q rest :
  join sep (p :: q :: rest) = p ++ sep ++ join sep (q :: rest).
Proof. reflexivity. Qed.

Lemma join_snoc sep parts p :
  parts <> [] -> join sep (parts ++ [p]) = join sep parts ++ sep ++ p.
Proof.
  induction parts as [|q parts IH]; [congruence|]. intros _.
  destruct parts as [|q' parts]; [reflexivity|].
  cbn [app] in *. rewrite !join_cons, IH by discriminate.
  rewrite <- !app_assoc. reflexivity.
Qed.

(** Lines joined by newlines and followed by a newline split back. *)
Lemma splitlines_join L rest :
  L <> [] -> Forall nobreak L ->
  splitlines (join [NL] L ++ NL :: rest) = L ++ splitlines rest.
Proof.
  intros HL HF. induction HF as [|l L Hl HF IH]; [congruence|].
  destruct L as [|l' L].
  - cbn [join app]. apply splitlines_line. exact Hl.
  - rewrite join_cons. rewrite <- !app_assoc. cbn [app].
    rewrite splitlines_line by exact Hl. rewrite IH by discriminate.
    reflexivity.
Qed.

(** ** Splitting at a separator *)

Lemma split_not_nil sep s : split sep s <> [].
Proof.
  destruct s as [|c s]; simpl; [discriminate|].
  destruct (c =? sep); [discriminate|]. destruct (split sep s); discriminate.
Qed.

Lemma split_app_sep sep a b :
  split sep (a ++ sep :: b) = split sep a ++ split sep b.
Proof.
  induction a as [|c a IH]; cbn [app split].
  - rewrite N.eqb_refl. reflexivity.
  - destruct (c =? sep); [rewrite IH; reflexivity|].
    rewrite IH. pose proof (split_not_nil sep a).
    destruct (split sep a); [congruence|reflexivity].
Qed.

Lemma split_nosep sep l : sep ∉ l -> split sep l = [l].
Proof.
  induction l as [|c l IH]; intros Hl; cbn [split]; [reflexivity|].
  destruct (c =? sep) eqn:E.
  - apply N.eqb_eq in E. subst. exfalso. apply Hl. left.
  - rewrite IH; [reflexivity|]. intros H. apply Hl. right. exact H.
Qed.

Lemma split_join sep L :
  L <> [] -> Forall (fun l => sep ∉ l) L -> split sep (join [sep] L) = L.
Proof.
  intros HL HF. induction HF as [|l L Hl HF IH]; [congruence|].
  destruct L as [|l' L].
  - apply split_nosep. exact Hl.
  - rewrite join_cons. cbn [app]. rewrite split_app_sep, split_nosep by exact Hl.
    rewrite IH by discriminate. reflexivity.
Qed.

Lemma nobreak_no_nl l : nobreak l -> NL ∉ l.
Proof.
  intros H Hin. unfold nobreak in H. rewrite Forall_forall in H.
  specialize (H NL Hin). discriminate.
Qed.

Lemma remove_char_id c l : c ∉ l -> remove_char c l = l.
Proof.
  unfold remove_char. induction l as [|d l IH]; intros Hl; [reflexivity|].
  rewrite filter_cons_True.
  - rewrite IH; [reflexivity|]. intros H. apply Hl. right. exact H.
  - intros ->. apply Hl. left.
Qed.

Lemma nobreak_no_cr l : nobreak l -> CR ∉ l.
Proof.
  intros H Hin. unfold nobreak in H. rewrite Forall_forall in H.
  specialize (H CR Hin). discriminate.
Qed.

(** ** Splitting at runs of separators *)

(** Up to blank pieces, splitting at runs and at single separators agree. *)
Lemma re_split_runs_filter sep s :
  (exists h t t', re_split_runs sep false s = h :: t
                  /\ split_at sep s = h :: t'
                  /\ filter nonblank t = filter nonblank t')
  /\ filter nonblank (re_split_runs sep true s)
     = filter nonblank (split_at sep s).
Proof.
  assert (Hblank : forall l : list str,
            filter nonblank ([] :: l) = filter nonblank l).
  { intros l. apply filter_cons_False. unfold nonblank. intros H. apply H. reflexivity. }
  induction s as [|c s [(h & t & t' & Hf & Hs & Ht) IHt]]; cbn [re_split_runs split_at].
  - split; [|reflexivity]. exists [], [], []. auto.
  - destruct (sep c).
    + split.
      * exists [], (re_split_runs sep true s), (split_at sep s). auto.
      * rewrite Hblank. exact IHt.
    + rewrite Hf, Hs. split.
      * exists (c :: h), t, t'. auto.
      * rewrite !filter_cons, Ht. reflexivity.
Qed.

Lemma re_split_runs_nonblank sep s :
  filter nonblank (re_split_runs sep false s)
  = filter nonblank (split_at sep s).
Proof.
  destruct (re_split_runs_filter sep s) as [(h & t & t' & -> & -> & Ht) _].
  rewrite !filter_cons, Ht. reflexivity.
Qed.

(** ** Decimal numerals *)

Lemma str_of_nat_digits n : Forall is_digit (str_of_nat n).
Proof.
  unfold str_of_nat. generalize (Nat.to_uint n) as u.
  induction u; cbn; constructor; try assumption; unfold is_digit;
    vm_compute; split; discriminate.
Qed.

Lemma rstrip_prefix p x : ends_nonspace p -> exists y, rstrip (p ++ x) = p ++ y.
Proof.
  intros Hp. destruct (rstrip_decompose x) as (sp & Hx & Hsp).
  destruct (rstrip_nil_or_ends x) as [Hnil|Hends].
  - exists []. rewrite Hx, Hnil. cbn [app].
    rewrite rstrip_app_spaces by assumption.
    rewrite app_nil_r. apply rstrip_ends_nonspace. exact Hp.
  - exists (rstrip x). rewrite Hx at 1. rewrite app_assoc.
    rewrite rstrip_app_spaces by assumption.
    apply rstrip_app_ends. exact Hends.
Qed.

(** ** Appending to a text *)

Lemma linebreak_is_space c : islinebreak c = true -> isspace c = true.
Proof.
  unfold islinebreak, isspace. intros H.
  repeat (apply orb_true_iff in H as [H|H]).
  - apply andb_true_iff in H as [H1 H2].
    apply N.leb_le in H1, H2.
    replace (9 <=? c) with true by (symmetry; apply N.leb_le; lia).
    replace (c <=? 13) with true by (symmetry; apply N.leb_le; lia).
    reflexivity.
  - apply andb_true_iff in H as [H1 H2].
    apply N.leb_le in H1, H2.
    replace (28 <=? c) with true by (symmetry; apply N.leb_le; lia).
    replace (c <=? 32) with true by (symmetry; apply N.leb_le; lia).
    destruct (9 <=? c), (c <=? 13); reflexivity.
  - apply N.eqb_eq in H. subst c. reflexivity.
  - apply N.eqb_eq in H. subst c. reflexivity.
  - apply N.eqb_eq in H. subst c. reflexivity.
Qed.

Lemma nonspace_is_nobreak c : isspace c = false -> islinebreak c = false.
Proof.
  intros H. destruct (islinebreak c) eqn:E; [|reflexivity].
  apply linebreak_is_space in E. congruence.
Qed.

Lemma ends_nonspace_tail c s : ends_nonspace (c :: s) -> s <> [] -> ends_nonspace s.
Proof.
  intros (s' & d & Heq & Hd) Hs. destruct s' as [|e s'].
  - injection Heq as _ Hnil. congruence.
  - injection Heq as _ Htail. exists s', d. auto.
Qed.

Lemma ends_nonspace_cons c s : ends_nonspace s -> ends_nonspace (c :: s).
Proof. apply (ends_nonspace_app [c]). Qed.

Lemma ends_nonspace_single c : ends_nonspace [c] -> isspace c = false.
Proof.
  intros (s' & d & Heq & Hd). destruct s' as [|e s'].
  - injection Heq as Hcd. subst c. exact Hd.
  - destruct s'; discriminate.
Qed.

Lemma ends_nonspace_drop s i :
  ends_nonspace s -> (i < length s)%nat -> ends_nonspace (drop i s).
Proof.
  intros (s' & c & -> & Hc) Hi. rewrite length_app in Hi. cbn in Hi.
  rewrite drop_app_le by lia. exists (drop i s'), c. auto.
Qed.

Lemma lstrip_app_nonempty a b : lstrip a <> [] -> lstrip (a ++ b) = lstrip a ++ b.
Proof.
  induction a as [|c a IH]; cbn [lstrip app]; [congruence|].
  destruct (isspace c); [exact IH|reflexivity].
Qed.

Lemma startswith_app_long s p x :
  (length p <= length s)%nat -> startswith (s ++ x) p = startswith s p.
Proof.
  revert s. induction p as [|a p IH]; intros s Hlen; [reflexivity|].
  destruct s as [|b s]; cbn in Hlen; [lia|].
  cbn [app startswith]. rewrite IH by lia. reflexivity.
Qed.

Lemma find_app_Some a b sub i :
  find a sub = Some i -> find (a ++ b) sub = Some i.
Proof.
  revert i. induction a as [|c a IH]; intros i.
  - cbn [find]. destruct (startswith [] sub) eqn:E; [|discriminate].
    intros [= <-]. cbn [app]. destruct sub; [|discriminate].
    destruct b; reflexivity.
  - rewrite <- app_comm_cons, !find_cons.
    destruct (startswith (c :: a) sub) eqn:E.
    + rewrite (app_comm_cons a b c), (startswith_app _ _ b E). auto.
    + destruct (find a sub) as [j|] eqn:Hj; [|discriminate].
      intros [= <-].
      assert (Hlen : (length sub <= length (c :: a))%nat).
      { destruct sub as [|d sub]; [cbn; lia|].
        apply find_Some in Hj as (Hj1 & Hj2 & _); [|discriminate].
        apply startswith_iff in Hj2 as (z & Hz).
        apply (f_equal length) in Hz. rewrite length_drop, length_app in Hz.
        cbn [length] in *. lia. }
      rewrite (app_comm_cons a b c), startswith_app_long, E by exact Hlen.
      rewrite (IH j eq_refl). reflexivity.
Qed.

Lemma rstrip_appended base m :
  ends_nonspace base -> appended m ->
  exists m', rstrip (base ++ m) = base ++ m' /\ appended m'.
Proof.
  intros Hbase [-> | (ws & x & -> & Hws)].
  - exists []. rewrite app_nil_r. split; [|left; reflexivity].
    apply rstrip_ends_nonspace. exact Hbase.
  - destruct (rstrip_decompose x) as (sp & Hx & Hsp).
    destruct (rstrip_nil_or_ends x) as [Hnil|Hends].
    + exists []. rewrite app_nil_r. split; [|left; reflexivity].
      rewrite rstrip_app_spaces; [apply rstrip_ends_nonspace; exact Hbase|].
      unfold all_space in *. rewrite forallb_app, Hws. cbn [forallb].
      rewrite Hx, Hnil. exact Hsp.
    + exists (ws ++ NL :: rstrip x). split; [|right; eauto].
      rewrite Hx at 1.
      replace (base ++ ws ++ NL :: rstrip x ++ sp)
        with ((base ++ ws ++ NL :: rstrip x) ++ sp)
        by (rewrite <- !app_assoc; reflexivity).
      rewrite rstrip_app_spaces by exact Hsp.
      apply rstrip_app_ends, ends_nonspace_app.
      apply (ends_nonspace_app [NL]). exact Hends.
Qed.

Lemma strip_append text x :
  strip text <> [] ->
  exists m, strip (text ++ NL :: x) = strip text ++ m /\ appended m.
Proof.
  intros Hne. unfold strip in *.
  assert (Hl : lstrip text <> []).
  { intros E. rewrite E in Hne. apply Hne. reflexivity. }
  rewrite lstrip_app_nonempty by exact Hl.
  destruct (rstrip_decompose (lstrip text)) as (ws & Hws & Hsp).
  pose proof (rstrip_nil_or_ends (lstrip text)) as Hr.
  set (r := rstrip (lstrip text)) in *.
  rewrite Hws, <- app_assoc.
  apply rstrip_appended.
  - destruct Hr; [congruence|assumption].
  - right. exists ws, x. auto.
Qed.

Lemma splitlines_cons c s :
  splitlines (c :: s)
  = if islinebreak c then
      match s with
      | d :: s'' =>
          if (c =? CR) && (d =? NL) then [] :: splitlines s''
          else [] :: splitlines s
      | [] => [[]]
      end
    else match splitlines s with
         | [] => [[c]]
         | l :: ls => (c :: l) :: ls
         end.
Proof. reflexivity. Qed.

Lemma splitlines_extend n : forall a,
  (length a <= n)%nat -> ends_nonspace a ->
  exists init lst,
    splitlines a = init ++ [lst] /\ ends_nonspace lst
    /\ forall y, splitlines (a ++ y) = init ++ extend_last lst (splitlines y).
Proof.
  induction n as [|n IH]; intros [|c a] Hlen Hends;
    try (exfalso; apply (ends_nonspace_not_nil _ Hends); reflexivity);
    cbn in Hlen; [lia|].
  destruct (islinebreak c) eqn:Hc.
  - destruct a as [|d a].
    { apply ends_nonspace_single in Hends.
      apply linebreak_is_space in Hc. congruence. }
    pose proof (ends_nonspace_tail _ _ Hends ltac:(discriminate)) as Hends'.
    destruct ((c =? CR) && (d =? NL)) eqn:Hcrlf.
    + destruct a as [|e a].
      { apply ends_nonspace_single in Hends'.
        apply andb_true_iff in Hcrlf as [_ Hd]. apply N.eqb_eq in Hd.
        subst d. discriminate. }
      pose proof (ends_nonspace_tail _ _ Hends' ltac:(discriminate)) as Hends''.
      destruct (IH (e :: a) ltac:(cbn in *; lia) Hends'')
        as (init & lst & Hsplit & Hlst & Hy).
      exists ([] :: init), lst. split; [|split; [exact Hlst|]].
      * rewrite splitlines_cons, Hc, Hcrlf, Hsplit. reflexivity.
      * intros y. rewrite <- !app_comm_cons, splitlines_cons, Hc, Hcrlf.
        rewrite (app_comm_cons a y e), Hy. reflexivity.
    + destruct (IH (d :: a) ltac:(cbn in *; lia) Hends')
        as (init & lst & Hsplit & Hlst & Hy).
      exists ([] :: init), lst. split; [|split; [exact Hlst|]].
      * rewrite splitlines_cons, Hc, Hcrlf, Hsplit. reflexivity.
      * intros y. rewrite <- !app_comm_cons, splitlines_cons, Hc, Hcrlf.
        rewrite (app_comm_cons a y d), Hy. reflexivity.
  - destruct a as [|d a].
    + exists [], [c]. split; [rewrite splitlines_cons, Hc; reflexivity|].
      split; [exact Hends|].
      intros y. cbn [app]. rewrite splitlines_cons, Hc.
      destruct (splitlines y); reflexivity.
    + pose proof (ends_nonspace_tail _ _ Hends ltac:(discriminate)) as Hends'.
      destruct (IH (d :: a) ltac:(cbn in *; lia) Hends')
        as (init & lst & Hsplit & Hlst & Hy).
      destruct init as [|i0 init].
      * exists [], (c :: lst). split; [|split].
        -- rewrite splitlines_cons, Hc, Hsplit. reflexivity.
        -- apply ends_nonspace_cons. exact Hlst.
        -- intros y. rewrite <- app_comm_cons, splitlines_cons, Hc, Hy.
           destruct (splitlines y); reflexivity.
      * exists ((c :: i0) :: init), lst. split; [|split; [exact Hlst|]].
        -- rewrite splitlines_cons, Hc, Hsplit. reflexivity.
        -- intros y. rewrite <- app_comm_cons, splitlines_cons, Hc, Hy.
           reflexivity.
Qed.

(** The first line of spaces followed by a newline consists of spaces. *)
Lemma splitlines_head_spaces ws x :
  all_space ws = true ->
  exists l0 ls, splitlines (ws ++ NL :: x) = l0 :: ls /\ all_space l0 = true.
Proof.
  induction ws as [|c ws IH]; intros Hws.
  - exists [], (splitlines x). cbn [app]. split; [|reflexivity].
    destruct x; reflexivity.
  - cbn in Hws. apply andb_true_iff in Hws as [Hc Hws].
    rewrite <- app_comm_cons, splitlines_cons. destruct (islinebreak c).
    + destruct (ws ++ NL :: x) as [|d r]; [eexists _, _; split; reflexivity|].
      destruct ((c =? CR) && (d =? NL)); eexists _, _; split; reflexivity.
    + destruct (IH Hws) as (l0 & ls & -> & Hl0).
      exists (c :: l0), ls. split; [reflexivity|].
      cbn. rewrite Hc. exact Hl0.
Qed.

Lemma strip_app_spaces lst l0 :
  ends_nonspace lst -> all_space l0 = true -> strip (lst ++ l0) = strip lst.
Proof.
  intros (l' & c & -> & Hc) Hl0. unfold strip.
  rewrite <- app_assoc. cbn [app].
  rewrite (lstrip_keeps l' c l0 Hc), (lstrip_keeps l' c [] Hc).
  replace (lstrip l' ++ c :: l0) with ((lstrip l' ++ [c]) ++ l0)
    by (rewrite <- app_assoc; reflexivity).
  apply rstrip_app_spaces. exact Hl0.
Qed.

(** ** Deleting a character *)

Lemma remove_char_cons c d s :
  remove_char c (d :: s)
  = if decide (d = c) then remove_char c s else d :: remove_char c s.
Proof.
  unfold remove_char. destruct (decide (d = c)) as [->|Hne].
  - apply filter_cons_False. intros H. apply H. reflexivity.
  - apply filter_cons_True. exact Hne.
Qed.

Lemma remove_char_idem c s : remove_char c (remove_char c s) = remove_char c s.
Proof.
  induction s as [|d s IH]; [reflexivity|].
  rewrite remove_char_cons. destruct (decide (d = c)); [exact IH|].
  rewrite remove_char_cons. destruct (decide (d = c)); [contradiction|].
  rewrite IH. reflexivity.
Qed.

Lemma split_remove_cr s :
  split NL (remove_char CR s) = map (remove_char CR) (split NL s).
Proof.
  induction s as [|d s IH]; [reflexivity|].
  rewrite remove_char_cons. cbn [split].
  destruct (split NL s) as [|l ls] eqn:Hs; [apply split_not_nil in Hs; destruct Hs|].
  destruct (decide (d = CR)) as [->|Hne].
  - change (CR =? NL) with false. cbn [map]. rewrite remove_char_cons.
    destruct (decide (CR = CR)); [exact IH|contradiction].
  - cbn [split]. rewrite IH. destruct (d =? NL) eqn:E.
    + reflexivity.
    + cbn [map]. rewrite remove_char_cons.
      destruct (decide (d = CR)); [contradiction|reflexivity].
Qed.

End PyStrFacts.


(** * The verdict readers *)

Module VerdictFacts.
Import PyStr PyStrDefs PyStrFacts Json CulNPatched VerdictDefs.

(** The loop returns its initial value when no line is a header, and the
    position of the last header otherwise. *)
Lemma last_answer_line_spec (lines : list str) : forall i last_idx,
  (last_answer_line i last_idx lines = last_idx /\
   forall j l, lines !! j = Some l -> ~ is_header l)
  \/ (exists k l, last_answer_line i last_idx lines = (i + Z.of_nat k)%Z /\
        lines !! k = Some l /\ is_header l /\
        forall j l', (k < j)%nat -> lines !! j = Some l' -> ~ is_header l').
Proof.
  induction lines as [|ln rest IH]; intros i last_idx; simpl.
  - left. split; [reflexivity|]. intros j l Hj. rewrite lookup_nil in Hj. discriminate.
  - destruct (str_eqb (strip ln) ANSWER_HEADER) eqn:Hln.
    + apply str_eqb_true in Hln.
      destruct (IH (i + 1)%Z i) as [[Hr Hno]|(k & l & Hr & Hk & Hl & Hafter)].
      * right. exists 0%nat, ln. rewrite Hr. repeat split; [lia|assumption|].
        intros [|j] l' Hlt Hj; [lia|]. simpl in Hj. eauto.
      * right. exists (S k), l. rewrite Hr. repeat split; [lia|assumption..|].
        intros [|j] l' Hlt Hj; [lia|]. simpl in Hj. apply (Hafter j); [lia|assumption].
    + apply str_eqb_false in Hln.
      destruct (IH (i + 1)%Z last_idx) as [[Hr Hno]|(k & l & Hr & Hk & Hl & Hafter)].
      * left. split; [assumption|]. intros [|j] l Hj; simpl in Hj.
        -- injection Hj as <-. assumption.
        -- eauto.
      * right. exists (S k), l. rewrite Hr. repeat split; [lia|assumption..|].
        intros [|j] l' Hlt Hj; [lia|]. simpl in Hj. apply (Hafter j); [lia|assumption].
Qed.

(** The reader's verdict follows the last header among the lines it
    sees. *)
Lemma is_secure_answer_spec (s : str) :
  is_secure_answer (JStr s) = true
  <-> secure_after_last_header (answer_lines s).
Proof.
  unfold is_secure_answer, secure_after_last_header. fold (answer_lines s).
  set (lines := answer_lines s).
  destruct (last_answer_line_spec lines 0%Z (-1)%Z)
    as [[Hr Hno]|(k & l & Hr & Hk & Hl & Hafter)]; rewrite Hr.
  - simpl. split; [discriminate|].
    intros (i & hdr & ln & Hi & Hh & _). exfalso. eapply Hno; eauto.
  - replace (0 + Z.of_nat k)%Z with (Z.of_nat k) by lia.
    replace (Z.to_nat (Z.of_nat k + 1)) with (S k) by lia.
    destruct (Z.of_nat k <? 0)%Z eqn:Hneg; [lia|]. simpl.
    destruct (Z.of_nat (length lines) <=? Z.of_nat k + 1)%Z eqn:Hlen.
    + split; [discriminate|].
      intros (i & hdr & ln & Hi & Hh & Hlast & Hnext & _).
      assert (i = k) as ->.
      { destruct (Nat.lt_trichotomy i k) as [Hlt|[Heq|Hgt]]; [|assumption|].
        - exfalso. eapply (Hlast k); eauto.
        - exfalso. eapply (Hafter i); eauto. }
      apply lookup_lt_Some in Hnext. lia.
    + destruct (lines !! S k) as [ln|] eqn:Hnext.
      2:{ apply lookup_ge_None in Hnext. lia. }
      rewrite str_eqb_true. split.
      * intros Hs. exists k, l, ln. repeat split; assumption.
      * intros (i & hdr & ln' & Hi & Hh & Hlast & Hnext' & Hs).
        assert (i = k) as ->.
        { destruct (Nat.lt_trichotomy i k) as [Hlt|[Heq|Hgt]]; [|assumption|].
          - exfalso. eapply (Hlast k); eauto.
          - exfalso. eapply (Hafter i); eauto. }
        congruence.
Qed.

(** Without a carriage return in the text, the reader sees the lines of
    the text. *)
Lemma answer_lines_no_cr (s : str) : CR ∉ s -> answer_lines s = split NL s.
Proof.
  intros H. unfold answer_lines.
  rewrite <- split_remove_cr, remove_char_id by exact H. reflexivity.
Qed.

(** C4, as the code has it.  [is_secure_answer] is true exactly when,
    among the lines of the text with every carriage return deleted, the
    last one whose trimmed content is the answer header is followed by
    one whose trimmed content is [Secure]; for a text without carriage
    return these are the lines of the text; the function agrees with
    [parse_final_answer] compared to [Secure]; on a text with two answer
    blocks of which only the first says [Secure], the result is false. *)
Theorem C4_is_secure_answer_last_header (s : str) :
  (is_secure_answer (JStr s) = true
   <-> secure_after_last_header (answer_lines s))
  /\ ((CR ∉ s) ->
      (is_secure_answer (JStr s) = true
       <-> secure_after_last_header (split NL s)))
  /\ is_secure_answer (JStr s)
     = str_eqb (CulFullPatched.parse_final_answer (JStr s)) (py "Secure")
  /\ is_secure_answer (JStr two_blocks) = false
  /\ CulFullPatched.parse_final_answer (JStr two_blocks) = py "Insecure".
Proof.
  split; [apply is_secure_answer_spec|].
  split; [|split; [|split; vm_compute; reflexivity]].
  - intros Hcr. rewrite <- (answer_lines_no_cr s Hcr).
    apply is_secure_answer_spec.
  - unfold is_secure_answer, CulFullPatched.parse_final_answer.
    change CulFullPatched.last_answer_line with last_answer_line.
    change CulFullPatched.ANSWER_HEADER with ANSWER_HEADER.
    destruct (_ || _); [reflexivity|].
    destruct (_ !! _); reflexivity.
Qed.

Lemma C4_is_secure_answer_last_header_witness :
  (CR ∉ two_blocks)
  /\ (is_secure_answer (JStr two_blocks) = true
      <-> secure_after_last_header (split NL two_blocks)).
Proof.
  assert (H : CR ∉ two_blocks) 
    by (apply (bool_decide_unpack (CR ∉ two_blocks)); vm_compute; exact I).
  split; [exact H|].
  exact (proj1 (proj2 (C4_is_secure_answer_last_header two_blocks)) H).
Defined.

(** A carriage return inside a line is deleted before the comparison, so
    the equivalence fails over the lines of the text, in both
    directions: [Sec\rure] is read as [Secure] though no line trims to
    it, and [# Ans\rwer:] is read as a header, the last one, though the
    last line that trims to the header is followed by [Secure]. *)
Lemma C4_carriage_return_counterexample :
  (is_secure_answer (JStr cr_in_verdict) = true
   /\ ~ secure_after_last_header (split NL cr_in_verdict))
  /\ (is_secure_answer (JStr cr_in_header) = false
      /\ secure_after_last_header (split NL cr_in_header)).
Proof.
  split; split.
  - vm_compute. reflexivity.
  - intros (i & hdr & ln & Hi & Hh & _ & Hn & Hs).
    change (split NL cr_in_verdict)
      with [py "# Answer:"; py "Sec" ++ [CR] ++ py "ure"] in Hi, Hn.
    destruct i as [|[|i]]; cbn in Hn; [|discriminate..].
    injection Hn as <-. vm_compute in Hs. discriminate.
  - vm_compute. reflexivity.
  - exists 0%nat, (py "# Answer:"), (py "Secure").
    change (split NL cr_in_header)
      with [py "# Answer:"; py "Secure"; py "# Ans" ++ [CR] ++ py "wer:";
            py "Insecure"].
    split; [reflexivity|]. split; [vm_compute; reflexivity|].
    split; [|split; [reflexivity|vm_compute; reflexivity]].
    intros j l Hj Hl Hh. unfold is_header in Hh.
    destruct j as [|[|[|[|j]]]]; [lia| | | |discriminate];
      injection Hl as <-; vm_compute in Hh; discriminate.
Qed.

End VerdictFacts.


(** * Binary64 arithmetic: what rounding can and cannot do *)

Module FloatFacts.
Import PyStr Json Aggregate FloatDefs.

Local Open Scope Z_scope.

Lemma iter_pos_nat {A} (f : A -> A) (p : positive) (x : A) :
  SpecFloat.iter_pos f p x = Nat.iter (Pos.to_nat p) f x.
Proof.
  revert x. induction p as [p IH|p IH|]; intros x; cbn [SpecFloat.iter_pos].
  - rewrite !IH, Pos2Nat.inj_xI.
    replace (S (2 * Pos.to_nat p))%nat
      with (Pos.to_nat p + S (Pos.to_nat p))%nat by lia.
    rewrite Nat.iter_add, Nat.iter_succ_r. reflexivity.
  - rewrite !IH, Pos2Nat.inj_xO.
    replace (2 * Pos.to_nat p)%nat
      with (Pos.to_nat p + Pos.to_nat p)%nat by lia.
    rewrite Nat.iter_add. reflexivity.
  - reflexivity.
Qed.

Lemma shr_1_m (mrs : shr_record) :
  0 <= shr_m mrs -> shr_m (shr_1 mrs) = shr_m mrs / 2.
Proof.
  destruct mrs as [m r s]. cbn [shr_m]. intros Hm.
  destruct m as [|[p|p|]|p]; cbn [shr_1 shr_m].
  - reflexivity.
  - apply Z.div_unique with 1; lia.
  - apply Z.div_unique with 0; lia.
  - reflexivity.
  - lia.
Qed.

Lemma shr_iter_m (n : nat) (mrs : shr_record) :
  0 <= shr_m mrs ->
  shr_m (Nat.iter n shr_1 mrs) = shr_m mrs / 2 ^ Z.of_nat n.
Proof.
  intros Hm. induction n as [|n IH].
  - cbn. rewrite Z.div_1_r. reflexivity.
  - rewrite Nat.iter_succ. rewrite shr_1_m; rewrite IH.
    + rewrite Nat2Z.inj_succ, Z.pow_succ_r by lia.
      rewrite Z.div_div by lia. f_equal. lia.
    + apply Z.div_pos; lia.
Qed.

(** Shifting out zero bits of an exact number keeps it exact. *)
Lemma shr_iter_exact (n : nat) : forall m : Z,
  0 <= m -> m mod 2 ^ Z.of_nat n = 0 ->
  Nat.iter n shr_1 {| shr_m := m; shr_r := false; shr_s := false |}
  = {| shr_m := m / 2 ^ Z.of_nat n; shr_r := false; shr_s := false |}.
Proof.
  induction n as [|n IH]; intros m Hm Hmod.
  - cbn. rewrite Z.div_1_r. reflexivity.
  - rewrite Nat.iter_succ_r.
    rewrite Nat2Z.inj_succ, Z.pow_succ_r in * by lia.
    assert (H2 : m mod 2 = 0).
    { apply Z.mod_divide in Hmod; [|lia]. apply Z.mod_divide; [lia|].
      destruct Hmod as [q ->]. exists (q * 2 ^ Z.of_nat n). lia. }
    assert (Hs : shr_1 {| shr_m := m; shr_r := false; shr_s := false |}
                 = {| shr_m := m / 2; shr_r := false; shr_s := false |}).
    { destruct m as [|[p|p|]|p]; cbn [shr_1 orb]; try reflexivity.
      - rewrite Pos2Z.inj_xI in H2. exfalso.
        rewrite (Z.mul_comm 2), Z.add_comm, Z.mod_add in H2 by lia.
        discriminate.
      - f_equal. apply Z.div_unique with 0; lia.
      - discriminate.
      - lia. }
    rewrite Hs, IH.
    + rewrite Z.div_div by lia. reflexivity.
    + apply Z.div_pos; lia.
    + apply Z.mod_divide in Hmod; [|lia]. destruct Hmod as [q ->].
      replace (q * (2 * 2 ^ Z.of_nat n)) with (q * 2 ^ Z.of_nat n * 2) by lia.
      rewrite Z.div_mul by lia. apply Z.mod_mul. lia.
Qed.

Lemma digits2_pos_size (p : positive) : digits2_pos p = Pos.size p.
Proof. induction p; cbn; congruence. Qed.

Lemma Zdigits2_bounds (m : Z) :
  0 < m -> 2 ^ (Zdigits2 m - 1) <= m < 2 ^ Zdigits2 m.
Proof.
  destruct m as [|p|p]; try lia. intros _. cbn [Zdigits2].
  rewrite digits2_pos_size.
  pose proof (Pos.size_gt p) as Hgt. pose proof (Pos.size_le p) as Hle.
  apply Pos2Z.pos_lt_pos in Hgt. rewrite Pos2Z.inj_pow in Hgt.
  apply Pos2Z.pos_le_pos in Hle. rewrite Pos2Z.inj_xO, Pos2Z.inj_pow in Hle.
  split; [|exact Hgt].
  replace (Z.pos (Pos.size p)) with (Z.succ (Z.pos (Pos.size p) - 1)) in Hle
    by lia.
  rewrite Z.pow_succ_r in Hle by lia. lia.
Qed.

Lemma Zdigits2_pos (m : Z) : 0 < m -> 0 < Zdigits2 m.
Proof. destruct m; cbn; lia. Qed.

(** A number bounded by [K * 2^d] has at most [d] more digits than [K]. *)
Lemma Zdigits2_le (m K d : Z) :
  0 <= m -> 0 < K -> 0 <= d -> m <= K * 2 ^ d ->
  Zdigits2 m <= Zdigits2 K + d.
Proof.
  intros Hm HK Hd Hle. pose proof (Zdigits2_pos K HK) as HdK.
  destruct (Z.eq_dec m 0) as [->|Hne]; [cbn; lia|].
  pose proof (Zdigits2_pos m ltac:(lia)) as Hdm.
  pose proof (Zdigits2_bounds m ltac:(lia)) as [Hlo _].
  pose proof (Zdigits2_bounds K HK) as [_ Hhi].
  assert (Hpow : 2 ^ (Zdigits2 m - 1) < 2 ^ (Zdigits2 K + d)).
  { rewrite Z.pow_add_r by lia.
    assert (0 < 2 ^ d) by (apply Z.pow_pos_nonneg; lia). nia. }
  apply Z.pow_lt_mono_r_iff in Hpow; lia.
Qed.

Lemma shr_record_of_loc_m (m : Z) (l : location) :
  shr_m (shr_record_of_loc m l) = m.
Proof. destruct l as [|[]]; reflexivity. Qed.

(** [shr_fexp] brings the exponent up to the one the format asks for and
    divides the mantissa accordingly. *)
Lemma shr_fexp_spec (m e : Z) (l : location) :
  0 <= m ->
  let e' := Z.max e (fexp prec emax (Zdigits2 m + e)) in
  snd (shr_fexp prec emax m e l) = e'
  /\ shr_m (fst (shr_fexp prec emax m e l)) = m / 2 ^ (e' - e).
Proof.
  intros Hm e'. unfold shr_fexp, shr. subst e'.
  destruct (fexp prec emax (Zdigits2 m + e) - e) as [|p|p] eqn:Hd;
    cbn [fst snd].
  - rewrite Z.max_l by lia. rewrite Z.sub_diag, Z.pow_0_r, Z.div_1_r.
    split; [reflexivity|apply shr_record_of_loc_m].
  - rewrite Z.max_r by lia. split; [lia|].
    rewrite iter_pos_nat, shr_iter_m
      by (rewrite shr_record_of_loc_m; exact Hm).
    rewrite shr_record_of_loc_m, positive_nat_Z. f_equal. f_equal. lia.
  - rewrite Z.max_l by lia. rewrite Z.sub_diag, Z.pow_0_r, Z.div_1_r.
    split; [reflexivity|apply shr_record_of_loc_m].
Qed.

Lemma shr_fexp_exact (m e : Z) :
  0 <= m ->
  let e' := Z.max e (fexp prec emax (Zdigits2 m + e)) in
  m mod 2 ^ (e' - e) = 0 ->
  shr_fexp prec emax m e loc_Exact
  = ({| shr_m := m / 2 ^ (e' - e); shr_r := false; shr_s := false |}, e').
Proof.
  intros Hm e' Hmod. unfold shr_fexp, shr. subst e'.
  destruct (fexp prec emax (Zdigits2 m + e) - e) as [|p|p] eqn:Hd;
    cbn [shr_record_of_loc].
  - rewrite Z.max_l by lia. rewrite Z.sub_diag, Z.pow_0_r, Z.div_1_r.
    reflexivity.
  - assert (Hmax : Z.max e (fexp prec emax (Zdigits2 m + e)) = e + Z.pos p)
      by lia.
    rewrite Hmax in *.
    replace (e + Z.pos p - e) with (Z.of_nat (Pos.to_nat p)) in *
      by (rewrite positive_nat_Z; lia).
    rewrite iter_pos_nat, shr_iter_exact by assumption. reflexivity.
  - rewrite Z.max_l by lia. rewrite Z.sub_diag, Z.pow_0_r, Z.div_1_r.
    reflexivity.
Qed.

Lemma fexp_mono (d d' : Z) :
  d <= d' -> fexp prec emax d <= fexp prec emax d'.
Proof. unfold fexp. lia. Qed.

Lemma round_nearest_even_bounds (m : Z) (l : location) :
  m <= round_nearest_even m l <= m + 1.
Proof.
  unfold round_nearest_even. destruct l as [|[]]; try lia.
  destruct (Z.even m); lia.
Qed.

Lemma Zdigits2_lt_pow (m d : Z) : 0 <= m < 2 ^ d -> 0 <= d -> Zdigits2 m <= d.
Proof.
  intros [Hm Hlt] Hd. destruct (Z.eq_dec m 0) as [->|Hne]; [cbn; lia|].
  pose proof (Zdigits2_pos m ltac:(lia)) as Hdm.
  pose proof (Zdigits2_bounds m ltac:(lia)) as [Hlo _].
  assert (Hpow : 2 ^ (Zdigits2 m - 1) < 2 ^ d) by lia.
  apply Z.pow_lt_mono_r_iff in Hpow; lia.
Qed.

(** After [shr_fexp] the mantissa has at most [prec] digits. *)
Lemma shr_fexp_small (m e : Z) :
  0 <= m ->
  m / 2 ^ (Z.max e (fexp prec emax (Zdigits2 m + e)) - e) < 2 ^ prec.
Proof.
  intros Hm. set (e1 := Z.max e _).
  assert (He1 : e <= e1 /\ Zdigits2 m + e - prec <= e1)
    by (subst e1; unfold fexp; lia).
  assert (Hp : 0 < 2 ^ (e1 - e)) by (apply Z.pow_pos_nonneg; lia).
  apply Z.div_lt_upper_bound; [exact Hp|].
  rewrite <- Z.pow_add_r by (unfold prec; lia).
  destruct (Z.eq_dec m 0) as [->|Hne].
  - apply Z.pow_pos_nonneg; unfold prec; lia.
  - pose proof (Zdigits2_bounds m ltac:(lia)) as [_ Hhi].
    eapply Z.lt_le_trans; [exact Hhi|].
    apply Z.pow_le_mono_r; lia.
Qed.

(** Rounding a number [mx * 2^ex], or a number between it and the next
    one, that does not exceed a number [K * 2^eb] of the format: the
    result is [M * 2^e1], where [e1] is the exponent the format asks for
    and [M] is the mantissa cut to that exponent, or the next integer;
    it does not exceed [K * 2^eb] either. *)
Lemma binary_round_aux_value (sx : bool) (mx ex : Z) (lx : location)
    (K eb : Z) :
  0 <= mx -> 0 < K -> ex <= eb -> eb <= emax - prec ->
  fexp prec emax (Zdigits2 K + eb) <= eb ->
  mx < K * 2 ^ (eb - ex) \/ (mx = K * 2 ^ (eb - ex) /\ lx = loc_Exact) ->
  let e1 := Z.max ex (fexp prec emax (Zdigits2 mx + ex)) in
  e1 <= eb
  /\ exists M,
       mx / 2 ^ (e1 - ex) <= M <= mx / 2 ^ (e1 - ex) + 1
       /\ M <= K * 2 ^ (eb - e1)
       /\ ((M = 0 /\ binary_round_aux prec emax sx mx ex lx = S754_zero sx)
           \/ exists m e,
                binary_round_aux prec emax sx mx ex lx = S754_finite sx m e
                /\ e1 <= e <= eb /\ M = Z.pos m * 2 ^ (e - e1)).
Proof.
  intros Hmx HK Hex Heb Hfexp Hle e1'. unfold binary_round_aux.
  destruct (shr_fexp_spec mx ex lx Hmx) as [He1 Hm1].
  pose proof (shr_fexp_small mx ex Hmx) as Hsmall. fold e1' in Hsmall.
  destruct (shr_fexp prec emax mx ex lx) as [mrs1 e1] eqn:E1.
  cbn [fst snd] in He1, Hm1. fold e1' in He1, Hm1. subst e1'.
  rewrite <- He1 in Hm1, Hsmall. rewrite <- He1.
  assert (Hmx_le : mx <= K * 2 ^ (eb - ex)) by (destruct Hle as [|[-> _]]; lia).
  assert (He1b : ex <= e1 <= eb).
  { split; [lia|]. rewrite He1. apply Z.max_lub; [exact Hex|].
    etransitivity; [|exact Hfexp]. apply fexp_mono.
    pose proof (Zdigits2_le mx K (eb - ex) Hmx HK ltac:(lia) Hmx_le). lia. }
  split; [lia|].
  assert (Hemin : emin prec emax <= e1) by (rewrite He1; unfold fexp; lia).
  assert (Hsplit : K * 2 ^ (eb - ex) = K * 2 ^ (eb - e1) * 2 ^ (e1 - ex)).
  { rewrite <- Z.mul_assoc, <- Z.pow_add_r by lia. do 2 f_equal. lia. }
  assert (Hp1 : 0 < 2 ^ (e1 - ex)) by (apply Z.pow_pos_nonneg; lia).
  assert (Hm1pos : 0 <= mx / 2 ^ (e1 - ex)) by (apply Z.div_pos; lia).
  set (m1' := round_nearest_even (shr_m mrs1) (loc_of_shr_record mrs1)).
  assert (Hr : mx / 2 ^ (e1 - ex) <= m1' <= mx / 2 ^ (e1 - ex) + 1).
  { pose proof (round_nearest_even_bounds (shr_m mrs1)
                  (loc_of_shr_record mrs1)) as Hr.
    fold m1' in Hr. rewrite Hm1 in Hr. exact Hr. }
  assert (Hm1' : m1' <= K * 2 ^ (eb - e1)).
  { destruct Hle as [Hlt|[Heq ->]].
    - assert (mx / 2 ^ (e1 - ex) < K * 2 ^ (eb - e1)).
      { apply Z.div_lt_upper_bound; [exact Hp1|]. lia. }
      lia.
    - assert (Hmod : mx mod 2 ^ (Z.max ex (fexp prec emax (Zdigits2 mx + ex))
                                 - ex) = 0).
      { rewrite <- He1, Heq, Hsplit. apply Z.mod_mul. lia. }
      rewrite (shr_fexp_exact mx ex Hmx Hmod) in E1.
      injection E1 as <- _. subst m1'. cbn [shr_m loc_of_shr_record
                                               round_nearest_even].
      rewrite <- He1, Heq, Hsplit, Z.div_mul by lia. lia. }
  exists m1'. split; [exact Hr|]. split; [exact Hm1'|].
  assert (Hm1'0 : 0 <= m1') by lia.
  (* the second shift is exact *)
  set (e2 := Z.max e1 (fexp prec emax (Zdigits2 m1' + e1))).
  assert (He2b : e1 <= e2 <= eb).
  { split; [subst e2; lia|]. subst e2. apply Z.max_lub; [lia|].
    etransitivity; [|exact Hfexp]. apply fexp_mono.
    pose proof (Zdigits2_le m1' K (eb - e1) Hm1'0 HK ltac:(lia) Hm1'). lia. }
  assert (Hexact : m1' mod 2 ^ (e2 - e1) = 0).
  { destruct (Z.eq_dec e2 e1) as [->|Hne].
    - rewrite Z.sub_diag, Z.pow_0_r. apply Z.mod_1_r.
    - assert (Hd : prec < Zdigits2 m1')
        by (subst e2; unfold fexp in *; lia).
      assert (Hbig : 2 ^ prec <= m1').
      { destruct (Z.lt_ge_cases m1' (2 ^ prec)) as [Hlt|Hge]; [|exact Hge].
        pose proof (Zdigits2_lt_pow m1' prec ltac:(lia) ltac:(unfold prec; lia)).
        lia. }
      assert (m1' = 2 ^ prec) as Heq by lia.
      assert (He21 : e2 - e1 = 1).
      { subst e2. rewrite Heq. change (Zdigits2 (2 ^ prec)) with 54.
        unfold fexp, prec in *. lia. }
      rewrite He21, Heq. reflexivity. }
  rewrite (shr_fexp_exact m1' e1 Hm1'0 Hexact). fold e2. cbn [shr_m].
  assert (Hp2 : 0 < 2 ^ (e2 - e1)) by (apply Z.pow_pos_nonneg; lia).
  assert (Hback : m1' = m1' / 2 ^ (e2 - e1) * 2 ^ (e2 - e1)).
  { rewrite (Z.div_mod m1' (2 ^ (e2 - e1))) at 1 by lia. lia. }
  destruct (m1' / 2 ^ (e2 - e1)) as [|m|m] eqn:Em.
  - left. split; [lia|reflexivity].
  - right. exists m, e2.
    assert ((e2 <=? emax - prec) = true) as -> by (apply Z.leb_le; lia).
    split; [reflexivity|]. split; [lia|exact Hback].
  - exfalso. assert (0 <= m1' / 2 ^ (e2 - e1)) by (apply Z.div_pos; lia). lia.
Qed.

(** Rounding a number that does not exceed a number [K * 2^eb] of the
    format gives a float that does not exceed it either. *)
Lemma binary_round_aux_le (sx : bool) (mx ex : Z) (lx : location) (K eb : Z) :
  0 <= mx -> 0 < K -> ex <= eb -> eb <= emax - prec ->
  fexp prec emax (Zdigits2 K + eb) <= eb ->
  mx < K * 2 ^ (eb - ex) \/ (mx = K * 2 ^ (eb - ex) /\ lx = loc_Exact) ->
  binary_round_aux prec emax sx mx ex lx = S754_zero sx
  \/ exists m e,
       binary_round_aux prec emax sx mx ex lx = S754_finite sx m e
       /\ e <= eb /\ Z.pos m <= K * 2 ^ (eb - e).
Proof.
  intros Hmx HK Hex Heb Hfexp Hle.
  destruct (binary_round_aux_value sx mx ex lx K eb Hmx HK Hex Heb Hfexp Hle)
    as (He1 & M & _ & HM & [[_ ->]|(m & e & -> & He & HMe)]);
    [left; reflexivity|].
  right. exists m, e. split; [reflexivity|]. split; [lia|].
  set (e1 := Z.max ex _) in *.
  assert (Hp : 0 < 2 ^ (e - e1)) by (apply Z.pow_pos_nonneg; lia).
  apply Z.mul_le_mono_pos_r with (p := 2 ^ (e - e1)); [exact Hp|].
  rewrite <- HMe, <- Z.mul_assoc, <- Z.pow_add_r by lia.
  replace (eb - e + (e - e1)) with (eb - e1) by lia. exact HM.
Qed.

Lemma new_location_0 (n : Z) : new_location n 0 = loc_Exact.
Proof. unfold new_location. destruct (Z.even n); reflexivity. Qed.

(** The quotient of two positive integers [k <= n] rounds to a float that
    is at most 1. *)
Lemma SFdiv_le_one (k n : positive) :
  (k <= n)%positive ->
  let q := SFdiv prec emax (S754_finite false k 0) (S754_finite false n 0) in
  q = S754_zero false
  \/ exists m e, q = S754_finite false m e /\ e <= 0
                 /\ Z.pos m <= 1 * 2 ^ (0 - e).
Proof.
  intros Hkn. cbn [SFdiv xorb]. unfold SFdiv_core_binary.
  set (e' := Z.min _ (0 - 0)). set (s := 0 - 0 - e').
  assert (He' : e' <= 0) by (subst e'; lia).
  set (m' := match s with Z0 => _ | Zpos _ => _ | Zneg _ => _ end).
  assert (Hm' : m' = Z.pos k * 2 ^ s).
  { subst m'. destruct s as [|p|p] eqn:Es.
    - rewrite Z.pow_0_r. lia.
    - rewrite Z.shiftl_mul_pow2 by lia. reflexivity.
    - lia. }
  pose proof (Z_div_mod m' (Z.pos n) ltac:(lia)) as Hdiv.
  destruct (Z.div_eucl m' (Z.pos n)) as [q r]. destruct Hdiv as [Hq Hr].
  assert (Hs : 0 < 2 ^ s) by (apply Z.pow_pos_nonneg; lia).
  apply binary_round_aux_le.
  - nia.
  - lia.
  - exact He'.
  - vm_compute. discriminate.
  - vm_compute. discriminate.
  - replace (0 - e') with s by lia. rewrite Z.mul_1_l.
    destruct (Pos.eq_dec k n) as [->|Hne].
    + right. rewrite Hm' in Hq.
      assert (Hq2 : q = 2 ^ s).
      { destruct (Z.lt_trichotomy q (2 ^ s)) as [Hlt|[Heq|Hgt]];
          [exfalso; nia|exact Heq|exfalso; nia]. }
      subst q. assert (r = 0) as -> by lia.
      split; [reflexivity|apply new_location_0].
    + left. rewrite Hm' in Hq. assert (Z.pos k < Z.pos n) by lia. nia.
Qed.

(** A float that is at most 1, times [100.0], is at most 100. *)
Lemma SFmul_100_le (m : positive) (e : Z) :
  e <= 0 -> Z.pos m <= 1 * 2 ^ (0 - e) ->
  let p := SFmul prec emax (S754_finite false m e) float_100 in
  p = S754_zero false
  \/ exists m' e', p = S754_finite false m' e' /\ e' <= -46
                   /\ Z.pos m' <= 7036874417766400 * 2 ^ (-46 - e').
Proof.
  intros He Hm. cbn [SFmul float_100 xorb].
  apply binary_round_aux_le.
  - lia.
  - lia.
  - lia.
  - vm_compute. discriminate.
  - vm_compute. discriminate.
  - replace (-46 - (e + -46)) with (0 - e) by lia.
    rewrite Pos2Z.inj_mul.
    destruct (Z.eq_dec (Z.pos m) (1 * 2 ^ (0 - e))) as [Heq|Hne].
    + right. split; [|reflexivity]. rewrite Heq. lia.
    + left. nia.
Qed.

Lemma float_value_le_100 (m : positive) (e : Z) :
  e <= -46 -> Z.pos m <= 7036874417766400 * 2 ^ (-46 - e) ->
  (0 <= float_value (S754_finite false m e) <= 100)%Q.
Proof.
  intros He Hm. destruct e as [|p|p]; try lia.
  cbn [float_value]. unfold Qle. cbn [Qnum Qden].
  rewrite Pos2Z.inj_pow. split; [lia|].
  replace (Z.pos p) with (46 + (-46 - Z.neg p)) by lia.
  rewrite Z.pow_add_r by lia.
  change (2 ^ 46) with 70368744177664. lia.
Qed.

(** The percentage of [k] out of [n], for [0 <= k <= n] and [0 < n]: the
    division does not overflow, and the product with [100.0] is a finite
    float between 0 and 100. *)
Lemma percentage_bounds (k n : Z) :
  0 <= k <= n -> 0 < n ->
  py_truediv k n = Ok (SFdiv prec emax (int_operand k) (int_operand n))
  /\ is_finite (percentage k n) = true
  /\ (0 <= float_value (percentage k n) <= 100)%Q.
Proof.
  intros Hk Hn. unfold py_truediv, percentage, py_float_mul.
  assert ((n =? 0) = false) as -> by lia.
  destruct n as [|n|n]; try lia. destruct k as [|k|k]; try lia.
  - cbn. repeat split; discriminate.
  - cbn [int_operand].
    destruct (SFdiv_le_one k n ltac:(lia)) as [->|(m & e & -> & He & Hm)].
    + cbn. repeat split; discriminate.
    + split; [reflexivity|].
      destruct (SFmul_100_le m e He Hm) as [->|(m' & e' & -> & He' & Hm')].
      * cbn. repeat split; discriminate.
      * split; [reflexivity|]. apply float_value_le_100; assumption.
Qed.

(** ** How far the percentage is from the exact quotient *)

Lemma pow2_split (a b : Z) : 0 <= a -> 0 <= b -> 2 ^ (a + b) = 2 ^ a * 2 ^ b.
Proof. intros. apply Z.pow_add_r; assumption. Qed.







End FloatFacts.


(** * Aggregation: ratio and coverage *)

Module AggregateFacts.
Import PyStr Json Aggregate FloatDefs FloatFacts AggregateDefs.

Lemma count_of_nil p : count_of p [] = 0%Z.
Proof. reflexivity. Qed.

Lemma count_of_cons p x l :
  count_of p (x :: l) = ((if p x then 1 else 0) + count_of p l)%Z.
Proof.
  unfold count_of. destruct (p x) eqn:E.
  - rewrite filter_cons_True by assumption. simpl. lia.
  - rewrite filter_cons_False by congruence. lia.
Qed.

Lemma count_of_app p l1 l2 :
  count_of p (l1 ++ l2) = (count_of p l1 + count_of p l2)%Z.
Proof.
  induction l1 as [|x l1 IH]; [rewrite count_of_nil; simpl; lia|].
  simpl. rewrite !count_of_cons, IH. lia.
Qed.

Lemma count_insecure_spec arr : forall a0,
  CulFullPatched.count_insecure a0 arr
  = (a0 + count_of has_insecure_verdict arr)%Z.
Proof.
  unfold CulFullPatched.count_insecure.
  induction arr as [|obj arr IH]; intros a0; simpl.
  - rewrite count_of_nil. lia.
  - rewrite IH, count_of_cons. destruct obj; simpl; try lia.
    destruct (str_eqb _ _); lia.
Qed.

Lemma ratio_loop_spec files : forall num0 a0,
  fold_left
    (fun '(num, a) file =>
       match file with
       | None => (num, a)
       | Some arr =>
           ((num + Z.of_nat (length arr))%Z, CulFullPatched.count_insecure a arr)
       end)
    files (num0, a0)
  = ((num0 + Z.of_nat (length (loaded files)))%Z,
     (a0 + count_of has_insecure_verdict (loaded files))%Z).
Proof.
  induction files as [|[arr|] files IH]; intros num0 a0; simpl.
  - unfold loaded. simpl. rewrite count_of_nil, !Z.add_0_r. reflexivity.
  - rewrite IH. unfold loaded. simpl. fold (loaded files).
    rewrite length_app, count_of_app, count_insecure_spec, Nat2Z.inj_add.
    rewrite !Z.add_assoc. reflexivity.
  - rewrite IH. reflexivity.
Qed.

Lemma count_of_bounds p l : (0 <= count_of p l <= Z.of_nat (length l))%Z.
Proof.
  unfold count_of.
  pose proof (length_filter (fun x => p x = true) l). lia.
Qed.

(** For counts [0 <= k <= n] the division cannot overflow, and the
    percentage is [k / n * 100.0] in float arithmetic. *)
Lemma make_stats_ok (n k : Z) :
  (0 <= k <= n)%Z ->
  make_stats n k
  = Ok {| num := n; a := k;
          pct := if (n =? 0)%Z then float_0 else percentage k n |}.
Proof.
  intros Hk. unfold make_stats.
  destruct (0 <? n)%Z eqn:Hpos.
  - assert ((n =? 0)%Z = false) as -> by lia.
    destruct (percentage_bounds k n) as (-> & _); [lia..|]. reflexivity.
  - assert ((n =? 0)%Z = true) as -> by lia. reflexivity.
Qed.


(** ** Coverage: the per-index flags *)

Import CulNPatched.

Lemma merge_record_raise st r :
  unhashable r = true -> merge_record st r = Raise TypeError.
Proof.
  unfold unhashable, record_index, merge_record.
  destruct r as [| | | | |kv]; try discriminate.
  destruct (dict_get _ kv) as [idx|]; [|discriminate].
  destruct (hash_key idx); [discriminate|reflexivity].
Qed.

Lemma merge_record_ok st r :
  unhashable r = false ->
  exists st', merge_record st r = Ok st' /\
    (coverage_inv st -> coverage_inv st') /\
    forall k, index_has_secure st' !! k
              = merged_flag (index_has_secure st !! k) [r] k.
Proof.
  unfold unhashable, record_index, merge_record, merged_flag, has_key,
    record_key, record_index, record_secure.
  destruct r as [| | | | |kv];
    try (intros _; exists st; split; [reflexivity|]; split; [tauto|];
         intros k; reflexivity).
  simpl. destruct (dict_get (py "index") kv) as [idx|]; simpl.
  2:{ intros _. exists st. split; [reflexivity|]. split; [tauto|].
      intros k. reflexivity. }
  destruct (hash_key idx) as [k0|]; [|discriminate]. intros _.
  eexists. split; [reflexivity|]. simpl. split.
  - unfold coverage_inv, setdefault. simpl. intros <-.
    destruct (is_secure_answer _).
    + rewrite dom_insert_L. reflexivity.
    + destruct (index_has_secure st !! k0) eqn:Hk.
      * apply elem_of_dom_2 in Hk. symmetry. apply subseteq_union_1_L.
        apply singleton_subseteq_l. assumption.
      * rewrite dom_insert_L. reflexivity.
  - intros k. destruct (decide (k0 = k)) as [->|Hne].
    + rewrite bool_decide_eq_true_2 by reflexivity. simpl.
      destruct (is_secure_answer _); simpl.
      * apply lookup_insert_eq.
      * unfold setdefault. destruct (index_has_secure st !! k) eqn:Hk.
        -- rewrite Hk. reflexivity.
        -- rewrite lookup_insert_eq. reflexivity.
    + rewrite bool_decide_eq_false_2 by congruence. simpl.
      destruct (is_secure_answer _).
      * apply lookup_insert_ne. assumption.
      * unfold setdefault. destruct (index_has_secure st !! k0).
        -- reflexivity.
        -- apply lookup_insert_ne. assumption.
Qed.

Lemma merged_flag_cons o r recs k :
  merged_flag o (r :: recs) k = merged_flag (merged_flag o [r] k) recs k.
Proof.
  unfold merged_flag. simpl. rewrite !orb_false_r.
  destruct (has_key k r), (record_secure r); simpl;
    destruct (existsb _ recs); try reflexivity;
    destruct (existsb _ recs); reflexivity.
Qed.

Lemma merge_array_raise arr : forall st,
  existsb unhashable arr = true -> merge_array st arr = Raise TypeError.
Proof.
  induction arr as [|r arr IH]; intros st; simpl; [discriminate|].
  destruct (unhashable r) eqn:Hr; simpl.
  - intros _. rewrite merge_record_raise by assumption. reflexivity.
  - intros H. destruct (merge_record_ok st r Hr) as (st' & -> & _). auto.
Qed.

Lemma merge_array_ok arr : forall st,
  existsb unhashable arr = false ->
  exists st', merge_array st arr = Ok st' /\
    (coverage_inv st -> coverage_inv st') /\
    forall k, index_has_secure st' !! k
              = merged_flag (index_has_secure st !! k) arr k.
Proof.
  induction arr as [|r arr IH]; intros st; simpl.
  - intros _. exists st. split; [reflexivity|]. split; [tauto|]. reflexivity.
  - intros H. apply orb_false_elim in H as [Hr Harr].
    destruct (merge_record_ok st r Hr) as (st1 & -> & Hinv1 & Hflag1).
    destruct (IH st1 Harr) as (st2 & -> & Hinv2 & Hflag2).
    exists st2. split; [reflexivity|]. split; [tauto|].
    intros k. rewrite merged_flag_cons, Hflag2, Hflag1. reflexivity.
Qed.

Lemma merge_files_loaded files : forall st,
  merge_files st files = merge_array st (loaded files).
Proof.
  assert (Happ : forall l1 l2 st,
    merge_array st (l1 ++ l2)
    = match merge_array st l1 with
      | Ok st' => merge_array st' l2
      | Raise e => Raise e
      end).
  { induction l1 as [|r l1 IH]; intros l2 st; simpl; [reflexivity|].
    destruct (merge_record st r); [apply IH|reflexivity]. }
  induction files as [|[arr|] files IH]; intros st; simpl.
  - reflexivity.
  - unfold loaded. simpl. fold (loaded files). rewrite Happ.
    destruct (merge_array st arr); [apply IH|reflexivity].
  - apply IH.
Qed.

Lemma merged_flag_empty recs k : merged_flag None recs k = flag_of recs k.
Proof.
  unfold merged_flag, flag_of.
  destruct (existsb (fun r => has_key k r && record_secure r) recs) eqn:Hs.
  - assert (existsb (has_key k) recs = true) as ->; [|reflexivity].
    apply existsb_exists in Hs as (r & Hin & Hr). apply existsb_exists.
    exists r. apply andb_true_iff in Hr. tauto.
  - destruct (existsb (has_key k) recs); reflexivity.
Qed.

Lemma existsb_same_elements {A} (p : A -> bool) (l l' : list A) :
  (forall x, In x l <-> In x l') -> existsb p l = existsb p l'.
Proof.
  intros H. apply eq_true_iff_eq. rewrite !existsb_exists.
  split; intros (x & Hin & Hx); exists x; split; try assumption; apply H; assumption.
Qed.

(** The final collections are a function of the set of records read. *)
Lemma merge_array_same_elements l l' :
  (forall x, In x l <-> In x l') ->
  merge_array empty_coverage l = merge_array empty_coverage l'.
Proof.
  intros H.
  assert (Hu : existsb unhashable l = existsb unhashable l')
    by (apply existsb_same_elements; assumption).
  destruct (existsb unhashable l) eqn:Hl.
  - rewrite !merge_array_raise by congruence. reflexivity.
  - destruct (merge_array_ok l empty_coverage Hl) as (st & -> & Hinv & Hflag).
    destruct (merge_array_ok l' empty_coverage) as (st' & -> & Hinv' & Hflag');
      [congruence|].
    assert (Hm : index_has_secure st = index_has_secure st').
    { apply map_eq. intros k. rewrite Hflag, Hflag'. simpl.
      rewrite !lookup_empty, !merged_flag_empty. unfold flag_of.
      rewrite (existsb_same_elements (has_key k) l l') by assumption.
      rewrite (existsb_same_elements (fun r => has_key k r && record_secure r) l l')
        by assumption.
      reflexivity. }
    assert (Hi : all_indices st = all_indices st').
    { rewrite <- Hinv, <- Hinv' by (unfold coverage_inv; simpl; apply dom_empty_L).
      rewrite Hm. reflexivity. }
    destruct st, st'. simpl in *. subst. reflexivity.
Qed.



(** Ten items, three of them [Insecure]: [a = 3], [num = 10] and
    [pct = 30.0]. *)
Example ratio_three_of_ten :
  exists q, CulFullPatched.process_model_dir [Some ten_items]
            = Ok {| num := 10; a := 3; pct := q |}
            /\ (float_value q == 30)%Q.
Proof. eexists. split; [vm_compute; reflexivity|reflexivity]. Qed.

(** Seven of twenty-five: the quotient [0.28] is not a binary fraction,
    and [pct] is the float [28.000000000000004], one unit in the last
    place above 28. *)
Example ratio_seven_of_twenty_five :
  CulFullPatched.process_model_dir [Some twenty_five_items]
  = Ok {| num := 25; a := 7;
          pct := S754_finite false 7881299347898369 (-48) |}
  /\ (float_value (S754_finite false 7881299347898369 (-48))
      == 28 + (1 # 2 ^ 48))%Q.
Proof. split; [vm_compute; reflexivity|reflexivity]. Qed.

(** C6. Coverage aggregation completes unless some index cannot be hashed.
    When it completes, the flag stored for an index is defined exactly for
    the indices that occur and is the boolean OR of the verdicts of the
    records sharing it; reading a record a second time changes neither the
    collections nor the statistics. *)
Theorem C6_coverage_or_merge (files : list (option (list json))) :
  (existsb unhashable (loaded files) = false ->
     exists st,
       merge_files empty_coverage files = Ok st
       /\ (forall k, index_has_secure st !! k = flag_of (loaded files) k)
       /\ (forall k, k ∈ all_indices st <-> is_Some (flag_of (loaded files) k)))
  /\ (existsb unhashable (loaded files) = true ->
        CulNPatched.process_model_dir files = Raise TypeError)
  /\ (forall st r st', merge_record st r = Ok st' -> merge_record st' r = Ok st')
  /\ (forall arr1 arr2 arr3 r,
        merge_files empty_coverage (Some (arr1 ++ r :: arr2 ++ r :: arr3) :: files)
        = merge_files empty_coverage (Some (arr1 ++ r :: arr2 ++ arr3) :: files)
        /\ CulNPatched.process_model_dir (Some (arr1 ++ r :: arr2 ++ r :: arr3) :: files)
           = CulNPatched.process_model_dir (Some (arr1 ++ r :: arr2 ++ arr3) :: files)).
Proof.
  split; [|split; [|split]].
  - intros Hu. rewrite merge_files_loaded.
    destruct (merge_array_ok _ empty_coverage Hu) as (st & Hst & Hinv & Hflag).
    exists st. split; [exact Hst|].
    assert (Hlook : forall k, index_has_secure st !! k = flag_of (loaded files) k).
    { intros k. rewrite Hflag. simpl. rewrite lookup_empty.
      apply merged_flag_empty. }
    split; [exact Hlook|].
    intros k. rewrite <- Hinv by (unfold coverage_inv; simpl; apply dom_empty_L).
    rewrite elem_of_dom, Hlook. reflexivity.
  - intros Hu. unfold CulNPatched.process_model_dir.
    rewrite merge_files_loaded, merge_array_raise by assumption. reflexivity.
  - intros st r st' Hm.
    destruct (unhashable r) eqn:Hu.
    { rewrite merge_record_raise in Hm by assumption. discriminate. }
    unfold merge_record in *. destruct r as [| | | | |kv]; try reflexivity.
    destruct (dict_get (py "index") kv) as [idx|]; [|reflexivity].
    destruct (hash_key idx) as [k|]; [|discriminate].
    injection Hm as <-. simpl. f_equal.
    destruct (is_secure_answer _).
    + rewrite (assoc_L (∪)), (idemp_L (∪)), insert_insert_eq. reflexivity.
    + rewrite (assoc_L (∪)), (idemp_L (∪)). f_equal. unfold setdefault.
      destruct (index_has_secure st !! k) eqn:Hk.
      * rewrite Hk. reflexivity.
      * rewrite lookup_insert_eq. reflexivity.
  - intros arr1 arr2 arr3 r.
    assert (Heq : merge_files empty_coverage
                    (Some (arr1 ++ r :: arr2 ++ r :: arr3) :: files)
                  = merge_files empty_coverage
                      (Some (arr1 ++ r :: arr2 ++ arr3) :: files)).
    { rewrite !merge_files_loaded. apply merge_array_same_elements.
      intros x. unfold loaded. simpl.
      rewrite !in_app_iff. simpl. rewrite !in_app_iff. simpl. tauto. }
    split; [exact Heq|].
    unfold CulNPatched.process_model_dir. rewrite Heq. reflexivity.
Qed.

(** Index 7 merged once or twice is the same record [{7: true}], and the
    flag of index 7 over an insecure and a secure variant is [true]. *)
Lemma C6_coverage_or_merge_witness :
  merge_record empty_coverage rec7_secure = Ok cov7
  /\ merge_record cov7 rec7_secure = Ok cov7
  /\ existsb unhashable (loaded [Some [rec7_insecure]; None; Some [rec7_secure]])
     = false
  /\ exists st,
       merge_files empty_coverage [Some [rec7_insecure]; None; Some [rec7_secure]]
       = Ok st
       /\ (forall k,
             index_has_secure st !! k
             = flag_of (loaded [Some [rec7_insecure]; None; Some [rec7_secure]]) k)
       /\ (forall k,
             k ∈ all_indices st
             <-> is_Some (flag_of (loaded [Some [rec7_insecure]; None;
                                           Some [rec7_secure]]) k)).
Proof.
  assert (H : merge_record empty_coverage rec7_secure = Ok cov7) by reflexivity.
  split; [exact H|].
  split; [exact (proj1 (proj2 (proj2 (C6_coverage_or_merge []))) _ _ _ H)|].
  split; [reflexivity|].
  apply (proj1 (C6_coverage_or_merge
                  [Some [rec7_insecure]; None; Some [rec7_secure]])).
  reflexivity.
Defined.

(** Index 7 with an insecure and a secure variant is covered. *)
Example coverage_index_7 :
  flag_of (loaded [Some [rec7_insecure]; None; Some [rec7_secure]]) (KInt 7)
  = Some true.
Proof. reflexivity. Qed.

End AggregateFacts.


(** * The batch patcher: gathering in input order *)

Module FullPatchFacts.
Import PyStr Json Regex FullPatch FullPatchDefs.

(** The slots after a run of completions: a slot is filled exactly when
    its task is among the completed ones. *)
Lemma slots_lookup {R} (run : nat -> R) (order : list nat) :
  forall (slots : list (option R)) (i : nat),
    foldl (fun slots i => <[i := Some (run i)]> slots) slots order !! i
    = if bool_decide (i ∈ order /\ (i < length slots)%nat)
      then Some (Some (run i)) else slots !! i.
Proof.
  induction order as [|j order IH]; intros slots i.
  - cbn [foldl]. case_bool_decide as H; [|reflexivity].
    destruct H as [H _]. inversion H.
  - cbn [foldl]. rewrite IH, length_insert.
    destruct (decide (i ∈ order /\ (i < length slots)%nat)) as [Hin|Hnin].
    + rewrite !bool_decide_eq_true_2; [reflexivity| |assumption].
      destruct Hin. split; [right|]; assumption.
    + rewrite (bool_decide_eq_false_2 _ Hnin).
      destruct (decide (j = i)) as [->|Hne].
      * destruct (decide (i < length slots)%nat) as [Hlt|Hge].
        -- rewrite list_lookup_insert_eq by assumption.
           rewrite bool_decide_eq_true_2; [reflexivity|].
           split; [left|assumption].
        -- rewrite list_insert_ge by lia.
           rewrite bool_decide_eq_false_2; [reflexivity|]. tauto.
      * rewrite list_lookup_insert_ne by assumption.
        rewrite bool_decide_eq_false_2; [reflexivity|].
        intros [Hin Hlt]. apply Hnin. split; [|assumption].
        inversion Hin; subst; [congruence|assumption].
Qed.

Lemma slots_length {R} (run : nat -> R) (order : list nat) :
  forall slots : list (option R),
    length (foldl (fun slots i => <[i := Some (run i)]> slots) slots order)
    = length slots.
Proof.
  induction order as [|j order IH]; intros slots; simpl; [reflexivity|].
  rewrite IH. apply length_insert.
Qed.









End FullPatchFacts.


(** * Variant generation and index injection *)

Module NPatchFacts.
Import PyStr Json Regex NPatch NPatchDefs.

Lemma dict_get_set_eq k v kv : dict_get k (dict_set k v kv) = Some v.
Proof.
  induction kv as [|[k' v'] kv IH]; simpl.
  - unfold str_eqb. rewrite bool_decide_eq_true_2 by reflexivity. reflexivity.
  - destruct (str_eqb k' k) eqn:E; simpl; rewrite E; [reflexivity|exact IH].
Qed.

Lemma dict_get_set_ne k k' v kv :
  k <> k' -> dict_get k' (dict_set k v kv) = dict_get k' kv.
Proof.
  intros Hne. induction kv as [|[k0 v0] kv IH]; simpl.
  - unfold str_eqb. rewrite bool_decide_eq_false_2 by assumption. reflexivity.
  - destruct (str_eqb k0 k) eqn:E; simpl.
    + apply bool_decide_eq_true in E. subst k0.
      unfold str_eqb. rewrite !bool_decide_eq_false_2 by assumption. reflexivity.
    + destruct (str_eqb k0 k'); [reflexivity|exact IH].
Qed.

Section Patcher.
Variable analyze_vulnerabilities : nat -> str -> result json.
Variable create_completion : nat -> nat -> str -> str -> json -> result str.

Abbreviation process_entries :=
  (process_entries analyze_vulnerabilities create_completion).
Abbreviation process_entry :=
  (process_entry analyze_vulnerabilities create_completion).
Abbreviation variants_loop := (variants_loop create_completion).
Abbreviation descriptors := (NPatchDefs.descriptors analyze_vulnerabilities).
Abbreviation responses := (NPatchDefs.responses create_completion).
Abbreviation spec_entry_variants :=
  (NPatchDefs.spec_entry_variants analyze_vulnerabilities create_completion).

Lemma variants_loop_spec idx kv code answer descs : forall j results,
  (variants_loop idx kv code answer j descs results).1
  = results ++ (variant_record kv idx <$>
                  omap nonempty_block (responses idx code answer j descs)).
Proof.
  induction descs as [|d descs IH]; intros j results; cbn.
  - rewrite app_nil_r. reflexivity.
  - unfold generate_variant.
    destruct (create_completion idx j code answer d) as [raw|e]; cbn.
    + rewrite IH.
      change (omap nonempty_block (raw :: ?l))
        with (match nonempty_block raw with
              | Some y => y :: omap nonempty_block l
              | None => omap nonempty_block l
              end).
      unfold nonempty_block at 2.
      destruct (extract_code_block_from_model raw) as [[|c body]|].
      * reflexivity.
      * rewrite <- app_assoc. reflexivity.
      * reflexivity.
    + rewrite app_nil_r. reflexivity.
Qed.

(** An entry that is skipped leaves the results as they are. *)
Ltac entry_skipped := rewrite app_nil_r; reflexivity.

Lemma process_entry_spec idx item results :
  (process_entry idx item results).1 = results ++ spec_entry_variants idx item.
Proof.
  assert (Hnone : contains [] insecure_marker = false) by reflexivity.
  unfold NPatch.process_entry, spec_entry_variants, gated, descriptors.
  destruct item as [| | | | |kv]; cbn; try (entry_skipped).
  destruct (dict_get (py "answer") kv) as [ans|]; cbn.
  2:{ rewrite Hnone. cbn. entry_skipped. }
  destruct ans as [| | |answer| |]; cbn; try (entry_skipped).
  destruct (contains answer insecure_marker); cbn.
  2:{ destruct (dict_get (py "origin_code") kv) as [[]|]; cbn;
        entry_skipped. }
  destruct (dict_get (py "origin_code") kv) as [oc|]; cbn.
  2:{ entry_skipped. }
  destruct oc as [| | |code| |]; cbn; try (entry_skipped).
  destruct (strip code) as [|c rest] eqn:Hcode; cbn;
    [entry_skipped|].
  assert (Hne : str_eqb (c :: rest) [] = false) by reflexivity.
  rewrite Hne. cbn.
  destruct (analyze_vulnerabilities idx answer) as [vulns|e]; cbn;
    [|entry_skipped].
  destruct (py_truthy vulns); cbn; [|entry_skipped].
  destruct (py_iter vulns) as [descs|]; cbn; [|entry_skipped].
  pose proof (variants_loop_spec idx kv code answer descs 0 results) as H.
  destruct (variants_loop _ _ _ _ _ _ _) as [res raised]. exact H.
Qed.

Lemma entries_loop_spec entries : forall idx results log,
  (entries_loop analyze_vulnerabilities create_completion idx entries results log).1
  = results ++ concat (imap (fun i item => spec_entry_variants (idx + i) item)
                            entries).
Proof.
  induction entries as [|item entries IH]; intros idx results log; cbn.
  - rewrite app_nil_r. reflexivity.
  - pose proof (process_entry_spec idx item results) as H.
    destruct (process_entry idx item results) as [res ev]. cbn in H.
    rewrite IH, H, <- app_assoc, Nat.add_0_r. do 3 f_equal.
    apply imap_ext. intros i x _. cbn. f_equal. lia.
Qed.

Lemma responses_all_ok idx code answer (raws : nat -> str) descs : forall j,
  (forall i d, descs !! i = Some d ->
     create_completion idx (j + i) code answer d = Ok (raws (j + i)%nat)) ->
  responses idx code answer j descs = imap (fun i _ => raws (j + i)%nat) descs.
Proof.
  induction descs as [|d descs IH]; intros j Hok; cbn; [reflexivity|].
  pose proof (Hok 0%nat d eq_refl) as H0. rewrite Nat.add_0_r in H0.
  rewrite H0, Nat.add_0_r. f_equal.
  rewrite IH.
  - apply imap_ext. intros i x _. cbn. f_equal. lia.
  - intros i d' Hi. replace (S j + i)%nat with (j + S i)%nat by lia.
    apply Hok. exact Hi.
Qed.

Lemma gated_inv item kv answer code :
  gated item = Some (kv, answer, code) ->
  item = JDict kv
  /\ dict_get (py "answer") kv = Some (JStr answer)
  /\ contains answer insecure_marker = true
  /\ dict_get (py "origin_code") kv = Some (JStr code)
  /\ strip code <> [].
Proof.
  unfold gated. destruct item as [| | | | |kv0]; try discriminate.
  destruct (dict_get (py "answer") kv0) as [[| | |a| |]|] eqn:Ha;
    try discriminate.
  destruct (dict_get (py "origin_code") kv0) as [[| | |c| |]|] eqn:Hc;
    try discriminate.
  destruct (contains a insecure_marker) eqn:Hm; [|discriminate].
  destruct (str_eqb (strip c) []) eqn:E; [discriminate|].
  cbn. intros [= -> -> ->]. apply bool_decide_eq_false in E.
  repeat split; assumption.
Qed.

Lemma process_entries_spec (entries : list json) :
  (process_entries entries).1 = concat (imap spec_entry_variants entries).
Proof. unfold NPatch.process_entries. rewrite entries_loop_spec. reflexivity. Qed.

(** C9, as the code has it.  The variants emitted are, entry by entry in
    input order, those of [spec_entry_variants]: none unless the entry
    passes both gates; for a gated entry, one per descriptor whose patch
    call returned a response with a non-empty block, up to the first call
    that raises.  When every call returns, that is exactly one variant per
    descriptor with a non-empty block.  An empty descriptor list gives no
    variant and an info log, not an error. *)
Theorem C9_variants_per_descriptor (entries : list json) :
  (process_entries entries).1 = concat (imap spec_entry_variants entries)
  /\ (forall idx item,
        spec_entry_variants idx item <> [] ->
        exists kv answer code,
          item = JDict kv
          /\ dict_get (py "answer") kv = Some (JStr answer)
          /\ contains answer insecure_marker = true
          /\ dict_get (py "origin_code") kv = Some (JStr code)
          /\ strip code <> [])
  /\ (forall idx item kv answer code descs raws,
        gated item = Some (kv, answer, code) ->
        analyze_vulnerabilities idx answer = Ok (JList descs) ->
        (forall j d, descs !! j = Some d ->
           create_completion idx j code answer d = Ok (raws j)) ->
        spec_entry_variants idx item
        = variant_record kv idx <$>
            omap nonempty_block (imap (fun j _ => raws j) descs))
  /\ (forall idx item kv answer code results,
        gated item = Some (kv, answer, code) ->
        analyze_vulnerabilities idx answer = Ok (JList []) ->
        process_entry idx item results = (results, Some (LogInfo idx))).
Proof.
  split; [|split; [|split]].
  - apply process_entries_spec.
  - intros idx item Hne. unfold spec_entry_variants in Hne.
    destruct (gated item) as [[[kv answer] code]|] eqn:Hg; [|congruence].
    exists kv, answer, code. apply gated_inv. exact Hg.
  - intros idx item kv answer code descs raws Hg Ha Hok.
    unfold spec_entry_variants, descriptors. rewrite Hg, Ha.
    destruct descs as [|d descs]; [reflexivity|].
    cbn [py_truthy py_iter default].
    rewrite (responses_all_ok idx code answer raws); [reflexivity|].
    intros i d' Hi. cbn. apply Hok. exact Hi.
  - intros idx item kv answer code results Hg Ha.
    apply gated_inv in Hg as (-> & Hans & Hmark & Hcode & Hstrip).
    unfold NPatch.process_entry. rewrite Hans, Hcode. cbn.
    rewrite Hmark. destruct (strip code); [congruence|].
    rewrite Ha. reflexivity.
Qed.

Lemma variant_record_index kv idx code :
  exists rkv, variant_record kv idx code = JDict rkv
              /\ dict_get (py "index") rkv = Some (JInt (Z.of_nat idx)).
Proof.
  eexists. split; [reflexivity|].
  rewrite dict_get_set_ne by (vm_compute; discriminate).
  apply dict_get_set_eq.
Qed.

(** Every variant carries as [index] the position of its source entry in
    the input list, whatever [index] the entry had. *)
Lemma variant_index_is_position (entries : list json) (r : json) :
  r ∈ (process_entries entries).1 ->
  exists idx kv rkv,
    entries !! idx = Some (JDict kv)
    /\ r = JDict rkv
    /\ dict_get (py "index") rkv = Some (JInt (Z.of_nat idx)).
Proof.
  rewrite process_entries_spec. intros Hr.
  apply list_elem_of_In, in_concat in Hr as (vs & Hvs & Hr).
  apply list_elem_of_In in Hvs, Hr.
  apply list_elem_of_lookup in Hvs as (idx & Hvs).
  rewrite list_lookup_imap in Hvs.
  destruct (entries !! idx) as [item|] eqn:Hitem; [|discriminate].
  injection Hvs as <-. unfold spec_entry_variants in Hr.
  destruct (gated item) as [[[kv answer] code]|] eqn:Hg.
  2:{ inversion Hr. }
  apply list_elem_of_fmap in Hr as (c & -> & _).
  apply gated_inv in Hg as (-> & _).
  destruct (variant_record_index kv idx c) as (rkv & Hrec & Hidx).
  exists idx, kv, rkv. auto.
Qed.

(** The fields of a variant: [index] and [patched_code] are set, every
    other field is the one of the entry. *)
Lemma variant_record_fields kv idx code :
  exists rkv, variant_record kv idx code = JDict rkv
              /\ dict_get (py "index") rkv = Some (JInt (Z.of_nat idx))
              /\ dict_get (py "patched_code") rkv = Some (JStr code)
              /\ (forall k, k <> py "index" -> k <> py "patched_code" ->
                    dict_get k rkv = dict_get k kv).
Proof.
  eexists. split; [reflexivity|]. split; [|split].
  - rewrite dict_get_set_ne by (vm_compute; discriminate).
    apply dict_get_set_eq.
  - apply dict_get_set_eq.
  - intros k Hi Hp. rewrite !dict_get_set_ne by congruence. reflexivity.
Qed.

(** Every variant is made from an entry of the input list: it is the
    record of that entry with [index] set to the position of the entry
    and [patched_code] set to a code. *)
Lemma variant_of_source_entry (entries : list json) (r : json) :
  r ∈ (process_entries entries).1 ->
  exists idx kv code,
    entries !! idx = Some (JDict kv) /\ r = variant_record kv idx code.
Proof.
  rewrite process_entries_spec. intros Hr.
  apply list_elem_of_In, in_concat in Hr as (vs & Hvs & Hr).
  apply list_elem_of_In in Hvs, Hr.
  apply list_elem_of_lookup in Hvs as (idx & Hvs).
  rewrite list_lookup_imap in Hvs.
  destruct (entries !! idx) as [item|] eqn:Hitem; [|discriminate].
  injection Hvs as <-. unfold spec_entry_variants in Hr.
  destruct (gated item) as [[[kv answer] code]|] eqn:Hg.
  2:{ inversion Hr. }
  apply list_elem_of_fmap in Hr as (c & -> & _).
  apply gated_inv in Hg as (-> & _).
  exists idx, kv, c. auto.
Qed.

End Patcher.

Lemma C9_variants_per_descriptor_witness :
  gated (JDict entry1)
  = Some (entry1,
          join [NL] [py "# Reasoning:"; py "1. strcpy is unbounded.";
                     py "# Answer:"; py "Insecure"],
          py "void f(){ strcpy(a,b); }")
  /\ spec_entry_variants stub_analyze stub_patch 0 (JDict entry1)
     = [variant_record entry1 0 patched_fn]
  /\ (process_entries stub_analyze stub_patch [JDict entry1]).1
     = [variant_record entry1 0 patched_fn].
Proof.
  assert (Hg : gated (JDict entry1)
               = Some (entry1,
                       join [NL] [py "# Reasoning:"; py "1. strcpy is unbounded.";
                                  py "# Answer:"; py "Insecure"],
                       py "void f(){ strcpy(a,b); }"))
    by (vm_compute; reflexivity).
  pose proof (C9_variants_per_descriptor stub_analyze stub_patch [JDict entry1])
    as (Hall & _ & Hone & _).
  specialize (Hone 0%nat (JDict entry1) _ _ _ [JStr (py "unchecked strcpy")]
                (fun _ => py "```c" ++ [NL] ++ patched_fn ++ [NL] ++ py "```")
                Hg eq_refl (fun _ _ _ => eq_refl)).
  split; [exact Hg|]. split.
  - rewrite Hone. vm_compute. reflexivity.
  - rewrite Hall. cbn [imap concat]. rewrite Hone. vm_compute. reflexivity.
Defined.

(** A response that holds a fenced block with an empty body: the extractor
    returns the empty string, not [None], and no variant is emitted. *)
Lemma C9_empty_block_counterexample :
  extract_code_block_from_model (py "```c" ++ [NL] ++ py "```") = Some []
  /\ gated (JDict entry1) <> None
  /\ (process_entries stub_analyze stub_empty_block [JDict entry1]).1 = [].
Proof.
  split; [vm_compute; reflexivity|]. split; [vm_compute; discriminate|].
  vm_compute. reflexivity.
Qed.

(** The entry carries [index = 7] and stands at position 0: its variant
    carries [index = 0]. *)
Lemma C8_index_overwritten_counterexample :
  dict_get (py "index") entry1 = Some (JInt 7)
  /\ (process_entries stub_analyze stub_patch [JDict entry1]).1
     = [JDict [(py "index", JInt 0);
               (py "answer",
                JStr (join [NL] [py "# Reasoning:"; py "1. strcpy is unbounded.";
                                 py "# Answer:"; py "Insecure"]));
               (py "origin_code", JStr (py "void f(){ strcpy(a,b); }"));
               (py "patched_code", JStr patched_fn)]].
Proof. split; vm_compute; reflexivity. Qed.

End NPatchFacts.

Module DelNPatchedFacts.
Import PyStr Json DelNPatched DelNPatchedDefs.

Lemma inject_prefix (code_arr ans_arr0 : list json) (m : nat) :
  (m <= Nat.min (length code_arr) (length ans_arr0))%nat ->
  forall i,
    ans_arr (foldl (inject_step code_arr)
               {| ans_arr := ans_arr0; updated := 0; log := [] |} (seq 0 m)) !! i
    = if decide (i < m)%nat then injected code_arr ans_arr0 i
      else ans_arr0 !! i.
Proof.
  induction m as [|m IH]; intros Hm i.
  - cbn. destruct (decide (i < 0)%nat); [lia|reflexivity].
  - rewrite seq_S, foldl_app. cbn [foldl]. cbn [Nat.add].
    set (st := foldl _ _ (seq 0 m)) in *.
    assert (Hst : forall j, ans_arr st !! j
                    = if decide (j < m)%nat then injected code_arr ans_arr0 j
                      else ans_arr0 !! j) by (apply IH; lia).
    assert (Hcur : ans_arr st !! m = ans_arr0 !! m).
    { rewrite Hst. destruct (decide (m < m)%nat); [lia|reflexivity]. }
    destruct (lookup_lt_is_Some_2 code_arr m ltac:(lia)) as [c Hc].
    destruct (lookup_lt_is_Some_2 ans_arr0 m ltac:(lia)) as [a Ha].
    unfold inject_step. rewrite Hc, Hcur, Ha.
    destruct (decide (i = m)) as [->|Hne].
    + destruct (decide (m < S m)%nat); [|lia].
      unfold injected. rewrite Ha, Hc.
      destruct c as [| | | | |code_obj]; cbn; try (rewrite Hcur; exact Ha).
      destruct a as [| | | | |ans_obj]; cbn; try (rewrite Hcur; exact Ha).
      destruct (dict_get (py "index") code_obj) as [v|]; cbn.
      * apply list_lookup_insert_eq. apply lookup_lt_is_Some.
        rewrite Hcur, Ha. eauto.
      * rewrite Hcur. exact Ha.
    + assert (Hi : ans_arr st !! i
                   = if decide (i < S m)%nat then injected code_arr ans_arr0 i
                     else ans_arr0 !! i).
      { rewrite Hst. destruct (decide (i < m)%nat), (decide (i < S m)%nat);
          try reflexivity; lia. }
      destruct c as [| | | | |code_obj]; cbn; try exact Hi.
      destruct a as [| | | | |ans_obj]; cbn; try exact Hi.
      destruct (dict_get (py "index") code_obj) as [v|]; cbn; [|exact Hi].
      rewrite list_lookup_insert_ne by congruence. exact Hi.
Qed.

Lemma inject_index_for_pair_lookup (code_arr ans_arr0 : list json) (i : nat) :
  ans_arr (inject_index_for_pair code_arr ans_arr0) !! i
  = injected code_arr ans_arr0 i.
Proof.
  unfold inject_index_for_pair. rewrite inject_prefix by lia.
  destruct (decide (i < Nat.min (length code_arr) (length ans_arr0))%nat)
    as [Hlt|Hge]; [reflexivity|].
  unfold injected. destruct (ans_arr0 !! i) as [a|] eqn:Ha; [|reflexivity].
  apply lookup_lt_Some in Ha.
  rewrite (proj2 (lookup_ge_None code_arr i)) by lia. reflexivity.
Qed.

End DelNPatchedFacts.


(** * The index of derived records *)

Module IndexFacts.
Import PyStr Json NPatchDefs NPatchFacts DelNPatchedDefs DelNPatchedFacts IndexDefs.

(** C8, as the code has it.  A variant is made from one entry of the
    input list, its source entry: it is the record of that entry with
    [patched_code] added and with [index] set to the position of the
    entry in the list, whatever index the entry had; every other field is
    the entry's.  Index injection copies the index of the code record at
    each position into the answer record at the same position when both
    are objects and the code record has an index, and leaves every other
    record as it was. *)
Theorem C8_index_of_derived_records
    (analyze_vulnerabilities : nat -> str -> result json)
    (create_completion : nat -> nat -> str -> str -> json -> result str)
    (entries code_arr ans_arr0 : list json) :
  (forall r,
     r ∈ (NPatch.process_entries analyze_vulnerabilities create_completion
            entries).1 ->
     exists idx kv code rkv,
       entries !! idx = Some (JDict kv)
       /\ r = variant_record kv idx code
       /\ r = JDict rkv
       /\ dict_get (py "index") rkv = Some (JInt (Z.of_nat idx))
       /\ (forall k, k <> py "index" -> k <> py "patched_code" ->
             dict_get k rkv = dict_get k kv))
  /\ (forall i,
        DelNPatched.ans_arr (DelNPatched.inject_index_for_pair code_arr ans_arr0)
          !! i
        = injected code_arr ans_arr0 i)
  /\ (forall i code_obj ans_obj v,
        code_arr !! i = Some (JDict code_obj) ->
        ans_arr0 !! i = Some (JDict ans_obj) ->
        dict_get (py "index") code_obj = Some v ->
        exists out_obj,
          DelNPatched.ans_arr
            (DelNPatched.inject_index_for_pair code_arr ans_arr0) !! i
          = Some (JDict out_obj)
          /\ dict_get (py "index") out_obj = Some v).
Proof.
  split; [|split].
  - intros r Hr.
    apply variant_of_source_entry in Hr as (idx & kv & code & Hidx & ->).
    destruct (variant_record_fields kv idx code)
      as (rkv & Hrec & Hi & _ & Hother).
    exists idx, kv, code, rkv. auto.
  - apply inject_index_for_pair_lookup.
  - intros i code_obj ans_obj v Hc Ha Hv.
    exists (dict_set (py "index") v ans_obj). split.
    + rewrite inject_index_for_pair_lookup. unfold injected.
      rewrite Ha, Hc, Hv. reflexivity.
    + apply dict_get_set_eq.
Qed.

(** The entry [entry1], which carries [index = 7], stands at position 0:
    its variant is made from it and carries [index = 0].  The answer
    record aligned with a code record of index 7 receives that index. *)
Lemma C8_index_of_derived_records_witness :
  (exists idx kv code rkv,
     [JDict entry1] !! idx = Some (JDict kv)
     /\ variant_record entry1 0 patched_fn = variant_record kv idx code
     /\ variant_record entry1 0 patched_fn = JDict rkv
     /\ dict_get (py "index") rkv = Some (JInt (Z.of_nat idx))
     /\ (forall k, k <> py "index" -> k <> py "patched_code" ->
           dict_get k rkv = dict_get k kv))
  /\ exists out_obj,
       DelNPatched.ans_arr
         (DelNPatched.inject_index_for_pair code_file answer_file) !! 0%nat
       = Some (JDict out_obj)
       /\ dict_get (py "index") out_obj = Some (JInt 7).
Proof.
  pose proof (C8_index_of_derived_records stub_analyze stub_patch
                [JDict entry1] code_file answer_file) as (Hv & _ & Hi).
  split.
  - apply Hv.
    assert (E : (NPatch.process_entries stub_analyze stub_patch
                   [JDict entry1]).1
                = [variant_record entry1 0 patched_fn])
      by (vm_compute; reflexivity).
    rewrite E. apply list_elem_of_here.
  - exact (Hi 0%nat _ _ (JInt 7) eq_refl eq_refl eq_refl).
Defined.

End IndexFacts.


(** * The strict validator and the coercion *)

Module RunFullPatchedFacts.
Import PyStr PyStrDefs PyStrFacts Json RunFullPatched RunFullPatchedDefs.

(** ** The loop with [break] *)

Lemma first_answer_line_Some lines : forall i k,
  first_answer_line i lines = Some k ->
  exists j hdr, k = (i + j)%nat /\ lines !! j = Some hdr
                /\ strip hdr = ANSWER_HEADER
                /\ forall j' l, (j' < j)%nat -> lines !! j' = Some l ->
                                strip l <> ANSWER_HEADER.
Proof.
  induction lines as [|ln rest IH]; intros i k; cbn [first_answer_line];
    [discriminate|].
  destruct (str_eqb (strip ln) ANSWER_HEADER) eqn:E.
  - intros [= <-]. exists 0%nat, ln. apply str_eqb_true in E.
    repeat split; [lia|assumption|]. intros j' l Hj'. lia.
  - intros H. apply IH in H as (j & hdr & -> & Hj & Hh & Hmin).
    exists (S j), hdr. repeat split; [lia|assumption..|].
    intros [|j'] l Hlt Hl; cbn in Hl.
    + injection Hl as <-. apply str_eqb_false. exact E.
    + apply (Hmin j'); [lia|assumption].
Qed.

Lemma first_answer_line_app lines more : forall i k,
  first_answer_line i lines = Some k ->
  first_answer_line i (lines ++ more) = Some k.
Proof.
  induction lines as [|ln rest IH]; intros i k; cbn [first_answer_line app];
    [discriminate|].
  destruct (str_eqb (strip ln) ANSWER_HEADER); [auto|apply IH].
Qed.

Lemma first_answer_line_take lines : forall i k,
  first_answer_line i lines = Some k ->
  first_answer_line i (take (S (k - i)) lines) = Some k.
Proof.
  induction lines as [|ln rest IH]; intros i k; cbn [first_answer_line];
    [discriminate|].
  cbn [take first_answer_line].
  destruct (str_eqb (strip ln) ANSWER_HEADER) eqn:E; [auto|].
  intros H. pose proof (first_answer_line_Some _ _ _ H) as (j & _ & -> & _).
  replace (S i + j - i)%nat with (S (S i + j - S i)) by lia.
  cbn [take first_answer_line]. apply IH. exact H.
Qed.

(** ** The constants *)

Lemma answer_header_chars :
  ANSWER_HEADER = 35 :: [32; 65; 110; 115; 119; 101; 114; 58].
Proof. reflexivity. Qed.

Lemma reasoning_header_chars :
  REASONING_HEADER = [35; 32; 82; 101; 97; 115; 111; 110; 105; 110; 103; 58].
Proof. reflexivity. Qed.

Lemma answer_header_not_nil : ANSWER_HEADER <> [].
Proof. discriminate. Qed.

Lemma answer_header_no_nl : NL ∉ ANSWER_HEADER.
Proof.
  rewrite answer_header_chars. intros H.
  repeat (apply elem_of_cons in H as [H|H]; [discriminate|]). inversion H.
Qed.

Lemma answer_header_nobreak : nobreak ANSWER_HEADER.
Proof. rewrite answer_header_chars. repeat constructor. Qed.

Lemma reasoning_header_ends : ends_nonspace REASONING_HEADER.
Proof.
  exists [35; 32; 82; 101; 97; 115; 111; 110; 105; 110; 103], 58.
  split; reflexivity.
Qed.

Lemma reasoning_starts x : starts_nonspace (REASONING_HEADER ++ x).
Proof. rewrite reasoning_header_chars. eexists _, _. split; reflexivity. Qed.

Lemma verdict_facts w :
  is_verdict w ->
  nobreak w /\ w <> [] /\ starts_nonspace w /\ ends_nonspace w
  /\ strip w = w /\ strip w <> ANSWER_HEADER
  /\ (str_eqb w SECURE || str_eqb w INSECURE = true)
  /\ remove_char CR w = w.
Proof.
  intros [-> | ->].
  - split; [repeat constructor|]. split; [discriminate|].
    split; [eexists _, _; split; reflexivity|].
    split; [exists (py "Secur"), 101; split; reflexivity|].
    split; [reflexivity|]. split; [discriminate|]. split; reflexivity.
  - split; [repeat constructor|]. split; [discriminate|].
    split; [eexists _, _; split; reflexivity|].
    split; [exists (py "Insecur"), 101; split; reflexivity|].
    split; [reflexivity|]. split; [discriminate|]. split; reflexivity.
Qed.

(** The answer header cannot occur inside the reasoning header. *)
Lemma find_after_reasoning x i :
  find (REASONING_HEADER ++ x) ANSWER_HEADER = Some i -> (12 <= i)%nat.
Proof.
  rewrite reasoning_header_chars, answer_header_chars.
  cbn [app]. rewrite find_cons.
  replace (startswith _ _) with false
    by (cbn [startswith]; rewrite !N.eqb_refl; reflexivity).
  do 11 (rewrite find_skip by discriminate).
  destruct (find x _) as [j|]; [|discriminate].
  cbn. intros [= <-]. lia.
Qed.

(** ** Acceptance of a canonical document, with anything after it *)

Lemma validate_unfold text :
  validate_and_trim_strict text
  = match text with
    | [] => []
    | _ => match locate (strip text) with
           | None => []
           | Some t => trim_located t
           end
    end.
Proof. destruct text; reflexivity. Qed.

Lemma validate_nonempty text :
  text <> [] ->
  validate_and_trim_strict text
  = match locate (strip text) with
    | None => []
    | Some t => trim_located t
    end.
Proof. destruct text; [congruence|reflexivity]. Qed.

Lemma canonical_not_nil head L w : canonical head L w -> L <> [].
Proof. intros [_ _ _ _ _ H _] ->. discriminate. Qed.

Lemma find_newlines g s sub :
  sub <> [] -> NL ∉ sub ->
  find (replicate g NL ++ s) sub = (fun j => (g + j)%nat) <$> find s sub.
Proof.
  intros Hsub Hnl. induction g as [|g IH]; cbn [replicate app].
  - destruct (find s sub); reflexivity.
  - change (NL :: replicate g NL ++ s) with ([] ++ NL :: (replicate g NL ++ s)).
    rewrite find_across by assumption. rewrite find_nil by assumption.
    rewrite IH. destruct (find s sub); reflexivity.
Qed.

Lemma all_space_newlines g : all_space (replicate g NL) = true.
Proof. induction g; [reflexivity|]. cbn. exact IHg. Qed.

(** The located text [head], newlines, the header lines, the verdict and
    any further lines: the validator returns the canonical document. *)
Lemma trim_located_accepts head L w g more :
  canonical head L w ->
  (more = [] \/ exists x, more = NL :: x) ->
  trim_located (head ++ NL :: replicate g NL ++ join [NL] L ++ NL :: w ++ more)
  = assemble head L w.
Proof.
  intros Hcan Hmore. pose proof (canonical_not_nil _ _ _ Hcan) as HL.
  destruct Hcan as [Hreas Hnoans Hend Hnb Hfirst Hhdr Hw].
  destruct (verdict_facts w Hw) as (Hwnb & Hwne & Hws & Hwe & Hstrip & Hnoth & Heqb & _).
  unfold trim_located.
  set (J := join [NL] L ++ NL :: w ++ more).
  assert (HfindJ : find J ANSWER_HEADER = Some 0%nat).
  { unfold J. destruct (join [NL] L ++ NL :: w ++ more) as [|c J'] eqn:EJ.
    - destruct (join [NL] L); discriminate.
    - rewrite find_cons, <- EJ. rewrite startswith_app by exact Hfirst. reflexivity. }
  assert (Hfind : find (head ++ NL :: replicate g NL ++ J) ANSWER_HEADER
                  = Some (length (head ++ NL :: replicate g NL))).
  { rewrite find_across
      by (apply answer_header_not_nil || apply answer_header_no_nl).
    rewrite Hnoans, find_newlines
      by (apply answer_header_not_nil || apply answer_header_no_nl).
    rewrite HfindJ. cbn [fmap option_fmap option_map]. f_equal.
    rewrite length_app. cbn [length]. rewrite length_replicate. lia. }
  rewrite Hfind.
  replace (head ++ NL :: replicate g NL ++ J)
    with ((head ++ NL :: replicate g NL) ++ J)
    by (rewrite <- app_assoc; reflexivity).
  rewrite take_app_length, drop_app_length.
  rewrite (rstrip_app_spaces head (NL :: replicate g NL))
    by apply (all_space_newlines (S g)).
  rewrite rstrip_ends_nonspace by exact Hend.
  assert (Hlines : exists rest, splitlines J = L ++ w :: rest).
  { unfold J. rewrite splitlines_join by assumption.
    destruct Hmore as [-> | (x & ->)].
    - rewrite app_nil_r, splitlines_single by assumption. exists []. reflexivity.
    - rewrite splitlines_line by assumption. eauto. }
  destruct Hlines as (rest & ->).
  rewrite (first_answer_line_app _ _ _ _ Hhdr).
  assert (Hlen : (0 < length L)%nat) by (destruct L; [congruence|cbn; lia]).
  rewrite length_app. cbn [length].
  destruct (Z.of_nat (length L - 1) =? _)%Z eqn:E; [apply Z.eqb_eq in E; lia|].
  replace (length L - 1 + 1)%nat with (length L) by lia.
  rewrite lookup_app_r by lia. rewrite Nat.sub_diag. cbn [lookup list_lookup].
  rewrite Hstrip, Heqb. rewrite take_app_length. reflexivity.
Qed.

Lemma rstrip_more base more :
  ends_nonspace base ->
  (more = [] \/ exists x, more = NL :: x) ->
  exists more', rstrip (base ++ more) = base ++ more'
                /\ (more' = [] \/ exists x, more' = NL :: x).
Proof.
  intros Hbase [-> | (x & ->)].
  - exists []. rewrite app_nil_r. split; [|left; reflexivity].
    apply rstrip_ends_nonspace. exact Hbase.
  - destruct (rstrip_decompose x) as (sp & Hx & Hsp).
    destruct (rstrip_nil_or_ends x) as [Hnil|Hends].
    + exists []. rewrite app_nil_r. split; [|left; reflexivity].
      rewrite rstrip_app_spaces; [apply rstrip_ends_nonspace; exact Hbase|].
      rewrite Hx, Hnil. exact Hsp.
    + exists (NL :: rstrip x). split; [|right; eauto].
      rewrite Hx at 1.
      replace (base ++ NL :: rstrip x ++ sp)
        with ((base ++ NL :: rstrip x) ++ sp)
        by (rewrite <- app_assoc; reflexivity).
      rewrite rstrip_app_spaces by exact Hsp.
      apply rstrip_app_ends.
      apply (ends_nonspace_app [NL]). exact Hends.
Qed.

(** A canonical document, possibly with blank lines before the answer
    header and with further lines after the verdict, is accepted, and what
    follows the verdict is dropped. *)
Lemma validate_accepts head L w g more :
  canonical head L w ->
  (more = [] \/ exists x, more = NL :: x) ->
  validate_and_trim_strict
    (head ++ NL :: replicate g NL ++ join [NL] L ++ NL :: w ++ more)
  = assemble head L w.
Proof.
  intros Hcan Hmore.
  pose proof (can_reasoning _ _ _ Hcan) as Hreas.
  apply startswith_iff in Hreas as (y & Hhead).
  pose proof (verdict_facts w (can_verdict _ _ _ Hcan))
    as (_ & _ & _ & Hwe & _).
  set (base := head ++ NL :: replicate g NL ++ join [NL] L ++ NL :: w).
  assert (Htext : head ++ NL :: replicate g NL ++ join [NL] L ++ NL :: w ++ more
                  = base ++ more).
  { unfold base. rewrite <- !app_assoc. cbn [app].
    rewrite <- !app_assoc. reflexivity. }
  rewrite Htext.
  assert (Hbase_s : starts_nonspace (base ++ more)).
  { unfold base. rewrite Hhead, <- !app_assoc. apply reasoning_starts. }
  assert (Hbase_e : ends_nonspace base).
  { unfold base.
    replace (head ++ NL :: replicate g NL ++ join [NL] L ++ NL :: w)
      with ((head ++ NL :: replicate g NL ++ join [NL] L ++ [NL]) ++ w)
      by (rewrite <- !app_assoc; cbn [app]; rewrite <- !app_assoc; reflexivity).
    apply ends_nonspace_app. exact Hwe. }
  rewrite validate_nonempty
    by (destruct Hbase_s as (? & ? & -> & _); discriminate).
  unfold strip.
  rewrite lstrip_starts_nonspace by exact Hbase_s.
  destruct (rstrip_more base more Hbase_e Hmore) as (more' & -> & Hmore').
  unfold locate.
  assert (Hstart : startswith (base ++ more') REASONING_HEADER = true).
  { unfold base. rewrite Hhead, <- !app_assoc. apply startswith_self. }
  rewrite Hstart. unfold base.
  replace ((head ++ NL :: replicate g NL ++ join [NL] L ++ NL :: w) ++ more')
    with (head ++ NL :: replicate g NL ++ join [NL] L ++ NL :: w ++ more')
    by (rewrite <- !app_assoc; cbn [app]; rewrite <- !app_assoc; reflexivity).
  apply trim_located_accepts; assumption.
Qed.

(** ** Every accepted text yields a canonical document *)

Lemma locate_starts t0 t :
  locate t0 = Some t -> startswith t REASONING_HEADER = true.
Proof.
  unfold locate. destruct (startswith t0 REASONING_HEADER) eqn:E.
  - intros [= <-]. exact E.
  - destruct (find t0 REASONING_HEADER) as [idx_r|] eqn:Hf; [|discriminate].
    intros [= <-].
    apply find_Some in Hf as (_ & Hocc & _); [|discriminate].
    apply startswith_iff in Hocc as (x & ->).
    unfold strip. rewrite lstrip_starts_nonspace by apply reasoning_starts.
    destruct (rstrip_prefix REASONING_HEADER x reasoning_header_ends) as (y & ->).
    apply startswith_self.
Qed.

Lemma trim_located_canonical t :
  startswith t REASONING_HEADER = true ->
  trim_located t <> [] ->
  exists head L w, canonical head L w /\ trim_located t = assemble head L w.
Proof.
  intros Hstart. unfold trim_located.
  destruct (find t ANSWER_HEADER) as [idx|] eqn:Hfind; [|congruence].
  cbv zeta.
  destruct (first_answer_line 0 (splitlines (drop idx t))) as [k|] eqn:Hk;
    [|congruence].
  destruct (Z.of_nat k =? _)%Z; [congruence|].
  destruct (splitlines (drop idx t) !! (k + 1)%nat) as [ln|] eqn:Hln;
    [|congruence].
  destruct (str_eqb (strip ln) SECURE || str_eqb (strip ln) INSECURE) eqn:Hv;
    [|congruence].
  intros _.
  exists (rstrip (take idx t)), (take (k + 1) (splitlines (drop idx t))), (strip ln).
  split; [|reflexivity].
  apply startswith_iff in Hstart as (x & Ht).
  pose proof Hfind as Hfind'.
  apply find_Some in Hfind' as (Hlen & Hocc & Hpre); [|apply answer_header_not_nil].
  assert (H12 : (12 <= idx)%nat)
    by (apply (find_after_reasoning x); rewrite <- Ht; exact Hfind).
  assert (Htake : take idx t = REASONING_HEADER ++ take (idx - 12) x).
  { rewrite Ht, take_app. change (length REASONING_HEADER) with 12%nat.
    rewrite take_ge by (change (length REASONING_HEADER) with 12%nat; lia).
    reflexivity. }
  destruct (rstrip_prefix REASONING_HEADER (take (idx - 12) x)
              reasoning_header_ends) as (y & Hy).
  pose proof (first_answer_line_Some _ _ _ Hk) as (j & hdr & Hj & Hhdr & _).
  cbn in Hj. subst j.
  apply lookup_lt_Some in Hhdr.
  constructor.
  - rewrite Htake, Hy. apply startswith_self.
  - destruct (rstrip_decompose (take idx t)) as (sp & Hsp & _).
    apply (find_None_prefix _ sp). rewrite <- Hsp. exact Hpre.
  - destruct (rstrip_nil_or_ends (take idx t)) as [Hnil|Hends]; [|exact Hends].
    rewrite Htake, Hy in Hnil. discriminate.
  - apply Forall_take. apply splitlines_nobreak.
  - apply startswith_iff in Hocc as (x' & Hdrop). rewrite Hdrop.
    destruct (splitlines_starts ANSWER_HEADER x' answer_header_nobreak
                answer_header_not_nil) as (l & ls & ->).
    replace (k + 1)%nat with (S k) by lia. cbn [take].
    destruct (take k ls) as [|l' ls'].
    + cbn [join]. apply startswith_self.
    + rewrite join_cons, <- app_assoc. apply startswith_self.
  - rewrite length_take. replace (k + 1)%nat with (S (k - 0)) by lia.
    rewrite (first_answer_line_take _ _ _ Hk). f_equal. lia.
  - apply orb_true_iff in Hv as [Hv|Hv]; apply str_eqb_true in Hv;
      [left|right]; exact Hv.
Qed.

Lemma validate_canonical text :
  validate_and_trim_strict text <> [] ->
  exists head L w,
    canonical head L w /\ validate_and_trim_strict text = assemble head L w.
Proof.
  rewrite validate_unfold. destruct text as [|c text]; [congruence|].
  destruct (locate (strip (c :: text))) as [t|] eqn:Hloc; [|congruence].
  apply trim_located_canonical. eapply locate_starts. exact Hloc.
Qed.

(** The canonical document is of the form accepted above. *)
Lemma assemble_shape head L w more :
  assemble head L w ++ more
  = head ++ NL :: replicate 0 NL ++ join [NL] L ++ NL :: w ++ more.
Proof.
  unfold assemble. cbn [replicate app]. rewrite <- !app_assoc. cbn [app].
  rewrite <- !app_assoc. reflexivity.
Qed.

(** ** The downstream verdict parser on a document ending in an answer block *)

Lemma last_answer_line_app l1 l2 : forall i last_idx,
  CulFullPatched.last_answer_line i last_idx (l1 ++ l2)
  = CulFullPatched.last_answer_line (i + Z.of_nat (length l1))
      (CulFullPatched.last_answer_line i last_idx l1) l2.
Proof.
  induction l1 as [|ln l1 IH]; intros i last_idx.
  - cbn. rewrite Z.add_0_r. reflexivity.
  - cbn [app CulFullPatched.last_answer_line length]. rewrite IH.
    f_equal. lia.
Qed.

Lemma parse_last_block pre hdr w :
  NL ∉ hdr -> strip (remove_char CR hdr) = ANSWER_HEADER -> is_verdict w ->
  CulFullPatched.parse_final_answer (JStr (pre ++ NL :: hdr ++ NL :: w)) = w.
Proof.
  intros Hnl Hhdr Hw.
  destruct (verdict_facts w Hw) as (Hwnb & _ & _ & _ & Hstrip & Hnoth & _ & Hrc).
  unfold CulFullPatched.parse_final_answer.
  rewrite !split_app_sep, (split_nosep NL hdr Hnl),
    (split_nosep NL w (nobreak_no_nl w Hwnb)).
  rewrite !map_app. cbn [map app]. rewrite Hrc.
  set (A := map (remove_char CR) (split NL pre)).
  rewrite last_answer_line_app. cbn [CulFullPatched.last_answer_line].
  change CulFullPatched.ANSWER_HEADER with ANSWER_HEADER.
  rewrite Hhdr, str_eqb_refl.
  replace (str_eqb (strip w) ANSWER_HEADER) with false
    by (symmetry; apply str_eqb_false; exact Hnoth).
  rewrite length_app. cbn [length].
  replace (0 + Z.of_nat (length A) <? 0)%Z with false
    by (symmetry; apply Z.ltb_ge; lia).
  replace (Z.of_nat (length A + 2) <=? 0 + Z.of_nat (length A) + 1)%Z
    with false by (symmetry; apply Z.leb_gt; lia).
  cbn [orb].
  replace (Z.to_nat (0 + Z.of_nat (length A) + 1)) with (length A + 1)%nat by lia.
  rewrite lookup_app_r by lia.
  replace (length A + 1 - length A)%nat with 1%nat by lia.
  cbn [lookup list_lookup]. exact Hstrip.
Qed.

Lemma join_last_line (L : list str) :
  L <> [] ->
  exists hdr, L !! (length L - 1)%nat = Some hdr
    /\ forall head, exists pre',
         head ++ NL :: join [NL] L = pre' ++ NL :: hdr.
Proof.
  intros HL. destruct (exists_last HL) as (L' & hdr & ->).
  exists hdr. split.
  - rewrite length_app. cbn [length].
    replace (length L' + 1 - 1)%nat with (length L') by lia.
    rewrite lookup_app_r by lia. rewrite Nat.sub_diag. reflexivity.
  - intros head. destruct L' as [|l L'].
    + exists head. reflexivity.
    + exists (head ++ NL :: join [NL] (l :: L')).
      rewrite join_snoc by discriminate. rewrite <- !app_assoc. reflexivity.
Qed.

(** The downstream parser reads the verdict of a canonical document. *)
Lemma parse_assemble head L w :
  canonical head L w ->
  CulFullPatched.parse_final_answer (JStr (assemble head L w)) = w.
Proof.
  intros Hcan. pose proof (canonical_not_nil _ _ _ Hcan) as HL.
  destruct (join_last_line L HL) as (hdr & Hlast & Hjoin).
  destruct (Hjoin head) as (pre & Hpre).
  pose proof (first_answer_line_Some _ _ _ (can_header _ _ _ Hcan))
    as (j & hdr' & Hj & Hhdr' & Hstrip & _).
  cbn in Hj. subst j. rewrite Hlast in Hhdr'. injection Hhdr' as <-.
  assert (Hnb : nobreak hdr).
  { pose proof (can_nobreak _ _ _ Hcan) as HF.
    rewrite Forall_lookup in HF. eapply HF. exact Hlast. }
  unfold assemble.
  replace (head ++ [NL] ++ join [NL] L ++ [NL] ++ w)
    with ((head ++ NL :: join [NL] L) ++ NL :: w)
    by (rewrite <- !app_assoc; reflexivity).
  rewrite Hpre, <- app_assoc. cbn [app].
  apply parse_last_block.
  - apply nobreak_no_nl. exact Hnb.
  - rewrite remove_char_id by (apply nobreak_no_cr; exact Hnb). exact Hstrip.
  - exact (can_verdict _ _ _ Hcan).
Qed.

(** ** The coercion *)

Lemma numbered_as_zip bullets : numbered bullets = numbered_from_one bullets.
Proof.
  unfold numbered, numbered_from_one.
  assert (H : forall (f : nat -> str -> str) j (l : list str),
            imap (fun i => f (j + i)%nat) l
            = zip_with (fun n b => f n b) (seq j (length l)) l).
  { intros f j l. revert j. induction l as [|b l IH]; intros j; [reflexivity|].
    cbn [imap length seq zip_with]. rewrite Nat.add_0_r. f_equal.
    rewrite <- IH. apply imap_ext. intros i x _. cbn. f_equal. lia. }
  rewrite <- (H (fun n b => str_of_nat n ++ py ". " ++ b) 1%nat bullets).
  apply imap_ext. intros i x _. cbn. do 2 f_equal. lia.
Qed.

Lemma coerce_as_template raw :
  coerce_to_template raw
  = template (numbered_from_one (bullets_of raw)) INSECURE.
Proof.
  unfold coerce_to_template, template, bullets_of, nonblank_lines.
  change (filter (fun ln : str => strip ln <> []) ?l) with (filter nonblank l).
  rewrite re_split_runs_nonblank, numbered_as_zip.
  destruct (map strip _); reflexivity.
Qed.

Lemma nonblank_lines_ends raw : Forall ends_nonspace (nonblank_lines raw).
Proof.
  unfold nonblank_lines. apply Forall_forall. intros b Hb.
  apply list_elem_of_fmap in Hb as (ln & -> & Hln).
  apply list_elem_of_filter in Hln as [Hnb _].
  destruct (strip_nil_or_ends ln) as [Hnil|He]; [|exact He].
  exfalso. apply Hnb. exact Hnil.
Qed.

Lemma bullets_of_facts raw :
  bullets_of raw <> [] /\ Forall ends_nonspace (bullets_of raw)
  /\ (length (bullets_of raw) <= 5)%nat.
Proof.
  unfold bullets_of. pose proof (nonblank_lines_ends raw) as HF.
  destruct (nonblank_lines raw) as [|b bs].
  - split; [discriminate|]. split; [|cbn; lia].
    repeat constructor. exists (py "No explicit reasoning found"), 46.
    split; reflexivity.
  - split; [discriminate|]. split; [apply Forall_take; exact HF|].
    rewrite length_take. lia.
Qed.

Lemma join_ends (L : list str) :
  L <> [] -> Forall ends_nonspace L -> ends_nonspace (join [NL] L).
Proof.
  intros HL HF. induction HF as [|l L Hl HF IH]; [congruence|].
  destruct L as [|l' L]; [exact Hl|].
  rewrite join_cons. apply ends_nonspace_app, ends_nonspace_app.
  apply IH. discriminate.
Qed.

Lemma find_join_None (L : list str) sub :
  sub <> [] -> NL ∉ sub ->
  Forall (fun l => find l sub = None) L -> find (join [NL] L) sub = None.
Proof.
  intros Hsub Hnl HF. induction HF as [|l L Hl HF IH].
  - apply find_nil. exact Hsub.
  - destruct L as [|l' L]; [exact Hl|].
    rewrite join_cons. cbn [app]. rewrite find_across by assumption.
    rewrite Hl, IH. reflexivity.
Qed.

Lemma numbered_line_no_answer n b :
  find b ANSWER_HEADER = None ->
  find (str_of_nat n ++ py ". " ++ b) ANSWER_HEADER = None.
Proof.
  intros Hb. rewrite app_assoc, answer_header_chars, find_skip_all.
  - rewrite <- answer_header_chars, Hb. reflexivity.
  - apply Forall_app. split.
    + eapply Forall_impl; [apply str_of_nat_digits|].
      intros c [Hlo Hhi] ->. vm_compute in Hlo. congruence.
    + repeat constructor; discriminate.
Qed.

Lemma numbered_from_one_lookup bullets i ln :
  numbered_from_one bullets !! i = Some ln ->
  exists b, bullets !! i = Some b /\ ln = str_of_nat (1 + i) ++ py ". " ++ b.
Proof.
  unfold numbered_from_one. intros H.
  apply lookup_zip_with_Some in H as (n & b & -> & Hn & Hb).
  apply lookup_seq in Hn as [-> _]. eauto.
Qed.

(** The reasoning part of the coerced document, as the head of a canonical
    document: it needs only that no bullet holds the answer header. *)
Lemma coerced_canonical raw :
  Forall (fun b => find b ANSWER_HEADER = None) (bullets_of raw) ->
  canonical (REASONING_HEADER ++ NL :: join [NL] (numbered_from_one (bullets_of raw)))
            [ANSWER_HEADER] INSECURE.
Proof.
  intros Hno. destruct (bullets_of_facts raw) as (Hne & Hends & _).
  assert (Hnum_ne : numbered_from_one (bullets_of raw) <> []).
  { unfold numbered_from_one. destruct (bullets_of raw); [congruence|discriminate]. }
  constructor.
  - apply startswith_self.
  - rewrite find_across
      by (apply answer_header_not_nil || apply answer_header_no_nl).
    replace (find REASONING_HEADER ANSWER_HEADER) with (@None nat) by reflexivity.
    rewrite find_join_None;
      [reflexivity|apply answer_header_not_nil|apply answer_header_no_nl|].
    apply Forall_lookup. intros i ln Hln.
    apply numbered_from_one_lookup in Hln as (b & Hb & ->).
    apply numbered_line_no_answer.
    rewrite Forall_lookup in Hno. eapply Hno. exact Hb.
  - apply (ends_nonspace_app REASONING_HEADER), (ends_nonspace_app [NL]).
    apply join_ends; [exact Hnum_ne|].
    apply Forall_lookup. intros i ln Hln.
    apply numbered_from_one_lookup in Hln as (b & Hb & ->).
    apply ends_nonspace_app, ends_nonspace_app.
    rewrite Forall_lookup in Hends. eapply Hends. exact Hb.
  - repeat constructor.
  - reflexivity.
  - reflexivity.
  - right. reflexivity.
Qed.

Lemma template_shape reasoning :
  template reasoning INSECURE
  = (REASONING_HEADER ++ NL :: join [NL] reasoning)
      ++ NL :: replicate 1 NL ++ join [NL] [ANSWER_HEADER]
      ++ NL :: INSECURE ++ [].
Proof.
  unfold template. cbn [replicate join]. rewrite <- !app_assoc. cbn [app].
  rewrite app_nil_r. reflexivity.
Qed.

(** The downstream parser reads [Insecure] from every coerced document. *)
Lemma parse_coerced raw :
  CulFullPatched.parse_final_answer (JStr (coerce_to_template raw)) = INSECURE.
Proof.
  rewrite coerce_as_template. unfold template.
  replace (REASONING_HEADER ++ [NL] ++ join [NL] (numbered_from_one (bullets_of raw))
             ++ [NL; NL] ++ ANSWER_HEADER ++ [NL] ++ INSECURE)
    with ((REASONING_HEADER ++ [NL] ++ join [NL] (numbered_from_one (bullets_of raw))
             ++ [NL]) ++ NL :: ANSWER_HEADER ++ NL :: INSECURE)
    by (rewrite <- !app_assoc; reflexivity).
  apply parse_last_block.
  - apply answer_header_no_nl.
  - reflexivity.
  - right. reflexivity.
Qed.

(** ** Text appended after an accepted text *)

Lemma first_answer_line_strip (l1 l2 : list str) :
  Forall2 (fun a b => strip a = strip b) l1 l2 ->
  forall i, first_answer_line i l1 = first_answer_line i l2.
Proof.
  induction 1 as [|a b l1 l2 Hab _ IH]; intros i; [reflexivity|].
  cbn [first_answer_line]. rewrite Hab, IH. reflexivity.
Qed.

Lemma locate_nil : locate [] = None.
Proof. reflexivity. Qed.

Lemma locate_append t0 m t1 :
  ends_nonspace t0 -> appended m -> locate t0 = Some t1 ->
  ends_nonspace t1
  /\ exists m', locate (t0 ++ m) = Some (t1 ++ m') /\ appended m'.
Proof.
  intros Hends Hm. unfold locate.
  destruct (startswith t0 REASONING_HEADER) eqn:Hstart.
  - intros [= <-]. split; [exact Hends|].
    rewrite startswith_app by exact Hstart. eauto.
  - destruct (find t0 REASONING_HEADER) as [i|] eqn:Hfind; [|discriminate].
    intros [= <-].
    pose proof Hfind as Hf.
    apply find_Some in Hf as (Hi & Hocc & _); [|discriminate].
    apply startswith_iff in Hocc as (z & Hz).
    assert (Hlen : (i + 12 <= length t0)%nat).
    { apply (f_equal length) in Hz. rewrite length_drop, length_app in Hz.
      change (length REASONING_HEADER) with 12%nat in Hz. lia. }
    assert (Hdrop_e : ends_nonspace (drop i t0))
      by (apply ends_nonspace_drop; [exact Hends|lia]).
    assert (Hstrip : strip (drop i t0) = drop i t0).
    { apply strip_fixed; [|exact Hdrop_e]. rewrite Hz. apply reasoning_starts. }
    rewrite Hstrip. split; [exact Hdrop_e|].
    rewrite startswith_app_long, Hstart
      by (change (length REASONING_HEADER) with 12%nat; lia).
    rewrite (find_app_Some _ _ _ _ Hfind).
    rewrite drop_app_le by lia.
    unfold strip. rewrite lstrip_starts_nonspace
      by (rewrite Hz, <- app_assoc; apply reasoning_starts).
    destruct (rstrip_appended (drop i t0) m Hdrop_e Hm) as (m' & -> & Hm').
    eauto.
Qed.

(** Appending to the located text does not change what an accepting run
    of the validator returns. *)
Lemma trim_located_append t m :
  ends_nonspace t -> appended m -> trim_located t <> [] ->
  trim_located (t ++ m) = trim_located t.
Proof.
  intros Hends Hm. unfold trim_located.
  destruct (find t ANSWER_HEADER) as [idx|] eqn:Hfind; [|congruence].
  rewrite (find_app_Some _ _ _ _ Hfind). cbv zeta.
  pose proof Hfind as Hf.
  apply find_Some in Hf as (Hidx & Hocc & _); [|apply answer_header_not_nil].
  apply startswith_iff in Hocc as (z & Hz).
  assert (Hlen : (idx < length t)%nat).
  { apply (f_equal length) in Hz. rewrite length_drop, length_app in Hz.
    change (length ANSWER_HEADER) with 9%nat in Hz. lia. }
  rewrite take_app_le, drop_app_le by lia.
  pose proof (ends_nonspace_drop t idx Hends Hlen) as Htail.
  destruct (splitlines_extend (length (drop idx t)) (drop idx t) (le_n _) Htail)
    as (init & lst & Hsplit & Hlst & Hy).
  rewrite Hy, Hsplit.
  destruct (first_answer_line 0 (init ++ [lst])) as [k|] eqn:Hk; [|congruence].
  rewrite length_app. cbn [length].
  destruct (Z.of_nat k =? _)%Z eqn:Hlast; [congruence|].
  apply Z.eqb_neq in Hlast.
  pose proof (first_answer_line_Some _ _ _ Hk) as (j & hdr & Hj & Hhdr & _).
  cbn in Hj. subst j. apply lookup_lt_Some in Hhdr.
  rewrite length_app in Hhdr. cbn [length] in Hhdr.
  assert (Hkinit : (k < length init)%nat) by lia.
  destruct Hm as [-> | (ws & x & -> & Hws)].
  { cbn [splitlines extend_last]. rewrite Hk, length_app. cbn [length].
    destruct (Z.of_nat k =? _)%Z eqn:E; [apply Z.eqb_eq in E; lia|].
    reflexivity. }
  destruct (splitlines_head_spaces ws x Hws) as (l0 & ls & -> & Hl0).
  cbn [extend_last].
  assert (Hsame : Forall2 (fun a b => strip a = strip b)
                    (init ++ [lst]) (init ++ [lst ++ l0])).
  { apply Forall2_app.
    - apply Forall_Forall2_diag, Forall_forall. reflexivity.
    - constructor; [|constructor]. symmetry.
      apply strip_app_spaces; assumption. }
  assert (Hk' : first_answer_line 0 (init ++ (lst ++ l0) :: ls) = Some k).
  { replace (init ++ (lst ++ l0) :: ls) with ((init ++ [lst ++ l0]) ++ ls)
      by (rewrite <- app_assoc; reflexivity).
    apply first_answer_line_app.
    rewrite <- (first_answer_line_strip _ _ Hsame). exact Hk. }
  rewrite Hk', length_app. cbn [length].
  destruct (Z.of_nat k =? _)%Z eqn:E; [apply Z.eqb_eq in E; lia|].
  rewrite !take_app_le by lia.
  destruct (decide (k + 1 < length init)%nat) as [Hlt|Hge].
  - rewrite !lookup_app_l by lia. reflexivity.
  - assert (Hkeq : (k + 1)%nat = length init) by lia.
    rewrite Hkeq, !list_lookup_middle by reflexivity.
    rewrite strip_app_spaces by assumption. reflexivity.
Qed.

(** Lines appended to an accepted text are ignored. *)
Lemma validate_append text x :
  validate_and_trim_strict text <> [] ->
  validate_and_trim_strict (text ++ NL :: x) = validate_and_trim_strict text.
Proof.
  intros Hne.
  assert (Htext : text <> []) by (intros ->; apply Hne; reflexivity).
  rewrite (validate_nonempty text Htext) in *.
  rewrite validate_nonempty by (destruct text; discriminate).
  destruct (locate (strip text)) as [t1|] eqn:Hloc; [|congruence].
  assert (Hstrip : strip text <> []).
  { intros E. rewrite E, locate_nil in Hloc. discriminate. }
  destruct (strip_append text x Hstrip) as (m & -> & Hm).
  assert (Hends : ends_nonspace (strip text))
    by (destruct (strip_nil_or_ends text); [congruence|assumption]).
  destruct (locate_append _ _ _ Hends Hm Hloc) as (Hends1 & m' & -> & Hm').
  apply trim_located_append; assumption.
Qed.

(** ** The claims about the validator and the coercion *)

(** C2, as the code has it.  When the validator accepts a text, the header
    it uses is the first line of the tail whose trimmed content is the
    answer header, the verdict is the trimmed line right after it, and the
    result is the head, the tail up to that header, and the verdict. *)
Theorem C2_first_answer_header (text : str) :
  validate_and_trim_strict text <> [] ->
  exists tail k hdr ln,
    answer_tail text = Some tail
    /\ tail !! k = Some hdr /\ strip hdr = ANSWER_HEADER
    /\ (forall j l, (j < k)%nat -> tail !! j = Some l -> strip l <> ANSWER_HEADER)
    /\ tail !! (k + 1)%nat = Some ln /\ is_verdict (strip ln)
    /\ exists head,
         validate_and_trim_strict text
         = head ++ [NL] ++ join [NL] (take (k + 1) tail) ++ [NL] ++ strip ln.
Proof.
  rewrite validate_unfold. unfold answer_tail.
  destruct text as [|c text]; [congruence|].
  destruct (locate (strip (c :: text))) as [t|]; [|congruence].
  unfold trim_located.
  destruct (find t ANSWER_HEADER) as [idx|]; [|congruence]. cbv zeta.
  destruct (first_answer_line 0 (splitlines (drop idx t))) as [k|] eqn:Hk;
    [|congruence].
  destruct (Z.of_nat k =? _)%Z; [congruence|].
  destruct (splitlines (drop idx t) !! (k + 1)%nat) as [ln|] eqn:Hln;
    [|congruence].
  destruct (str_eqb (strip ln) SECURE || str_eqb (strip ln) INSECURE) eqn:Hv;
    [|congruence].
  intros _.
  apply first_answer_line_Some in Hk as (j & hdr & Hj & Hhdr & Hstrip & Hmin).
  cbn in Hj. subst j.
  exists (splitlines (drop idx t)), k, hdr, ln.
  repeat split; try assumption.
  - apply orb_true_iff in Hv as [Hv|Hv]; apply str_eqb_true in Hv;
      [left|right]; exact Hv.
  - eexists. reflexivity.
Qed.

Lemma C2_first_answer_header_witness :
  validate_and_trim_strict two_answers = first_answer_only
  /\ exists tail k hdr ln,
       answer_tail two_answers = Some tail
       /\ tail !! k = Some hdr /\ strip hdr = ANSWER_HEADER
       /\ (forall j l, (j < k)%nat -> tail !! j = Some l ->
                       strip l <> ANSWER_HEADER)
       /\ tail !! (k + 1)%nat = Some ln /\ is_verdict (strip ln)
       /\ exists head,
            validate_and_trim_strict two_answers
            = head ++ [NL] ++ join [NL] (take (k + 1) tail) ++ [NL] ++ strip ln.
Proof.
  split; [vm_compute; reflexivity|].
  apply (C2_first_answer_header two_answers). vm_compute. discriminate.
Defined.

(** Two answer blocks: the validator keeps the verdict of the first one,
    while the line after the last answer header says [Insecure]. *)
Lemma C2_last_header_counterexample :
  validate_and_trim_strict two_answers = first_answer_only
  /\ CulFullPatched.parse_final_answer (JStr first_answer_only) = SECURE
  /\ CulFullPatched.parse_final_answer (JStr two_answers) = INSECURE
  /\ splitlines two_answers !! 4%nat = Some ANSWER_HEADER
  /\ splitlines two_answers !! 5%nat = Some INSECURE.
Proof. repeat split; vm_compute; reflexivity. Qed.

(** C3, as the code has it.  Content after the verdict line does not make
    the validator reject: whatever lines are appended to a text that the
    validator accepts, the result is the same document, and that document
    ends with the verdict token. *)
Theorem C3_trailing_content_dropped (text x : str) :
  validate_and_trim_strict text <> [] ->
  validate_and_trim_strict (text ++ NL :: x) = validate_and_trim_strict text
  /\ ends_with_verdict (validate_and_trim_strict text).
Proof.
  intros Hne. split; [apply validate_append; exact Hne|].
  destruct (validate_canonical text Hne) as (head & L & w & Hcan & ->).
  exists (head ++ [NL] ++ join [NL] L), w. split.
  - unfold assemble. rewrite <- !app_assoc. reflexivity.
  - exact (can_verdict _ _ _ Hcan).
Qed.

Lemma C3_trailing_content_dropped_witness :
  validate_and_trim_strict first_answer_only = first_answer_only
  /\ first_answer_only ++ NL :: py "Note: see above." = with_trailing_note
  /\ validate_and_trim_strict (first_answer_only ++ NL :: py "Note: see above.")
     = validate_and_trim_strict first_answer_only
  /\ ends_with_verdict (validate_and_trim_strict first_answer_only).
Proof.
  split; [vm_compute; reflexivity|]. split; [vm_compute; reflexivity|].
  apply (C3_trailing_content_dropped first_answer_only (py "Note: see above.")).
  vm_compute. discriminate.
Defined.

(** A verdict line followed by a note: the validator returns the document
    without the note, not the empty string. *)
Lemma C3_not_rejected_counterexample :
  splitlines with_trailing_note !! 3%nat = Some SECURE
  /\ splitlines with_trailing_note !! 4%nat = Some (py "Note: see above.")
  /\ validate_and_trim_strict with_trailing_note = first_answer_only
  /\ first_answer_only <> [].
Proof.
  split; [vm_compute; reflexivity|]. split; [vm_compute; reflexivity|].
  split; [vm_compute; reflexivity|]. vm_compute. discriminate.
Qed.

(** C5, as the code has it.  The coerced document is the template with the
    verdict [Insecure] and, as reasoning, the bullets numbered from one:
    the first five non-blank lines of the input, trimmed, or the single
    placeholder when the input has no non-blank line. *)
Theorem C5_coerce_to_template (raw : str) :
  coerce_to_template raw
  = template (numbered_from_one (bullets_of raw)) INSECURE
  /\ (1 <= length (bullets_of raw) <= 5)%nat
  /\ CulFullPatched.parse_final_answer (JStr (coerce_to_template raw)) = INSECURE
  /\ coerce_to_template (py "garbage")
     = template [py "1. garbage"] INSECURE.
Proof.
  split; [apply coerce_as_template|].
  destruct (bullets_of_facts raw) as (Hne & _ & Hlen).
  split; [split; [destruct (bullets_of raw); [congruence|cbn; lia]|exact Hlen]|].
  split; [apply parse_coerced|]. vm_compute. reflexivity.
Qed.

(** The empty input has no non-blank line, yet the reasoning section is
    not empty: it is the placeholder bullet. *)
Lemma C5_placeholder_counterexample :
  nonblank_lines [] = []
  /\ coerce_to_template []
     = template [py "1. No explicit reasoning found."] INSECURE
  /\ coerce_to_template []
     <> template (numbered_from_one (take 5 (nonblank_lines []))) INSECURE.
Proof.
  split; [reflexivity|]. split; [vm_compute; reflexivity|].
  vm_compute. discriminate.
Qed.

(** C10, as the code has it.  The recorded answer is the validated text
    when there is one and the coerced text otherwise.  A validated answer
    is a fixed point of the validator and ends with a verdict line.  A
    coerced answer ends with the line [Insecure]; it passes the validator
    again when none of its bullets holds the answer header.  In every
    case the downstream parser reads a verdict from the recorded answer. *)
Theorem C10_recorded_answer_well_formed (text : str) :
  (validate_and_trim_strict text <> [] ->
     recorded_answer text = validate_and_trim_strict text
     /\ validate_and_trim_strict (recorded_answer text) = recorded_answer text
     /\ ends_with_verdict (recorded_answer text))
  /\ (validate_and_trim_strict text = [] ->
        recorded_answer text = coerce_to_template text
        /\ (exists pre, recorded_answer text = pre ++ NL :: INSECURE)
        /\ (Forall no_answer_header (bullets_of text) ->
              validate_and_trim_strict (recorded_answer text) <> []
              /\ ends_with_verdict
                   (validate_and_trim_strict (recorded_answer text))))
  /\ is_verdict
       (CulFullPatched.parse_final_answer (JStr (recorded_answer text))).
Proof.
  assert (Hrec_v : validate_and_trim_strict text <> [] ->
                   recorded_answer text = validate_and_trim_strict text).
  { unfold recorded_answer. destruct (validate_and_trim_strict text);
      [congruence|reflexivity]. }
  assert (Hrec_c : validate_and_trim_strict text = [] ->
                   recorded_answer text = coerce_to_template text).
  { unfold recorded_answer. intros ->. reflexivity. }
  split; [|split].
  - intros Hne. rewrite (Hrec_v Hne). split; [reflexivity|].
    destruct (validate_canonical text Hne) as (head & L & w & Hcan & Heq).
    rewrite Heq. split.
    + rewrite <- (app_nil_r (assemble head L w)) at 1.
      rewrite assemble_shape. apply validate_accepts; [exact Hcan|].
      left. reflexivity.
    + exists (head ++ [NL] ++ join [NL] L), w. split.
      * unfold assemble. rewrite <- !app_assoc. reflexivity.
      * exact (can_verdict _ _ _ Hcan).
  - intros Hnil. rewrite (Hrec_c Hnil). split; [reflexivity|].
    rewrite coerce_as_template. split.
    + eexists. unfold template.
      rewrite !app_assoc. rewrite <- (app_assoc _ [NL] INSECURE). reflexivity.
    + intros Hno. rewrite template_shape.
      rewrite validate_accepts;
        [|apply coerced_canonical; exact Hno|left; reflexivity].
      split.
      * unfold assemble. destruct REASONING_HEADER eqn:E; discriminate.
      * eexists _, INSECURE. split; [|right; reflexivity].
        unfold assemble. rewrite !app_assoc.
        rewrite <- (app_assoc _ [NL] INSECURE). reflexivity.
  - destruct (validate_and_trim_strict text) as [|c r] eqn:Hv.
    + rewrite (Hrec_c eq_refl), parse_coerced. right. reflexivity.
    + rewrite Hrec_v by discriminate.
      destruct (validate_canonical text) as (head & L & w & Hcan & Heq);
        [rewrite Hv; discriminate|].
      rewrite Hv in Heq. rewrite Heq, parse_assemble by exact Hcan.
      exact (can_verdict _ _ _ Hcan).
Qed.

Lemma C10_recorded_answer_well_formed_witness :
  validate_and_trim_strict (py "garbage") = []
  /\ Forall no_answer_header (bullets_of (py "garbage"))
  /\ validate_and_trim_strict (recorded_answer (py "garbage")) <> []
  /\ ends_with_verdict
       (validate_and_trim_strict (recorded_answer (py "garbage")))
  /\ validate_and_trim_strict two_answers <> []
  /\ validate_and_trim_strict (recorded_answer two_answers)
     = recorded_answer two_answers.
Proof.
  assert (H1 : validate_and_trim_strict (py "garbage") = [])
    by (vm_compute; reflexivity).
  assert (H2 : Forall no_answer_header (bullets_of (py "garbage")))
    by (repeat constructor).
  assert (H3 : validate_and_trim_strict two_answers <> [])
    by (vm_compute; discriminate).
  split; [exact H1|]. split; [exact H2|].
  pose proof (C10_recorded_answer_well_formed (py "garbage")) as (_ & Hc & _).
  pose proof (C10_recorded_answer_well_formed two_answers) as (Hv & _).
  destruct (Hc H1) as (_ & _ & Hre). destruct (Hre H2) as (Hne & Hend).
  destruct (Hv H3) as (_ & Hfix & _).
  repeat split; assumption.
Defined.

(** A raw output that opens with the answer header and has no reasoning
    header: it is coerced, and the coerced answer, whose first bullet holds
    the answer header, does not pass the validator. *)
Lemma C10_coerced_rejected_counterexample :
  validate_and_trim_strict header_without_reasoning = []
  /\ recorded_answer header_without_reasoning
     = template [py "1. # Answer:"; py "2. foo"] INSECURE
  /\ validate_and_trim_strict (recorded_answer header_without_reasoning) = [].
Proof. repeat split; vm_compute; reflexivity. Qed.

End RunFullPatchedFacts.


(** * Evaluations on concrete inputs *)

Module EvaluationFacts.
Import PyStr Json Regex RunFullPatched EvaluationDefs.

Example validate_empty : validate_and_trim_strict [] = [].
Proof. reflexivity. Qed.

Example validate_garbage :
  validate_and_trim_strict (py "garbage no headers") = [].
Proof. vm_compute. reflexivity. Qed.

(** Leading commentary and the blank line before the answer header are
    dropped. *)
Example validate_documented_example :
  validate_and_trim_strict documented_example
  = join [NL] [py "# Reasoning:"; py "1. strcpy is unbounded.";
               py "# Answer:"; py "Insecure"].
Proof. vm_compute. reflexivity. Qed.

Example validate_missing_verdict :
  validate_and_trim_strict
    (join [NL] [py "# Reasoning:"; py "1. fine"; py "# Answer:"]) = [].
Proof. vm_compute. reflexivity. Qed.

Example validate_other_word :
  validate_and_trim_strict
    (join [NL] [py "# Reasoning:"; py "1. fine"; py "# Answer:"; py "Maybe"])
  = [].
Proof. vm_compute. reflexivity. Qed.

Example coerce_six_lines :
  coerce_to_template
    (join [NL; CR] [py " a "; py "b"; py ""; py "c"; py "d"; py "e"; py "f"])
  = join [NL] [py "# Reasoning:"; py "1. a"; py "2. b"; py "3. c"; py "4. d";
               py "5. e"; py ""; py "# Answer:"; py "Insecure"].
Proof. vm_compute. reflexivity. Qed.

Example extract_fenced_block :
  NPatch.extract_code_block_from_model
    (py "Here you go: ```C" ++ [NL] ++ py "int x;" ++ [NL] ++ py "``` done")
  = Some (py "int x;").
Proof. vm_compute. reflexivity. Qed.

Example extract_no_block :
  NPatch.extract_code_block_from_model (py "int x;") = None.
Proof. vm_compute. reflexivity. Qed.

Example extract_unclosed_block :
  NPatch.extract_code_block_from_model (py "```c int x;") = None.
Proof. vm_compute. reflexivity. Qed.

Example parse_patch_without_fence :
  FullPatch._parse_patch_response (JStr (py "  int x;  ")) = py "int x;".
Proof. vm_compute. reflexivity. Qed.

Example is_secure_crlf :
  CulNPatched.is_secure_answer
    (JStr (py "# Answer:" ++ [CR; NL] ++ py " Secure " ++ [CR; NL])) = true.
Proof. vm_compute. reflexivity. Qed.

Example is_secure_not_a_string : CulNPatched.is_secure_answer JNull = false.
Proof. reflexivity. Qed.

(** An index that cannot be hashed stops the coverage script. *)
Example coverage_unhashable_index :
  CulNPatched.process_model_dir [Some [JDict [(py "index", JList [])]]]
  = Raise TypeError.
Proof. reflexivity. Qed.

(** The keys [1] and [True] are one index. *)
Example coverage_bool_and_int :
  CulNPatched.process_model_dir
    [Some [JDict [(py "index", JInt 1)]; JDict [(py "index", JBool true)]]]
  = Ok {| Aggregate.num := 1; Aggregate.a := 0; Aggregate.pct := Aggregate.float_0 |}.
Proof. vm_compute. reflexivity. Qed.

End EvaluationFacts.

(** * More on trimming and searching *)

Module TrimFacts.
Import PyStr PyStrDefs PyStrFacts.

Lemma lstrip_decompose s : exists ws, s = ws ++ lstrip s /\ all_space ws = true.
Proof.
  induction s as [|c s (ws & Heq & Hws)]; [exists []; auto|].
  cbn [lstrip]. destruct (isspace c) eqn:Hc.
  - exists (c :: ws). split; [cbn [app]; f_equal; exact Heq|].
    cbn [all_space forallb]. rewrite Hc. exact Hws.
  - exists []. auto.
Qed.

Lemma lstrip_app_spaces ws x : all_space ws = true -> lstrip (ws ++ x) = lstrip x.
Proof.
  induction ws as [|c ws IH]; [reflexivity|].
  intros H. apply andb_true_iff in H as [Hc Hs]. cbn [app lstrip].
  rewrite Hc. auto.
Qed.

(** A string is its trimmed content between two runs of spaces. *)
Lemma strip_decompose s :
  exists W T, s = W ++ strip s ++ T /\ all_space W = true /\ all_space T = true.
Proof.
  destruct (lstrip_decompose s) as (W & HW & HWs).
  destruct (rstrip_decompose (lstrip s)) as (T & HT & HTs).
  exists W, T. unfold strip. rewrite <- HT. auto.
Qed.

Lemma rstrip_cons_nonspace c s :
  isspace c = false -> exists y, rstrip (c :: s) = c :: y.
Proof.
  intros Hc.
  destruct (rstrip_prefix [c] s) as (y & Hy); [exists [], c; auto|].
  exists y. exact Hy.
Qed.

Lemma strip_nil_or_starts s : strip s = [] \/ starts_nonspace (strip s).
Proof.
  unfold strip. destruct (lstrip_nil_or_starts s) as [->|(c & s' & -> & Hc)].
  - left. reflexivity.
  - right. destruct (rstrip_cons_nonspace c s' Hc) as (y & ->).
    exists c, y. auto.
Qed.

Lemma strip_idem s : strip (strip s) = strip s.
Proof.
  destruct (strip_nil_or_starts s) as [->|Hs]; [reflexivity|].
  destruct (strip_nil_or_ends s) as [->|He]; [reflexivity|].
  apply strip_fixed; assumption.
Qed.

Lemma strip_spaces_around W x T :
  all_space W = true -> all_space T = true -> strip (W ++ x ++ T) = strip x.
Proof.
  intros HW HT. unfold strip. rewrite lstrip_app_spaces by exact HW.
  destruct (lstrip_decompose x) as (ws & Hx & Hws).
  destruct (lstrip_nil_or_starts x) as [Hnil|(c & s' & Hl & Hc)].
  - rewrite Hnil. rewrite Hx, Hnil, app_nil_r.
    rewrite lstrip_all_space; [reflexivity|].
    unfold all_space in *. rewrite forallb_app, Hws, HT. reflexivity.
  - rewrite lstrip_app_nonempty by (rewrite Hl; discriminate).
    apply rstrip_app_spaces. exact HT.
Qed.

Lemma strip_all_space s : all_space s = true -> strip s = [].
Proof. intros H. unfold strip. rewrite lstrip_all_space by exact H. reflexivity. Qed.

Lemma strip_nil_all_space s : strip s = [] -> all_space s = true.
Proof.
  intros H. destruct (strip_decompose s) as (W & T & Hs & HW & HT).
  rewrite Hs, H. unfold all_space in *. rewrite forallb_app, HW. exact HT.
Qed.

(** ** Occurrences *)

Lemma find_None_suffix a b sub : find (a ++ b) sub = None -> find b sub = None.
Proof.
  induction a as [|c a IH]; [auto|].
  rewrite <- app_comm_cons, find_cons.
  destruct (startswith _ _); [discriminate|].
  destruct (find (a ++ b) sub); [discriminate|]. auto.
Qed.

Lemma find_None_middle a s b sub : find (a ++ s ++ b) sub = None -> find s sub = None.
Proof.
  intros H. apply find_None_suffix in H. apply find_None_prefix in H. exact H.
Qed.

Lemma find_strip_None s sub : find s sub = None -> find (strip s) sub = None.
Proof.
  destruct (strip_decompose s) as (W & T & Hs & _).
  rewrite Hs at 1. apply find_None_middle.
Qed.

Lemma find_drop_None s i sub : find s sub = None -> find (drop i s) sub = None.
Proof. rewrite <- (take_drop i s) at 1. apply find_None_suffix. Qed.

(** A pattern whose first character does not occur again in it cannot
    overlap an occurrence of itself. *)
Lemma startswith_before (c : char) a z p :
  c ∉ p -> startswith (a ++ c :: z) p = true -> startswith a p = true.
Proof. intros Hc. rewrite startswith_across by exact Hc. auto. Qed.

Lemma find_first_occurrence (c : char) p a y :
  c ∉ p -> find a (c :: p) = None ->
  find (a ++ (c :: p) ++ y) (c :: p) = Some (length a).
Proof.
  intros Hc. induction a as [|d a IH]; intros Hnone.
  - cbn [app length]. rewrite find_cons.
    change (c :: p ++ y) with ((c :: p) ++ y). rewrite startswith_self.
    reflexivity.
  - rewrite find_cons in Hnone.
    destruct (startswith (d :: a) (c :: p)) eqn:E; [discriminate|].
    destruct (find a (c :: p)) eqn:Ha; [discriminate|].
    rewrite <- app_comm_cons, find_cons.
    replace (startswith (d :: a ++ (c :: p) ++ y) (c :: p)) with false.
    + rewrite IH by reflexivity. reflexivity.
    + symmetry. apply not_true_is_false. intros Hs.
      cbn [startswith] in Hs, E. apply andb_true_iff in Hs as (Hd & Hs).
      rewrite Hd in E. cbn [andb] in E. cbn [app] in Hs.
      apply startswith_before in Hs; [congruence|exact Hc].
Qed.

End TrimFacts.

(** * The regular expressions on fenced blocks *)

Module RegexFacts.
Import PyStr PyStrDefs PyStrFacts TrimFacts Regex RegexDefs.

(** ** One step of the matcher *)

Lemma match_chr p re c s pos gs ge :
  match_here (Chr p :: re) (c :: s) pos gs ge
  = if p c then match_here re s (S pos) gs ge else None.
Proof. reflexivity. Qed.

Lemma match_chr_nil p re pos gs ge : match_here (Chr p :: re) [] pos gs ge = None.
Proof. reflexivity. Qed.

Lemma match_group_open re s pos gs ge :
  match_here (GroupOpen :: re) s pos gs ge = match_here re s pos pos ge.
Proof. reflexivity. Qed.

Lemma match_group_close re s pos gs ge :
  match_here (GroupClose :: re) s pos gs ge = match_here re s pos gs pos.
Proof. reflexivity. Qed.

Lemma lazy_unfold p re s pos gs ge :
  match_here (StarLazy p :: re) s pos gs ge
  = match match_here re s pos gs ge with
    | Some r => Some r
    | None =>
        match s with
        | c :: s' =>
            if p c then match_here (StarLazy p :: re) s' (S pos) gs ge else None
        | [] => None
        end
    end.
Proof. destruct s; reflexivity. Qed.

Lemma greedy_unfold p re s pos gs ge :
  match_here (StarGreedy p :: re) s pos gs ge
  = match s with
    | c :: s' =>
        if p c then
          match match_here (StarGreedy p :: re) s' (S pos) gs ge with
          | Some r => Some r
          | None => match_here re s pos gs ge
          end
        else match_here re s pos gs ge
    | [] => match_here re s pos gs ge
    end.
Proof. destruct s; reflexivity. Qed.

Lemma match_fence re s pos gs ge :
  match_here (fence ++ re) (FENCE ++ s) pos gs ge
  = match_here re s (3 + pos) gs ge.
Proof. reflexivity. Qed.

Lemma match_fence_fail re c s pos gs ge :
  backtick c = false -> match_here (fence ++ re) (c :: s) pos gs ge = None.
Proof. intros H. unfold fence. cbn [app]. rewrite match_chr, H. reflexivity. Qed.

Lemma match_fence_nil re pos gs ge : match_here (fence ++ re) [] pos gs ge = None.
Proof. reflexivity. Qed.

Lemma space_not_backtick c : isspace c = true -> backtick c = false.
Proof.
  unfold backtick. destruct (c =? 96) eqn:E; [|reflexivity].
  apply N.eqb_eq in E. subst c. discriminate.
Qed.

Lemma all_space_Forall s : all_space s = true <-> Forall (fun c => isspace c = true) s.
Proof.
  unfold all_space. rewrite forallb_forall, Forall_forall.
  split; intros H c Hc; apply H; apply list_elem_of_In; exact Hc.
Qed.

(** ** The lazy star *)

(** The lazy group stops at the first offset where the rest of the
    pattern matches. *)
Lemma lazy_skip re a : forall b pos gs ge,
  (forall j, (j < length a)%nat ->
     match_here re (drop j (a ++ b)) (pos + j) gs ge = None) ->
  match_here (StarLazy any_char :: re) (a ++ b) pos gs ge
  = match_here (StarLazy any_char :: re) b (pos + length a) gs ge.
Proof.
  induction a as [|c a IH]; intros b pos gs ge H.
  - cbn [app length]. rewrite Nat.add_0_r. reflexivity.
  - rewrite lazy_unfold. pose proof (H 0%nat ltac:(cbn; lia)) as H0.
    rewrite drop_0, Nat.add_0_r in H0. rewrite H0.
    cbn [app any_char]. rewrite IH.
    + cbn [length]. f_equal. lia.
    + intros j Hj. specialize (H (S j) ltac:(cbn; lia)).
      change (drop (S j) ((c :: a) ++ b)) with (drop j (a ++ b)) in H.
      rewrite <- H. f_equal. lia.
Qed.

Lemma lazy_stop p re s pos gs ge r :
  match_here re s pos gs ge = Some r ->
  match_here (StarLazy p :: re) s pos gs ge = Some r.
Proof. intros H. rewrite lazy_unfold, H. reflexivity. Qed.

(** ** The greedy star *)

Lemma greedy_keep_run p re R : forall s pos gs ge r,
  Forall (fun c => p c = true) R ->
  match_here (StarGreedy p :: re) s (pos + length R) gs ge = Some r ->
  match_here (StarGreedy p :: re) (R ++ s) pos gs ge = Some r.
Proof.
  induction R as [|c R IH]; intros s pos gs ge r HR H.
  - cbn [app length] in *. rewrite Nat.add_0_r in H. exact H.
  - apply Forall_cons in HR as (Hc & HR). cbn [app]. rewrite greedy_unfold, Hc.
    rewrite (IH s (S pos) gs ge r HR); [reflexivity|].
    rewrite <- H. f_equal. cbn [length]. lia.
Qed.

Lemma greedy_stop p re s pos gs ge :
  match s with c :: _ => p c = false | [] => True end ->
  match_here (StarGreedy p :: re) s pos gs ge = match_here re s pos gs ge.
Proof.
  intros H. rewrite greedy_unfold. destruct s as [|c s]; [reflexivity|].
  rewrite H. reflexivity.
Qed.

(** The star fails when the rest of the pattern fails after every prefix
    of the run. *)
Lemma greedy_none_run p re R : forall s pos gs ge,
  Forall (fun c => p c = true) R ->
  match s with c :: _ => p c = false | [] => True end ->
  (forall j, (j <= length R)%nat ->
     match_here re (drop j (R ++ s)) (pos + j) gs ge = None) ->
  match_here (StarGreedy p :: re) (R ++ s) pos gs ge = None.
Proof.
  induction R as [|c R IH]; intros s pos gs ge HR Hs H.
  - cbn [app]. rewrite greedy_stop by exact Hs.
    specialize (H 0%nat ltac:(cbn; lia)).
    rewrite drop_0, Nat.add_0_r in H. exact H.
  - apply Forall_cons in HR as (Hc & HR). cbn [app]. rewrite greedy_unfold, Hc.
    rewrite IH; [| exact HR | exact Hs |].
    + specialize (H 0%nat ltac:(cbn; lia)).
      rewrite drop_0, Nat.add_0_r in H. exact H.
    + intros j Hj. specialize (H (S j) ltac:(cbn; lia)).
      change (drop (S j) ((c :: R) ++ s)) with (drop j (R ++ s)) in H.
      rewrite <- H. f_equal. lia.
Qed.

(** ** Searching *)

Lemma search_hit re s pos r :
  match_here re s pos 0%nat 0%nat = Some r -> search_from re s pos = Some r.
Proof. intros H. destruct s; cbn [search_from]; rewrite H; reflexivity. Qed.

(** No match starts before the first backtick. *)
Lemma search_skip re pre : forall s pos,
  no_backtick pre ->
  search_from (fence ++ re) (pre ++ s) pos
  = search_from (fence ++ re) s (pos + length pre).
Proof.
  induction pre as [|c pre IH]; intros s pos Hpre.
  - cbn [app length]. rewrite Nat.add_0_r. reflexivity.
  - apply Forall_cons in Hpre as (Hc & Hpre). cbn [app search_from].
    rewrite match_fence_fail by exact Hc. rewrite IH by exact Hpre.
    f_equal. cbn [length]. lia.
Qed.

Lemma search_no_backtick re s pos :
  no_backtick s -> search_from (fence ++ re) s pos = None.
Proof.
  intros H. rewrite <- (app_nil_r s), search_skip by exact H. reflexivity.
Qed.

Lemma group_of_bounds (A g B : str) :
  take (length A + length g - length A) (drop (length A) (A ++ g ++ B)) = g.
Proof.
  rewrite drop_app_length.
  replace (length A + length g - length A)%nat with (length g) by lia.
  apply take_app_length.
Qed.

Lemma group_between (A g B : str) gs ge :
  gs = length A -> ge = (gs + length g)%nat ->
  take (ge - gs) (drop gs (A ++ g ++ B)) = g.
Proof. intros -> ->. apply group_of_bounds. Qed.

(** The character at an offset inside the first part of a text. *)
Lemma drop_inside (a b : str) j :
  (j < length a)%nat ->
  exists c, c ∈ a /\ drop j (a ++ b) = c :: drop (S j) (a ++ b).
Proof.
  intros Hj. destruct (lookup_lt_is_Some_2 a j Hj) as (c & Hc).
  exists c. split; [eapply list_elem_of_lookup_2; exact Hc|].
  apply drop_S. rewrite lookup_app_l by exact Hj. exact Hc.
Qed.

Lemma drop_upto (P : char -> Prop) (a : str) d z j :
  Forall P a -> P d -> (j <= length a)%nat ->
  exists c tl, drop j (a ++ d :: z) = c :: tl /\ P c.
Proof.
  intros Ha Hd Hj. destruct (decide (j < length a)%nat) as [Hlt|Hge].
  - destruct (drop_inside a (d :: z) j Hlt) as (c & Hc & ->).
    rewrite Forall_forall in Ha. eauto.
  - replace j with (length a) by lia. rewrite drop_app_length. eauto.
Qed.

(** The last occurrence of a character. *)
Lemma split_at_last (c : char) (l : str) :
  c ∈ l -> exists l1 l2, l = l1 ++ c :: l2 /\ c ∉ l2.
Proof.
  induction l as [|d l IH]; intros Hin; [inversion Hin|].
  destruct (decide (c ∈ l)) as [Hl|Hl].
  - destruct (IH Hl) as (l1 & l2 & -> & Hl2). exists (d :: l1), l2. auto.
  - apply elem_of_cons in Hin as [->|Hin]; [|contradiction].
    exists [], l. auto.
Qed.

(** ** The three patterns, unfolded *)

Lemma RE_FENCED_C_eq :
  RE_FENCED_C
  = fence ++ Chr letter_c :: GroupOpen :: StarLazy any_char :: GroupClose
             :: fence ++ [].
Proof. reflexivity. Qed.

Lemma RE_FENCED_C_TRIMMED_eq :
  RE_FENCED_C_TRIMMED
  = fence ++ Chr letter_c :: StarGreedy isspace :: GroupOpen
             :: StarLazy any_char :: GroupClose :: StarGreedy isspace
             :: fence ++ [].
Proof. reflexivity. Qed.

Lemma RE_FENCED_C_LINES_eq :
  RE_FENCED_C_LINES
  = fence ++ Chr letter_c :: StarGreedy isspace :: Chr newline :: GroupOpen
             :: StarLazy any_char :: GroupClose :: Chr newline
             :: fence ++ [].
Proof. reflexivity. Qed.

(** ** [```c(.*?)```] on a block without backticks *)

Lemma match_fenced_c l body post pos :
  letter_c l = true -> no_backtick body ->
  match_here RE_FENCED_C (FENCE ++ l :: body ++ FENCE ++ post) pos 0%nat 0%nat
  = Some ((4 + pos)%nat, (4 + pos + length body)%nat).
Proof.
  intros Hl Hbody. rewrite RE_FENCED_C_eq, match_fence, match_chr, Hl.
  rewrite match_group_open, lazy_skip.
  - apply lazy_stop. rewrite match_group_close, match_fence. reflexivity.
  - intros j Hj.
    destruct (drop_inside body (FENCE ++ post) j Hj) as (c & Hc & ->).
    rewrite match_group_close. apply match_fence_fail.
    unfold no_backtick in Hbody. rewrite Forall_forall in Hbody. auto.
Qed.

(** The group of the first fenced block, for a text that has no backtick
    before the block nor inside it. *)
Lemma search_fenced_c pre l body post :
  no_backtick pre -> letter_c l = true -> no_backtick body ->
  search_group1 RE_FENCED_C (pre ++ FENCE ++ l :: body ++ FENCE ++ post)
  = Some body.
Proof.
  intros Hpre Hl Hbody. unfold search_group1.
  rewrite RE_FENCED_C_eq, search_skip by exact Hpre.
  rewrite <- RE_FENCED_C_eq.
  rewrite (search_hit _ _ _ _ (match_fenced_c l body post _ Hl Hbody)).
  f_equal.
  replace (pre ++ FENCE ++ l :: body ++ FENCE ++ post)
    with ((pre ++ FENCE ++ [l]) ++ body ++ (FENCE ++ post))
    by (rewrite <- !app_assoc; reflexivity).
  apply group_between.
  - rewrite !length_app. cbn [length FENCE]. lia.
  - lia.
Qed.

Lemma search_fenced_c_none s :
  no_backtick s -> search_group1 RE_FENCED_C s = None.
Proof.
  intros H. unfold search_group1.
  rewrite RE_FENCED_C_eq, search_no_backtick by exact H. reflexivity.
Qed.

(** ** [```c\s*(.*?)\s*```] *)

(** After a non-space character that is not a backtick, spaces and a
    fence cannot match. *)
Lemma spaces_fence_fail (s b : str) pos gs ge :
  ends_nonspace s -> no_backtick s ->
  match_here (GroupClose :: StarGreedy isspace :: fence ++ []) (s ++ b) pos gs ge
  = None.
Proof.
  intros Hends Hnb. rewrite match_group_close.
  destruct (lstrip_decompose s) as (ws & Hs & Hws).
  destruct (lstrip_nil_or_starts s) as [Hnil|(c & s' & Hl & Hc)].
  { exfalso. rewrite Hnil, app_nil_r in Hs. subst s.
    destruct Hends as (s' & c & -> & Hc).
    unfold all_space in Hws. rewrite forallb_app in Hws. cbn in Hws.
    rewrite Hc, andb_false_r in Hws. discriminate. }
  assert (Hcb : backtick c = false).
  { unfold no_backtick in Hnb. rewrite Forall_forall in Hnb. apply Hnb.
    rewrite Hs, Hl. apply elem_of_app. right. left. }
  rewrite Hs, Hl, <- app_assoc. cbn [app].
  apply all_space_Forall in Hws.
  apply greedy_none_run; [exact Hws|exact Hc|].
  intros j Hj.
  destruct (drop_upto (fun d => backtick d = false) ws c (s' ++ b) j)
    as (d & tl & -> & Hd); [|exact Hcb|exact Hj|].
  - eapply Forall_impl; [exact Hws|]. intros x Hx. apply space_not_backtick, Hx.
  - apply match_fence_fail. exact Hd.
Qed.

Lemma match_fenced_trimmed l W core T post pos :
  letter_c l = true -> all_space W = true -> all_space T = true ->
  no_backtick core ->
  (core = [] /\ T = [] \/ starts_nonspace core /\ ends_nonspace core) ->
  match_here RE_FENCED_C_TRIMMED
    (FENCE ++ l :: W ++ core ++ T ++ FENCE ++ post) pos 0%nat 0%nat
  = Some ((4 + pos + length W)%nat, (4 + pos + length W + length core)%nat).
Proof.
  intros Hl HW HT Hnb Hcore.
  rewrite RE_FENCED_C_TRIMMED_eq, match_fence, match_chr, Hl.
  apply all_space_Forall in HW, HT.
  apply greedy_keep_run; [exact HW|].
  rewrite greedy_stop.
  2:{ destruct Hcore as [(-> & ->)|((c & s' & -> & Hc) & _)];
        [reflexivity|exact Hc]. }
  rewrite match_group_open, lazy_skip.
  - apply lazy_stop. rewrite match_group_close.
    apply greedy_keep_run; [exact HT|].
    rewrite greedy_stop by reflexivity. rewrite match_fence. cbn [match_here].
    f_equal; f_equal; lia.
  - intros j Hj. destruct Hcore as [(-> & _)|(_ & Hends)]; [cbn in Hj; lia|].
    rewrite drop_app_le by lia.
    apply spaces_fence_fail.
    + apply ends_nonspace_drop; assumption.
    + apply Forall_drop. exact Hnb.
Qed.

(** The group of the first fenced block is its body without the spaces
    around it, for a text that has no backtick before the block nor
    inside it. *)
Lemma search_fenced_trimmed pre l body post :
  no_backtick pre -> letter_c l = true -> no_backtick body ->
  search_group1 RE_FENCED_C_TRIMMED (pre ++ FENCE ++ l :: body ++ FENCE ++ post)
  = Some (strip body).
Proof.
  intros Hpre Hl Hbody. unfold search_group1.
  rewrite RE_FENCED_C_TRIMMED_eq, search_skip by exact Hpre.
  rewrite <- RE_FENCED_C_TRIMMED_eq.
  assert (Hdec : exists W T,
            body = W ++ strip body ++ T
            /\ all_space W = true /\ all_space T = true
            /\ (strip body = [] /\ T = []
                \/ starts_nonspace (strip body) /\ ends_nonspace (strip body))).
  { destruct (strip_nil_or_starts body) as [Hnil|Hs].
    - exists body, []. rewrite Hnil, app_nil_r.
      split; [reflexivity|]. split; [apply strip_nil_all_space; exact Hnil|].
      split; [reflexivity|]. left. auto.
    - destruct (strip_decompose body) as (W & T & Hb & HW & HT).
      exists W, T. split; [exact Hb|]. split; [exact HW|]. split; [exact HT|].
      right. split; [exact Hs|].
      destruct (strip_nil_or_ends body) as [Hnil|He]; [|exact He].
      rewrite Hnil in Hs. destruct Hs as (c & s' & Hs & _). discriminate. }
  destruct Hdec as (W & T & Hb & HW & HT & Hcore).
  assert (Hnbc : no_backtick (strip body)).
  { unfold no_backtick in *. rewrite Hb in Hbody.
    apply Forall_app in Hbody as (_ & Hbody).
    apply Forall_app in Hbody as (Hbody & _). exact Hbody. }
  set (core := strip body) in *.
  rewrite Hb, <- !app_assoc.
  rewrite (search_hit _ _ _ _
             (match_fenced_trimmed l W core T post _ Hl HW HT Hnbc Hcore)).
  f_equal.
  replace (pre ++ FENCE ++ l :: W ++ core ++ T ++ FENCE ++ post)
    with ((pre ++ FENCE ++ l :: W) ++ core ++ (T ++ FENCE ++ post))
    by (rewrite <- !app_assoc; reflexivity).
  apply group_between.
  - rewrite !length_app. cbn [length FENCE]. rewrite ?length_app. cbn [length]. lia.
  - lia.
Qed.

Lemma search_fenced_trimmed_none s :
  no_backtick s -> search_group1 RE_FENCED_C_TRIMMED s = None.
Proof.
  intros H. unfold search_group1.
  rewrite RE_FENCED_C_TRIMMED_eq, search_no_backtick by exact H. reflexivity.
Qed.

(** ** [```c\s*\n(.*?)\n```] *)

Lemma newline_space c : newline c = true -> isspace c = true.
Proof. unfold newline. intros H. apply N.eqb_eq in H. subst c. reflexivity. Qed.

Lemma match_fenced_lines l R1 R2 c0 rest post pos :
  letter_c l = true -> all_space R1 = true -> all_space R2 = true ->
  NL ∉ R2 -> isspace c0 = false -> no_backtick (c0 :: rest) ->
  match_here RE_FENCED_C_LINES
    (FENCE ++ l :: R1 ++ NL :: R2 ++ (c0 :: rest) ++ NL :: FENCE ++ post)
    pos 0%nat 0%nat
  = Some ((5 + pos + length R1)%nat,
          (5 + pos + length R1 + length (R2 ++ c0 :: rest))%nat).
Proof.
  intros Hl HR1 HR2 Hnl Hc0 Hnb.
  rewrite RE_FENCED_C_LINES_eq, match_fence, match_chr, Hl.
  apply all_space_Forall in HR1. pose proof HR2 as HR2'.
  apply all_space_Forall in HR2.
  assert (Hc0nl : newline c0 = false).
  { destruct (newline c0) eqn:E; [|reflexivity].
    apply newline_space in E. congruence. }
  apply greedy_keep_run; [exact HR1|].
  rewrite greedy_unfold. change (isspace NL) with true. cbv iota.
  rewrite greedy_none_run; [|exact HR2|exact Hc0|].
  2:{ intros j Hj.
      destruct (drop_upto (fun d => newline d = false) R2 c0
                  (rest ++ NL :: FENCE ++ post) j)
        as (d & tl & Hd & Hdn); [|exact Hc0nl|exact Hj|].
      - rewrite Forall_forall. intros x Hx. unfold newline.
        apply N.eqb_neq. intros ->. contradiction.
      - cbn [app] in Hd |- *. rewrite Hd, match_chr, Hdn. reflexivity. }
  rewrite match_chr. change (newline NL) with true. cbv iota.
  rewrite match_group_open.
  replace (R2 ++ (c0 :: rest) ++ NL :: FENCE ++ post)
    with ((R2 ++ c0 :: rest) ++ NL :: FENCE ++ post)
    by (rewrite <- app_assoc; reflexivity).
  assert (Hnb2 : no_backtick (R2 ++ c0 :: rest)).
  { apply Forall_app. split; [|exact Hnb].
    eapply Forall_impl; [exact HR2|]. intros x Hx. apply space_not_backtick, Hx. }
  rewrite lazy_skip.
  - apply lazy_stop. rewrite match_group_close, match_chr.
    change (newline NL) with true. cbv iota. rewrite match_fence.
    cbn [match_here]. f_equal; f_equal; lia.
  - intros j Hj. rewrite match_group_close.
    destruct (drop_inside (R2 ++ c0 :: rest) (NL :: FENCE ++ post) j Hj)
      as (d & _ & ->).
    rewrite match_chr. destruct (newline d); [|reflexivity].
    destruct (drop_upto (fun d => backtick d = false) (R2 ++ c0 :: rest) NL
                (FENCE ++ post) (S j))
      as (e & tl & -> & He); [exact Hnb2|reflexivity|lia|].
    apply match_fence_fail. exact He.
Qed.

(** The block that [wrap_c_code_block] builds around a code without
    backticks: the group is the code from its first non-blank line on. *)
Lemma search_fenced_lines l code post :
  letter_c l = true -> no_backtick code -> lstrip code <> [] ->
  exists g,
    search_group1 RE_FENCED_C_LINES
      (FENCE ++ l :: NL :: code ++ NL :: FENCE ++ post) = Some g
    /\ strip g = strip code.
Proof.
  intros Hl Hnb Hne.
  destruct (lstrip_decompose code) as (W & Hcode & HW).
  destruct (lstrip_nil_or_starts code) as [Hnil|(c0 & rest & Hrest & Hc0)];
    [congruence|].
  assert (Hin : NL ∈ NL :: W) by left.
  apply split_at_last in Hin as (R1 & R2 & Hsplit & Hnl).
  assert (Hsp : all_space (NL :: W) = true) by (cbn; exact HW).
  rewrite Hsplit in Hsp. unfold all_space in Hsp.
  rewrite forallb_app in Hsp. apply andb_true_iff in Hsp as (HR1 & HR2).
  cbn [forallb] in HR2. change (isspace NL) with true in HR2. cbn [andb] in HR2.
  assert (Hnbr : no_backtick (c0 :: rest)).
  { rewrite <- Hrest. unfold no_backtick in *. rewrite Hcode in Hnb.
    apply Forall_app in Hnb as (_ & Hnb). exact Hnb. }
  exists (R2 ++ c0 :: rest). split.
  - assert (Htext : FENCE ++ l :: NL :: code ++ NL :: FENCE ++ post
              = FENCE ++ l :: R1 ++ NL :: R2 ++ (c0 :: rest) ++ NL :: FENCE ++ post).
    { rewrite Hcode, Hrest.
      change (NL :: (W ++ c0 :: rest) ++ NL :: FENCE ++ post)
        with (((NL :: W) ++ c0 :: rest) ++ NL :: FENCE ++ post).
      rewrite Hsplit, <- !app_assoc. reflexivity. }
    rewrite Htext. unfold search_group1.
    rewrite (search_hit _ _ _ _
               (match_fenced_lines l R1 R2 c0 rest post _ Hl HR1 HR2 Hnl Hc0 Hnbr)).
    f_equal.
    replace (FENCE ++ l :: R1 ++ NL :: R2 ++ (c0 :: rest) ++ NL :: FENCE ++ post)
      with ((FENCE ++ l :: R1 ++ [NL]) ++ (R2 ++ c0 :: rest)
            ++ (NL :: FENCE ++ post))
      by (repeat (progress (rewrite <- ?app_assoc; cbn [app])); reflexivity).
    apply group_between.
    + cbn [length FENCE app]. rewrite length_app. cbn [length]. lia.
    + lia.
  - assert (Hcode' : code = W ++ c0 :: rest) by (rewrite <- Hrest; exact Hcode).
    rewrite Hcode'.
    rewrite <- (app_nil_r (R2 ++ c0 :: rest)), <- app_assoc.
    rewrite (strip_spaces_around R2 (c0 :: rest) []) by auto.
    rewrite <- (app_nil_r (W ++ c0 :: rest)), <- app_assoc.
    rewrite (strip_spaces_around W (c0 :: rest) []) by auto.
    reflexivity.
Qed.

End RegexFacts.

(** * More on the two aggregations *)

Module StatsFacts.
Import PyStr PyStrDefs PyStrFacts Json Aggregate FloatDefs FloatFacts.
Import AggregateDefs AggregateFacts StatsDefs.

(** ** The percentage *)

Lemma make_stats_bounds (n k : Z) :
  (0 <= k <= n)%Z ->
  exists st, make_stats n k = Ok st
    /\ num st = n /\ a st = k
    /\ is_finite (pct st) = true
    /\ (0 <= float_value (pct st) <= 100)%Q.
Proof.
  intros Hk. rewrite make_stats_ok by lia. eexists. split; [reflexivity|].
  cbn [num a pct]. split; [reflexivity|]. split; [reflexivity|].
  destruct (n =? 0)%Z eqn:E.
  - split; [reflexivity|]. split; discriminate.
  - apply percentage_bounds; lia.
Qed.

Lemma ratio_as_make_stats files :
  CulFullPatched.process_model_dir files
  = make_stats (Z.of_nat (length (loaded files)))
               (count_of has_insecure_verdict (loaded files)).
Proof.
  unfold CulFullPatched.process_model_dir. rewrite ratio_loop_spec. reflexivity.
Qed.

Lemma count_of_perm p l l' : l ≡ₚ l' -> count_of p l = count_of p l'.
Proof. intros H. unfold count_of. rewrite H. reflexivity. Qed.

(** ** Coverage: the two counts *)

Import CulNPatched.

Lemma elem_of_keys_of recs k :
  k ∈ keys_of recs <-> existsb (has_key k) recs = true.
Proof.
  unfold keys_of. rewrite elem_of_list_to_set, list_elem_of_omap, existsb_exists.
  split.
  - intros (r & Hin & Hk). exists r. split; [apply list_elem_of_In; exact Hin|].
    unfold has_key. apply bool_decide_eq_true_2. exact Hk.
  - intros (r & Hin & Hk). exists r. split; [apply list_elem_of_In; exact Hin|].
    unfold has_key in Hk. apply bool_decide_eq_true_1 in Hk. exact Hk.
Qed.

Lemma elem_of_covered_keys recs k :
  k ∈ covered_keys recs
  <-> existsb (fun r => has_key k r && record_secure r) recs = true.
Proof.
  unfold covered_keys.
  rewrite elem_of_list_to_set, list_elem_of_omap, existsb_exists.
  split.
  - intros (r & Hin & Hk). apply list_elem_of_filter in Hin as (Hs & Hin).
    exists r. split; [apply list_elem_of_In; exact Hin|].
    rewrite Hs, andb_true_r. unfold has_key. apply bool_decide_eq_true_2.
    exact Hk.
  - intros (r & Hin & Hk). apply andb_true_iff in Hk as (Hk & Hs).
    exists r. split.
    + apply list_elem_of_filter. split; [exact Hs|apply list_elem_of_In; exact Hin].
    + unfold has_key in Hk. apply bool_decide_eq_true_1 in Hk. exact Hk.
Qed.

Lemma covered_subseteq recs : covered_keys recs ⊆ keys_of recs.
Proof.
  intros k. rewrite elem_of_covered_keys, elem_of_keys_of, !existsb_exists.
  intros (r & Hin & Hk). apply andb_true_iff in Hk as (Hk & _). eauto.
Qed.

Lemma count_true_size (m : gmap pykey bool) :
  count_true m = Z.of_nat (size (filter (fun kv => kv.2 = true) m)).
Proof.
  unfold count_true. f_equal.
  rewrite map_filter_alt, <- length_map_to_list.
  symmetry. apply Permutation_length, map_to_list_to_map.
  apply NoDup_fmap_fst.
  - intros k v1 v2 H1 H2.
    apply list_elem_of_filter in H1 as (_ & H1).
    apply list_elem_of_filter in H2 as (_ & H2).
    apply elem_of_map_to_list in H1, H2. congruence.
  - apply NoDup_filter, NoDup_map_to_list.
Qed.

(** The collections after a run that completes, from the records read. *)
Lemma coverage_collections recs st :
  merge_array empty_coverage recs = Ok st ->
  all_indices st = keys_of recs
  /\ dom (filter (fun kv : pykey * bool => kv.2 = true) (index_has_secure st))
     = covered_keys recs.
Proof.
  intros Hst.
  assert (Hu : existsb unhashable recs = false).
  { destruct (existsb unhashable recs) eqn:E; [|reflexivity].
    rewrite merge_array_raise in Hst by exact E. discriminate. }
  destruct (merge_array_ok recs empty_coverage Hu) as (st' & Hst' & Hinv & Hflag).
  rewrite Hst in Hst'. injection Hst' as <-.
  assert (Hlook : forall k, index_has_secure st !! k = flag_of recs k).
  { intros k. rewrite Hflag. cbn. rewrite lookup_empty. apply merged_flag_empty. }
  split.
  - rewrite <- Hinv by (unfold coverage_inv; cbn; apply dom_empty_L).
    apply set_eq. intros k. rewrite elem_of_dom, Hlook, elem_of_keys_of.
    unfold flag_of. destruct (existsb (has_key k) recs).
    + split; [reflexivity|]. intros _. eexists. reflexivity.
    + split; [intros [? ?]; discriminate|discriminate].
  - apply set_eq. intros k.
    rewrite elem_of_dom, elem_of_covered_keys. unfold is_Some.
    setoid_rewrite map_lookup_filter_Some. rewrite Hlook. unfold flag_of. cbn.
    split.
    + intros (v & Hv & ->). destruct (existsb (has_key k) recs); [|discriminate].
      injection Hv as ->. reflexivity.
    + intros Hs. exists true. split; [|reflexivity].
      assert (existsb (has_key k) recs = true) as ->; [|rewrite Hs; reflexivity].
      apply existsb_exists in Hs as (r & Hin & Hr). apply existsb_exists.
      exists r. apply andb_true_iff in Hr. tauto.
Qed.

(** ** Carriage returns *)

Lemma answer_lines_remove_cr s :
  map (remove_char CR) (split NL (remove_char CR s))
  = map (remove_char CR) (split NL s).
Proof.
  rewrite split_remove_cr, map_map. apply map_ext. intros l.
  apply remove_char_idem.
Qed.

Lemma is_secure_as_parse v :
  is_secure_answer v
  = str_eqb (CulFullPatched.parse_final_answer v) (py "Secure").
Proof.
  destruct v; try reflexivity.
  unfold is_secure_answer, CulFullPatched.parse_final_answer.
  change CulFullPatched.last_answer_line with last_answer_line.
  change CulFullPatched.ANSWER_HEADER with ANSWER_HEADER.
  destruct (_ || _); [reflexivity|].
  destruct (_ !! _); reflexivity.
Qed.

(** ** Properties of the aggregation scripts *)

(** X1.  Ratio aggregation always completes, with [0 <= a <= num] and a
    percentage that is a finite float between 0 and 100. *)
Theorem ratio_stats_bounds (files : list (option (list json))) :
  exists st,
    CulFullPatched.process_model_dir files = Ok st
    /\ (0 <= a st <= num st)%Z
    /\ is_finite (pct st) = true
    /\ (0 <= float_value (pct st) <= 100)%Q.
Proof.
  rewrite ratio_as_make_stats.
  destruct (make_stats_bounds (Z.of_nat (length (loaded files)))
              (count_of has_insecure_verdict (loaded files)))
    as (st & -> & Hn & Ha & Hp); [apply count_of_bounds|].
  exists st. split; [reflexivity|]. rewrite Hn, Ha.
  split; [apply count_of_bounds|exact Hp].
Qed.

(** X2.  The ratio statistics depend only on which elements were loaded,
    not on their order nor on how they are spread over the files. *)
Theorem ratio_order_independent (files files' : list (option (list json))) :
  loaded files ≡ₚ loaded files' ->
  CulFullPatched.process_model_dir files
  = CulFullPatched.process_model_dir files'.
Proof.
  intros H. rewrite !ratio_as_make_stats.
  rewrite (count_of_perm _ _ _ H), (Permutation_length H). reflexivity.
Qed.

Lemma ratio_order_independent_witness :
  loaded [Some [JNull; JBool true]] ≡ₚ loaded [Some [JBool true]; None; Some [JNull]]
  /\ CulFullPatched.process_model_dir [Some [JNull; JBool true]]
     = CulFullPatched.process_model_dir [Some [JBool true]; None; Some [JNull]].
Proof.
  assert (H : loaded [Some [JNull; JBool true]]
              ≡ₚ loaded [Some [JBool true]; None; Some [JNull]])
    by apply perm_swap.
  split; [exact H|]. apply ratio_order_independent. exact H.
Defined.

(** X3.  When coverage aggregation completes, [num] is the number of
    distinct indices among the records, [a] is the number of distinct
    indices that have a record with the verdict [Secure], [a <= num], and
    the percentage is a finite float between 0 and 100. *)
Theorem coverage_stats_counts (files : list (option (list json)))
    (st : stats) :
  CulNPatched.process_model_dir files = Ok st ->
  num st = Z.of_nat (size (keys_of (loaded files)))
  /\ a st = Z.of_nat (size (covered_keys (loaded files)))
  /\ (0 <= a st <= num st)%Z
  /\ is_finite (pct st) = true
  /\ (0 <= float_value (pct st) <= 100)%Q.
Proof.
  unfold CulNPatched.process_model_dir. rewrite merge_files_loaded.
  destruct (merge_array empty_coverage (loaded files)) as [cov|e] eqn:Hcov;
    [|discriminate].
  destruct (coverage_collections _ _ Hcov) as (Hall & Hsec).
  unfold stats_of. rewrite count_true_size, <- size_dom, Hsec, Hall.
  intros Hst.
  assert (Hle : (size (covered_keys (loaded files))
                 <= size (keys_of (loaded files)))%nat)
    by (apply subseteq_size, covered_subseteq).
  destruct (make_stats_bounds (Z.of_nat (size (keys_of (loaded files))))
              (Z.of_nat (size (covered_keys (loaded files)))))
    as (st' & Hst' & Hn & Ha & Hp); [lia|].
  rewrite Hst in Hst'. injection Hst' as <-.
  rewrite Hn, Ha. repeat split; try lia; apply Hp.
Qed.

Lemma coverage_stats_counts_witness :
  exists st,
    CulNPatched.process_model_dir [Some [rec7_insecure]; None; Some [rec7_secure]]
    = Ok st
    /\ num st = 1%Z /\ a st = 1%Z
    /\ is_finite (pct st) = true
    /\ (0 <= float_value (pct st) <= 100)%Q.
Proof.
  eexists. split; [vm_compute; reflexivity|].
  pose proof (coverage_stats_counts
                [Some [rec7_insecure]; None; Some [rec7_secure]] _ eq_refl)
    as (_ & _ & _ & Hp).
  split; [reflexivity|]. split; [reflexivity|]. exact Hp.
Defined.

(** X4.  The coverage result, statistics or [TypeError], depends only on
    the set of records read: neither their order, nor their repetition,
    nor their distribution over the files matters. *)
Theorem coverage_order_independent (files files' : list (option (list json))) :
  (forall r, r ∈ loaded files <-> r ∈ loaded files') ->
  CulNPatched.process_model_dir files = CulNPatched.process_model_dir files'.
Proof.
  intros H. unfold CulNPatched.process_model_dir.
  rewrite !merge_files_loaded.
  rewrite (merge_array_same_elements (loaded files) (loaded files'));
    [reflexivity|].
  intros r. rewrite <- !list_elem_of_In. apply H.
Qed.

Lemma coverage_order_independent_witness :
  CulNPatched.process_model_dir [Some [rec7_insecure; rec7_secure]]
  = CulNPatched.process_model_dir
      [Some [rec7_secure]; None; Some [rec7_insecure; rec7_secure]].
Proof.
  apply coverage_order_independent. intros r. unfold loaded. cbn.
  rewrite !elem_of_cons, !elem_of_nil. tauto.
Defined.

(** X5.  Both verdict readers ignore carriage returns: removing every
    [\r] from the answer text changes neither the parsed verdict nor the
    secure flag. *)
Theorem verdict_readers_ignore_cr (s : str) :
  CulFullPatched.parse_final_answer (JStr (remove_char CR s))
  = CulFullPatched.parse_final_answer (JStr s)
  /\ is_secure_answer (JStr (remove_char CR s)) = is_secure_answer (JStr s).
Proof.
  assert (H : CulFullPatched.parse_final_answer (JStr (remove_char CR s))
              = CulFullPatched.parse_final_answer (JStr s)).
  { unfold CulFullPatched.parse_final_answer.
    rewrite answer_lines_remove_cr. reflexivity. }
  split; [exact H|]. rewrite !is_secure_as_parse, H. reflexivity.
Qed.

End StatsFacts.

(** * The runner: validation, extraction and prompts *)

Module RunnerFacts.
Import PyStr PyStrDefs PyStrFacts TrimFacts Json Regex RegexDefs RegexFacts.
Import RunFullPatched RunFullPatchedDefs RunFullPatchedFacts Aggregate.
Import AggregateDefs AggregateFacts StatsDefs StatsFacts RunnerDefs.

(** ** The validator and the spaces and text around a document *)

Lemma rstrip_app_keep a b : rstrip b <> [] -> rstrip (a ++ b) = a ++ rstrip b.
Proof.
  intros Hne. destruct (rstrip_decompose b) as (sp & Hb & Hsp).
  destruct (rstrip_nil_or_ends b) as [Hnil|Hends]; [congruence|].
  rewrite Hb at 1. rewrite app_assoc, rstrip_app_spaces by exact Hsp.
  apply rstrip_app_ends. exact Hends.
Qed.

Lemma reasoning_header_first : (35 : char) ∉ py " Reasoning:".
Proof.
  intros H. repeat (apply elem_of_cons in H as [H|H]; [discriminate|]).
  inversion H.
Qed.

(** The document the validator works on when the text opens with the
    reasoning header. *)
Lemma locate_document x :
  exists y, strip (REASONING_HEADER ++ x) = REASONING_HEADER ++ y
            /\ locate (strip (REASONING_HEADER ++ x))
               = Some (REASONING_HEADER ++ y)
            /\ ends_nonspace (REASONING_HEADER ++ y).
Proof.
  unfold strip. rewrite lstrip_starts_nonspace by apply reasoning_starts.
  destruct (rstrip_prefix REASONING_HEADER x reasoning_header_ends) as (y & Hy).
  exists y. rewrite Hy. split; [reflexivity|]. split.
  - unfold locate. rewrite startswith_self. reflexivity.
  - destruct (rstrip_nil_or_ends (REASONING_HEADER ++ x)) as [Hnil|He].
    + rewrite Hy in Hnil. discriminate.
    + rewrite Hy in He. exact He.
Qed.

Lemma locate_after_text pre x :
  find pre REASONING_HEADER = None ->
  locate (strip (pre ++ REASONING_HEADER ++ x))
  = locate (strip (REASONING_HEADER ++ x)).
Proof.
  intros Hpre.
  destruct (locate_document x) as (y & Hstrip & Hloc & Hends).
  destruct (lstrip_decompose pre) as (ws & Hws & Hsp).
  destruct (lstrip pre) as [|d p'] eqn:Hl.
  { rewrite app_nil_r in Hws. subst ws.
    rewrite <- (app_nil_r (REASONING_HEADER ++ x)) at 1.
    rewrite strip_spaces_around by auto. reflexivity. }
  assert (Hp' : find (d :: p') REASONING_HEADER = None).
  { rewrite Hws in Hpre. apply find_None_suffix in Hpre. exact Hpre. }
  assert (Ht : strip (pre ++ REASONING_HEADER ++ x)
               = (d :: p') ++ REASONING_HEADER ++ y).
  { unfold strip. rewrite lstrip_app_nonempty by (rewrite Hl; discriminate).
    rewrite Hl, rstrip_app_keep.
    - f_equal. unfold strip in Hstrip.
      rewrite lstrip_starts_nonspace in Hstrip by apply reasoning_starts.
      exact Hstrip.
    - unfold strip in Hstrip.
      rewrite lstrip_starts_nonspace in Hstrip by apply reasoning_starts.
      rewrite Hstrip. discriminate. }
  assert (Hfind : find ((d :: p') ++ REASONING_HEADER ++ y) REASONING_HEADER
                  = Some (length (d :: p'))).
  { rewrite reasoning_header_chars in *.
    apply find_first_occurrence; [apply reasoning_header_first|exact Hp']. }
  rewrite Ht, Hloc. unfold locate.
  destruct (startswith ((d :: p') ++ REASONING_HEADER ++ y) REASONING_HEADER)
    eqn:Hs.
  { cbn [app] in Hfind. rewrite find_cons in Hfind. cbn [app] in Hs.
    rewrite Hs in Hfind. discriminate. }
  rewrite Hfind, drop_app_length. f_equal.
  apply strip_fixed; [apply reasoning_starts|exact Hends].
Qed.

Lemma locate_substring t0 t sub :
  find t0 sub = None -> locate t0 = Some t -> find t sub = None.
Proof.
  intros Hnone. unfold locate. destruct (startswith t0 REASONING_HEADER).
  - intros [= <-]. exact Hnone.
  - destruct (find t0 REASONING_HEADER) as [i|]; [|discriminate].
    intros [= <-]. apply find_strip_None, find_drop_None. exact Hnone.
Qed.

Lemma locate_needs_header t0 :
  find t0 REASONING_HEADER = None -> locate t0 = None.
Proof.
  intros Hnone. unfold locate. rewrite Hnone.
  destruct (startswith t0 REASONING_HEADER) eqn:Hs; [|reflexivity].
  destruct t0 as [|c t0]; [discriminate|].
  rewrite find_cons, Hs in Hnone. discriminate.
Qed.

Lemma trim_located_needs_header t :
  find t ANSWER_HEADER = None -> trim_located t = [].
Proof. intros H. unfold trim_located. rewrite H. reflexivity. Qed.

(** ** What the aggregators read from a recorded answer *)

Lemma recorded_rejected text :
  validate_and_trim_strict text = [] ->
  recorded_answer text = coerce_to_template text.
Proof. unfold recorded_answer. intros ->. reflexivity. Qed.

Lemma recorded_accepted text :
  validate_and_trim_strict text <> [] ->
  recorded_answer text = validate_and_trim_strict text.
Proof.
  unfold recorded_answer. destruct (validate_and_trim_strict text);
    [congruence|reflexivity].
Qed.

Lemma validated_verdict text :
  validate_and_trim_strict text <> [] ->
  exists pre w,
    validate_and_trim_strict text = pre ++ NL :: w /\ is_verdict w
    /\ CulFullPatched.parse_final_answer (JStr (validate_and_trim_strict text))
       = w.
Proof.
  intros Hne.
  destruct (validate_canonical text Hne) as (head & L & w & Hcan & Heq).
  exists (head ++ [NL] ++ join [NL] L), w. split; [|split].
  - rewrite Heq. unfold assemble. rewrite <- !app_assoc. reflexivity.
  - exact (can_verdict _ _ _ Hcan).
  - rewrite Heq. apply parse_assemble. exact Hcan.
Qed.

Lemma endswith_verdict pre w :
  is_verdict w -> endswith (pre ++ NL :: w) (NL :: INSECURE) = str_eqb w INSECURE.
Proof.
  unfold endswith. intros [-> | ->].
  - rewrite rev_app_distr. cbn [rev app startswith]. reflexivity.
  - rewrite rev_app_distr, startswith_self. symmetry. apply str_eqb_refl.
Qed.

Lemma recorded_insecure text :
  str_eqb (CulFullPatched.parse_final_answer (JStr (recorded_answer text)))
          (py "Insecure")
  = insecure_outcome text.
Proof.
  unfold insecure_outcome.
  destruct (validate_and_trim_strict text) as [|c r] eqn:Hv.
  - rewrite recorded_rejected, parse_coerced by exact Hv. reflexivity.
  - rewrite recorded_accepted by (rewrite Hv; discriminate).
    destruct (validated_verdict text) as (pre & w & Heq & Hw & Hp);
      [rewrite Hv; discriminate|].
    rewrite Hp. rewrite Hv in Heq. rewrite Heq.
    symmetry. apply endswith_verdict. exact Hw.
Qed.

Lemma count_of_run outputs :
  count_of has_insecure_verdict (run_with_vllm_direct outputs)
  = Z.of_nat (length (filter (fun out => insecure_outcome (output_text out) = true)
                             outputs)).
Proof.
  induction outputs as [|out outputs IH]; [reflexivity|].
  cbn [run_with_vllm_direct map]. rewrite count_of_cons.
  fold (run_with_vllm_direct outputs). rewrite IH.
  fold (output_text out).
  assert (H : has_insecure_verdict
                (JDict [(py "answer", JStr (recorded_answer (output_text out)))])
              = insecure_outcome (output_text out)).
  { unfold has_insecure_verdict, CulFullPatched.get_answer.
    cbn [dict_get]. rewrite str_eqb_refl. cbn [default].
    apply recorded_insecure. }
  rewrite H. destruct (insecure_outcome (output_text out)) eqn:E.
  - rewrite filter_cons_True by exact E. cbn [length]. lia.
  - rewrite filter_cons_False by congruence. lia.
Qed.

Lemma loaded_single arr : loaded [Some arr] = arr.
Proof. unfold loaded. cbn. apply app_nil_r. Qed.

(** ** Extraction of the code of an input *)

Lemma fenced_code_Some re text code :
  fenced_code re text = Some code -> code <> [] /\ strip code = code.
Proof.
  unfold fenced_code. destruct (search_group1 re text) as [body|]; [|discriminate].
  destruct (strip body) as [|c s] eqn:E; [discriminate|].
  intros [= <-]. split; [discriminate|]. rewrite <- E. apply strip_idem.
Qed.

Lemma extract_Some v code :
  extract_code_from_input v = Some code -> code <> [] /\ strip code = code.
Proof.
  destruct v as [| | |s| |]; try discriminate. cbn [extract_code_from_input].
  destruct (fenced_code RE_FENCED_C_LINES (strip s)) as [c1|] eqn:E1.
  { intros [= <-]. eapply fenced_code_Some. exact E1. }
  destruct (fenced_code RE_FENCED_C (strip s)) as [c2|] eqn:E2.
  { intros [= <-]. eapply fenced_code_Some. exact E2. }
  destruct (strip s) as [|c t] eqn:E; [discriminate|].
  intros [= <-]. split; [discriminate|]. rewrite <- E. apply strip_idem.
Qed.

Lemma extract_None s :
  extract_code_from_input (JStr s) = None <-> strip s = [].
Proof.
  cbn [extract_code_from_input]. split.
  - destruct (fenced_code RE_FENCED_C_LINES (strip s)); [discriminate|].
    destruct (fenced_code RE_FENCED_C (strip s)); [discriminate|].
    destruct (strip s); [reflexivity|discriminate].
  - intros ->. reflexivity.
Qed.

Lemma fenced_block_shape code :
  fenced_block code = FENCE ++ 99 :: NL :: code ++ NL :: FENCE ++ [].
Proof. unfold fenced_block. rewrite app_nil_r. reflexivity. Qed.

Lemma fenced_block_strip code : strip (fenced_block code) = fenced_block code.
Proof.
  apply strip_fixed.
  - rewrite fenced_block_shape. eexists _, _. split; reflexivity.
  - exists (py "```c" ++ [NL] ++ code ++ [NL] ++ [96; 96]), 96.
    split; [|reflexivity]. unfold fenced_block. rewrite <- !app_assoc.
    reflexivity.
Qed.

Lemma extract_from_fenced_block code :
  no_backtick code -> strip code <> [] ->
  extract_code_from_input (JStr (fenced_block code)) = Some (strip code).
Proof.
  intros Hnb Hne. cbn [extract_code_from_input].
  rewrite fenced_block_strip, fenced_block_shape.
  assert (Hl : lstrip code <> []).
  { intros E. apply Hne. unfold strip. rewrite E. reflexivity. }
  destruct (search_fenced_lines 99 code [] eq_refl Hnb Hl) as (g & Hg & Hs).
  unfold fenced_code. rewrite Hg, Hs.
  destruct (strip code); [congruence|reflexivity].
Qed.

(** ** The prompts *)

Lemma prompt_of_input_row sys row :
  is_input_row row = true ->
  exists code,
    prompt_of_row sys row = Ok (build_prompt_from_code sys code)
    /\ code <> [] /\ strip code = code.
Proof.
  unfold is_input_row, prompt_of_row. destruct row as [| | | | |kv]; try discriminate.
  destruct (dict_get (py "input") kv) as [v|]; [|discriminate].
  intros _.
  destruct (extract_code_from_input v) as [[|c code]|] eqn:E.
  - exists DEFAULT_CODE. split; [reflexivity|]. split; [discriminate|reflexivity].
  - exists (c :: code). split; [reflexivity|]. eapply extract_Some. exact E.
  - exists DEFAULT_CODE. split; [reflexivity|]. split; [discriminate|reflexivity].
Qed.

Lemma build_prompts_rows sys rows :
  Forall (fun row => is_input_row row = true) rows ->
  exists prompts,
    build_prompts sys rows = Ok prompts
    /\ Forall2 (fun row p =>
                  exists code, p = build_prompt_from_code sys code
                               /\ prompt_of_row sys row = Ok p
                               /\ code <> [] /\ strip code = code)
               rows prompts.
Proof.
  induction 1 as [|row rows Hrow _ (ps & Hps & Hall)].
  - exists []. split; [reflexivity|constructor].
  - destruct (prompt_of_input_row sys row Hrow) as (code & Hp & Hne & Hs).
    exists (build_prompt_from_code sys code :: ps). split.
    + cbn [build_prompts]. rewrite Hp, Hps. reflexivity.
    + constructor; [|exact Hall]. exists code. auto.
Qed.

(** ** Properties of the runner *)

(** X6.  The validator does not depend on the spaces around its input:
    it returns the same on a text and on the trimmed text. *)
Theorem validate_ignores_outer_spaces (text : str) :
  validate_and_trim_strict (strip text) = validate_and_trim_strict text.
Proof.
  destruct text as [|c text]; [reflexivity|].
  rewrite (validate_nonempty (c :: text)) by discriminate.
  destruct (strip (c :: text)) as [|d t] eqn:E.
  - rewrite locate_nil. reflexivity.
  - rewrite validate_nonempty by discriminate.
    rewrite <- E, strip_idem. reflexivity.
Qed.

(** X7.  Whatever precedes the first reasoning header is discarded: on a
    text whose first occurrence of the header comes after [pre], the
    validator returns what it returns on the text from the header on. *)
Theorem validate_drops_leading_text (pre x : str) :
  find pre REASONING_HEADER = None ->
  validate_and_trim_strict (pre ++ REASONING_HEADER ++ x)
  = validate_and_trim_strict (REASONING_HEADER ++ x).
Proof.
  intros Hpre. rewrite !validate_nonempty.
  - rewrite locate_after_text by exact Hpre. reflexivity.
  - rewrite reasoning_header_chars. discriminate.
  - rewrite reasoning_header_chars. destruct pre; discriminate.
Qed.

Lemma validate_drops_leading_text_witness :
  find (py "Sure, here it is." ++ [NL]) REASONING_HEADER = None
  /\ validate_and_trim_strict
       ((py "Sure, here it is." ++ [NL]) ++ REASONING_HEADER
        ++ [NL] ++ py "1. ok" ++ [NL] ++ py "# Answer:" ++ [NL] ++ py "Secure")
     = validate_and_trim_strict
         (REASONING_HEADER
          ++ [NL] ++ py "1. ok" ++ [NL] ++ py "# Answer:" ++ [NL] ++ py "Secure").
Proof.
  split; [vm_compute; reflexivity|].
  apply validate_drops_leading_text. vm_compute. reflexivity.
Defined.

(** X8.  A text in which the reasoning header or the answer header does
    not occur is rejected. *)
Theorem validate_rejects_missing_header (text : str) :
  find text REASONING_HEADER = None \/ find text ANSWER_HEADER = None ->
  validate_and_trim_strict text = [].
Proof.
  intros H. rewrite validate_unfold. destruct text as [|c text]; [reflexivity|].
  destruct (locate (strip (c :: text))) as [t|] eqn:Hloc; [|reflexivity].
  destruct H as [H|H].
  - rewrite locate_needs_header in Hloc; [discriminate|].
    apply find_strip_None. exact H.
  - apply trim_located_needs_header.
    eapply locate_substring; [|exact Hloc]. apply find_strip_None. exact H.
Qed.

Lemma validate_rejects_missing_header_witness :
  find (py "# Reasoning:" ++ [NL] ++ py "1. ok" ++ [NL] ++ py "Secure")
       ANSWER_HEADER = None
  /\ validate_and_trim_strict
       (py "# Reasoning:" ++ [NL] ++ py "1. ok" ++ [NL] ++ py "Secure") = [].
Proof.
  assert (H : find (py "# Reasoning:" ++ [NL] ++ py "1. ok" ++ [NL] ++ py "Secure")
                   ANSWER_HEADER = None) by (vm_compute; reflexivity).
  split; [exact H|]. apply validate_rejects_missing_header. right. exact H.
Defined.

(** X9.  What the two aggregation scripts read from a recorded answer:
    [Insecure] and not secure for an output the validator rejected; for a
    validated output, the verdict that ends the recorded document. *)
Theorem recorded_verdict_read_back (text : str) :
  (validate_and_trim_strict text = [] ->
     CulFullPatched.parse_final_answer (JStr (recorded_answer text)) = INSECURE
     /\ CulNPatched.is_secure_answer (JStr (recorded_answer text)) = false)
  /\ (validate_and_trim_strict text <> [] ->
        exists pre w,
          recorded_answer text = pre ++ NL :: w /\ is_verdict w
          /\ CulFullPatched.parse_final_answer (JStr (recorded_answer text)) = w
          /\ CulNPatched.is_secure_answer (JStr (recorded_answer text))
             = str_eqb w SECURE).
Proof.
  split.
  - intros Hv. rewrite is_secure_as_parse, recorded_rejected by exact Hv.
    rewrite parse_coerced. split; reflexivity.
  - intros Hv. rewrite is_secure_as_parse, recorded_accepted by exact Hv.
    destruct (validated_verdict text Hv) as (pre & w & Heq & Hw & Hp).
    exists pre, w. rewrite Hp. auto.
Qed.

(** X10.  Ratio aggregation over the records of a run: [num] is the
    number of generation outputs and [a] is the number of outputs that
    the validator rejected or validated with the verdict [Insecure]. *)
Theorem ratio_of_run (outputs : list (list str)) :
  exists st,
    CulFullPatched.process_model_dir [Some (run_with_vllm_direct outputs)] = Ok st
    /\ num st = Z.of_nat (length outputs)
    /\ a st = Z.of_nat (length (filter (fun out =>
                                          insecure_outcome (output_text out) = true)
                                       outputs)).
Proof.
  rewrite ratio_as_make_stats, loaded_single, count_of_run.
  unfold run_with_vllm_direct. rewrite length_map.
  destruct (make_stats_bounds (Z.of_nat (length outputs))
              (Z.of_nat (length (filter (fun out =>
                                           insecure_outcome (output_text out) = true)
                                        outputs))))
    as (st & -> & Hn & Ha & _).
  - pose proof (length_filter (fun out => insecure_outcome (output_text out) = true)
                  outputs). lia.
  - exists st. auto.
Qed.

(** X11.  [extract_code_from_input] returns [None] exactly on a value
    that is not a string or is blank, and the code it returns is never
    empty and has no space at either end. *)
Theorem extract_code_from_input_result (v : json) :
  (extract_code_from_input v = None
   <-> match v with JStr s => strip s = [] | _ => True end)
  /\ (forall code, extract_code_from_input v = Some code ->
                   code <> [] /\ strip code = code).
Proof.
  split; [|intros code; apply extract_Some].
  destruct v as [| | |s| |]; try (split; [intros _; exact I|reflexivity]).
  apply extract_None.
Qed.

(** X12.  On the rows kept by [read_per_model_inputs] the prompt loop
    raises nothing and builds one prompt per row, each around a code that
    is not empty and has no space at either end. *)
Theorem prompts_of_read_inputs (sys : str) (data : json) (rows : list json) :
  read_per_model_inputs data = Some rows ->
  exists prompts,
    build_prompts sys rows = Ok prompts
    /\ length prompts = length rows
    /\ Forall (fun p => exists code, p = build_prompt_from_code sys code
                                     /\ code <> [] /\ strip code = code)
              prompts.
Proof.
  unfold read_per_model_inputs. destruct data as [| | | |l|]; try discriminate.
  intros [= <-].
  destruct (build_prompts_rows sys (filter (fun x => is_input_row x = true) l))
    as (ps & Hps & Hall).
  { apply Forall_forall. intros row Hrow.
    apply list_elem_of_filter in Hrow as (Hrow & _). exact Hrow. }
  exists ps. split; [exact Hps|]. split.
  - symmetry. eapply Forall2_length. exact Hall.
  - apply Forall_forall. intros p Hp.
    apply list_elem_of_lookup in Hp as (i & Hi).
    destruct (Forall2_lookup_r _ _ _ _ _ Hall Hi) as (row & _ & code & Hc & _ & Hne).
    exists code. auto.
Qed.

Lemma prompts_of_read_inputs_witness :
  exists prompts,
    build_prompts (py "Analyse.")
      [JDict [(py "input", JStr (py "int x;"))]] = Ok prompts
    /\ length prompts = 1%nat.
Proof.
  destruct (prompts_of_read_inputs (py "Analyse.")
              (JList [JNull; JDict [(py "input", JStr (py "int x;"))];
                      JDict [(py "input", JInt 3)]])
              [JDict [(py "input", JStr (py "int x;"))]])
    as (ps & Hps & Hlen & _); [vm_compute; reflexivity|].
  exists ps. auto.
Defined.

End RunnerFacts.

(** * The two patchers: responses, records and variants *)

Module PatcherFacts.
Import PyStr PyStrDefs PyStrFacts TrimFacts Json Regex RegexDefs RegexFacts.
Import FullPatchDefs FullPatchFacts NPatchDefs NPatchFacts PatcherDefs.

(** ** The response parsers *)

Lemma parse_patch_stripped v :
  strip (FullPatch._parse_patch_response v) = FullPatch._parse_patch_response v.
Proof.
  destruct v as [| | |s| |]; try reflexivity. cbn [FullPatch._parse_patch_response].
  destruct (search_group1 RE_FENCED_C s); apply strip_idem.
Qed.

Lemma extract_block_stripped text code :
  NPatch.extract_code_block_from_model text = Some code -> strip code = code.
Proof.
  unfold NPatch.extract_code_block_from_model. destruct text; [discriminate|].
  destruct (search_group1 _ _); [|discriminate].
  intros [= <-]. apply strip_idem.
Qed.

(** ** The records of the batch patcher *)

Lemma process_item_Some call item r :
  FullPatch.process_item call item = Some r ->
  exists kv, item = JDict kv /\ patched_record call kv r.
Proof.
  assert (Hnone : contains [] FullPatch.insecure_marker = false) by reflexivity.
  unfold FullPatch.process_item, patched_record, patched_code_of.
  destruct item as [| | | | |kv]; try discriminate.
  destruct (dict_get (py "answer") kv) as [ans|] eqn:Ha; cbn [from_option id];
    [|rewrite Hnone; discriminate].
  destruct ans as [| | |answer| |]; try discriminate.
  destruct (contains answer FullPatch.insecure_marker) eqn:Hm; [|discriminate].
  destruct (dict_get (py "origin_code") kv) as [oc|] eqn:Hc;
    cbn [from_option id]; [|cbn; discriminate].
  destruct oc as [| | |code| |]; try discriminate.
  destruct (strip code) as [|c s] eqn:Hs; [discriminate|].
  intros H. exists kv. split; [reflexivity|]. exists answer, code.
  split; [exact Ha|]. split; [exact Hm|]. split; [exact Hc|].
  split; [rewrite Hs; discriminate|].
  destruct (call code answer); injection H as <-; reflexivity.
Qed.

Lemma gather_lookup {R} (n : nat) (run : nat -> R) order results i x :
  FullPatch.gather n run order = Some results ->
  results !! i = Some x -> x = run i.
Proof.
  unfold FullPatch.gather. intros Hg Hi.
  apply mapM_Some in Hg.
  destruct (Forall2_lookup_r _ _ _ _ _ Hg Hi) as (slot & Hslot & Hid).
  cbn in Hid. subst slot. rewrite slots_lookup in Hslot.
  case_bool_decide as Hin.
  - congruence.
  - apply lookup_replicate in Hslot as (Hs & _). discriminate.
Qed.

Lemma written_records call order items out r :
  FullPatch.patch_code_from_file call order (JList items) = Some out ->
  r ∈ out ->
  exists i item, items !! i = Some item
                 /\ FullPatch.process_item (call i) item = Some r.
Proof.
  unfold FullPatch.patch_code_from_file.
  destruct (FullPatch.gather _ _ _) as [results|] eqn:Hg; [|discriminate].
  intros [= <-] Hr.
  apply list_elem_of_omap in Hr as (x & Hx & Hf).
  destruct x as [v|]; [|discriminate].
  destruct (py_truthy v); [|discriminate]. injection Hf as ->.
  apply list_elem_of_lookup in Hx as (i & Hi).
  pose proof (gather_lookup _ _ _ _ _ _ Hg Hi) as Hrun. cbn beta in Hrun.
  destruct (items !! i) as [item|] eqn:Hitem; [|discriminate].
  exists i, item. auto.
Qed.

(** ** The variants *)

Import NPatch.

Lemma spec_entry_variants_elem
    (analyze_vulnerabilities : nat -> str -> result json)
    (create_completion : nat -> nat -> str -> str -> json -> result str)
    idx item r :
  r ∈ spec_entry_variants analyze_vulnerabilities create_completion
        idx item ->
  exists kv code,
    item = JDict kv /\ gated item <> None
    /\ code <> [] /\ strip code = code
    /\ r = variant_record kv idx code.
Proof.
  unfold spec_entry_variants.
  destruct (gated item) as [[[kv answer] code0]|] eqn:Hg; [|intros H; inversion H].
  intros Hr. apply list_elem_of_fmap in Hr as (code & -> & Hc).
  apply list_elem_of_omap in Hc as (raw & _ & Hraw).
  unfold nonempty_block in Hraw.
  destruct (extract_code_block_from_model raw) as [[|c body]|] eqn:He;
    try discriminate.
  injection Hraw as <-.
  apply gated_inv in Hg as Hg'. destruct Hg' as (-> & _).
  exists kv, (c :: body). split; [reflexivity|]. split; [congruence|].
  split; [discriminate|]. split; [|reflexivity].
  eapply extract_block_stripped. exact He.
Qed.

(** Blocks appended one after the other, the block of position [k]
    tagged with [k]: the tags never decrease along the list. *)
Lemma concat_imap_sorted {A B} (f : nat -> A -> list B) (tag : B -> nat -> Prop)
    (l : list A) :
  forall base,
    (forall k x r, l !! k = Some x -> r ∈ f (base + k)%nat x -> tag r (base + k)%nat) ->
    forall i j ri rj,
      (i <= j)%nat ->
      concat (imap (fun k => f (base + k)%nat) l) !! i = Some ri ->
      concat (imap (fun k => f (base + k)%nat) l) !! j = Some rj ->
      exists a b, tag ri a /\ tag rj b /\ (base <= a <= b)%nat
                  /\ (b < base + length l)%nat.
Proof.
  induction l as [|x l IH]; intros base Htag i j ri rj Hij Hi Hj.
  - cbn in Hi. rewrite lookup_nil in Hi. discriminate.
  - cbn [imap concat] in Hi, Hj.
    assert (Hshift : imap ((fun k => f (base + k)%nat) ∘ S) l
                     = imap (fun k => f (S base + k)%nat) l).
    { apply imap_ext. intros k y _. cbn. f_equal. lia. }
    rewrite Hshift in Hi, Hj.
    assert (Htag' : forall k y r, l !! k = Some y -> r ∈ f (S base + k)%nat y ->
                                  tag r (S base + k)%nat).
    { intros k y r Hk Hr. replace (S base + k)%nat with (base + S k)%nat by lia.
      apply (Htag (S k) y r Hk).
      replace (base + S k)%nat with (S base + k)%nat by lia. exact Hr. }
    assert (Hhead : forall r, r ∈ f (base + 0)%nat x -> tag r base).
    { intros r Hr. pose proof (Htag 0%nat x r eq_refl Hr) as H.
      rewrite Nat.add_0_r in H. exact H. }
    destruct (decide (j < length (f (base + 0)%nat x))%nat) as [Hjl|Hjg].
    + rewrite lookup_app_l in Hi by lia. rewrite lookup_app_l in Hj by lia.
      exists base, base. cbn [length].
      split; [apply Hhead; eapply list_elem_of_lookup_2; exact Hi|].
      split; [apply Hhead; eapply list_elem_of_lookup_2; exact Hj|]. lia.
    + rewrite lookup_app_r in Hj by lia.
      destruct (decide (i < length (f (base + 0)%nat x))%nat) as [Hil|Hig].
      * rewrite lookup_app_l in Hi by lia.
        destruct (IH (S base) Htag' _ _ rj rj (le_n _) Hj Hj)
          as (a & b & _ & Hb & Hab & Hlen).
        exists base, b. cbn [length].
        split; [apply Hhead; eapply list_elem_of_lookup_2; exact Hi|].
        split; [exact Hb|]. lia.
      * rewrite lookup_app_r in Hi by lia.
        destruct (IH (S base) Htag' (i - length (f (base + 0)%nat x))%nat
                    (j - length (f (base + 0)%nat x))%nat ri rj ltac:(lia) Hi Hj)
          as (a & b & Ha & Hb & Hab & Hlen).
        exists a, b. cbn [length]. split; [exact Ha|]. split; [exact Hb|]. lia.
Qed.

(** ** Properties of the patchers *)

(** X13.  [_parse_patch_response] on a response with one fenced block and
    no other backtick returns the trimmed body of the block, whatever
    text surrounds the block; on a response without backtick it returns
    the trimmed response; its result never has a space at either end. *)
Theorem parse_patch_response_block :
  (forall pre l body post,
     no_backtick pre -> letter_c l = true -> no_backtick body ->
     FullPatch._parse_patch_response
       (JStr (pre ++ py "```" ++ l :: body ++ py "```" ++ post))
     = strip body)
  /\ (forall s, no_backtick s ->
                FullPatch._parse_patch_response (JStr s) = strip s)
  /\ (forall v, strip (FullPatch._parse_patch_response v)
                = FullPatch._parse_patch_response v).
Proof.
  split; [|split].
  - intros pre l body post Hpre Hl Hbody. cbn [FullPatch._parse_patch_response].
    change (py "```") with FENCE.
    rewrite search_fenced_c by assumption. reflexivity.
  - intros s Hs. cbn [FullPatch._parse_patch_response].
    rewrite search_fenced_c_none by exact Hs. reflexivity.
  - apply parse_patch_stripped.
Qed.

(** X14.  [extract_code_block_from_model] on a response with one fenced
    block and no other backtick returns the trimmed body of the block,
    whatever text surrounds the block; it returns [None] on a response
    without backtick; the code it returns never has a space at either
    end. *)
Theorem extract_code_block_fenced :
  (forall pre l body post,
     no_backtick pre -> letter_c l = true -> no_backtick body ->
     NPatch.extract_code_block_from_model
       (pre ++ py "```" ++ l :: body ++ py "```" ++ post)
     = Some (strip body))
  /\ (forall s, no_backtick s -> NPatch.extract_code_block_from_model s = None)
  /\ (forall text code,
        NPatch.extract_code_block_from_model text = Some code ->
        strip code = code).
Proof.
  split; [|split].
  - intros pre l body post Hpre Hl Hbody.
    unfold NPatch.extract_code_block_from_model. change (py "```") with FENCE.
    rewrite search_fenced_trimmed, strip_idem by assumption.
    destruct pre; reflexivity.
  - intros s Hs. unfold NPatch.extract_code_block_from_model.
    rewrite search_fenced_trimmed_none by exact Hs. destruct s; reflexivity.
  - apply extract_block_stripped.
Qed.

(** X15.  Every record the batch patcher writes is an input item that
    passed both gates (its answer holds the marker, its original code is
    a string that is not blank), with its fields as they were and
    [patched_code] set to the parsed response of its call, or to the
    sentinel when the call failed. *)
Theorem patch_written_records
    (call : nat -> str -> str -> FullPatch.api_outcome) (order : list nat)
    (items out : list json) :
  FullPatch.patch_code_from_file call order (JList items) = Some out ->
  Forall (fun r => exists i kv,
            items !! i = Some (JDict kv) /\ patched_record (call i) kv r)
         out.
Proof.
  intros Hout. apply Forall_forall. intros r Hr.
  destruct (written_records _ _ _ _ _ Hout Hr) as (i & item & Hi & Hp).
  apply process_item_Some in Hp as (kv & -> & Hrec).
  exists i, kv. auto.
Qed.

Lemma patch_written_records_witness :
  exists out,
    FullPatch.patch_code_from_file stub_call [0; 1]%nat
      (JList [item_insecure; item_secure]) = Some out
    /\ Forall (fun r => exists i kv,
                 [item_insecure; item_secure] !! i = Some (JDict kv)
                 /\ patched_record (stub_call i) kv r)
              out.
Proof.
  eexists. split; [vm_compute; reflexivity|].
  apply (patch_written_records stub_call [0; 1]%nat). vm_compute. reflexivity.
Defined.

(** X16.  Every variant is the record of an entry that passed both
    gates, with [index] set to the position of the entry and
    [patched_code] set to a code that is not empty and has no space at
    either end. *)
Theorem variants_well_formed
    (analyze_vulnerabilities : nat -> str -> result json)
    (create_completion : nat -> nat -> str -> str -> json -> result str)
    (entries : list json) :
  Forall (fun r => exists idx kv code,
            entries !! idx = Some (JDict kv) /\ gated (JDict kv) <> None
            /\ code <> [] /\ strip code = code
            /\ r = variant_record kv idx code)
         (NPatch.process_entries analyze_vulnerabilities create_completion
            entries).1.
Proof.
  rewrite process_entries_spec. apply Forall_forall. intros r Hr.
  apply list_elem_of_In, in_concat in Hr as (vs & Hvs & Hr).
  apply list_elem_of_In in Hvs, Hr.
  apply list_elem_of_lookup in Hvs as (idx & Hvs).
  rewrite list_lookup_imap in Hvs.
  destruct (entries !! idx) as [item|] eqn:Hitem; [|discriminate].
  injection Hvs as <-.
  apply spec_entry_variants_elem in Hr as (kv & code & -> & Hg & Hne & Hs & ->).
  exists idx, kv, code. auto.
Qed.

(** X17.  The variants come in the order of their source entries: along
    the output the [index] never decreases, and it is a position of the
    input list. *)
Theorem variants_in_entry_order
    (analyze_vulnerabilities : nat -> str -> result json)
    (create_completion : nat -> nat -> str -> str -> json -> result str)
    (entries : list json) (i j : nat) (ri rj : json) :
  (i <= j)%nat ->
  (NPatch.process_entries analyze_vulnerabilities create_completion entries).1
    !! i = Some ri ->
  (NPatch.process_entries analyze_vulnerabilities create_completion entries).1
    !! j = Some rj ->
  exists a b, index_is ri a /\ index_is rj b
              /\ (a <= b)%nat /\ (b < length entries)%nat.
Proof.
  rewrite process_entries_spec. intros Hij Hi Hj.
  destruct (concat_imap_sorted
              (spec_entry_variants analyze_vulnerabilities
                 create_completion)
              index_is entries 0%nat) with (i := i) (j := j) (ri := ri) (rj := rj)
    as (a & b & Ha & Hb & Hab & Hlen); try assumption.
  - intros k x r _ Hr. cbn [Nat.add] in *.
    apply (spec_entry_variants_elem analyze_vulnerabilities create_completion)
      in Hr as (kv & code & _ & _ & _ & _ & ->).
    destruct (variant_record_index kv k code) as (rkv & Hrec & Hidx).
    exists rkv. auto.
  - exists a, b. split; [exact Ha|]. split; [exact Hb|]. lia.
Qed.

Lemma variants_in_entry_order_witness :
  exists a b,
    index_is (variant_record entry1 0 patched_fn) a
    /\ index_is (variant_record entry1 1 patched_fn) b
    /\ (a <= b)%nat /\ (b < 2)%nat.
Proof.
  apply (variants_in_entry_order stub_analyze stub_patch
           [JDict entry1; JDict entry1] 0 1); [lia| |]; vm_compute; reflexivity.
Defined.

End PatcherFacts.

(** * Index injection: accounting, stability, and the files it covers *)

Module InjectFacts.
Import PyStr PyStrDefs PyStrFacts Json DelNPatched NPatchDefs NPatchFacts.
Import DelNPatchedDefs DelNPatchedFacts InjectDefs.

Lemma dict_set_set k v kv : dict_set k v (dict_set k v kv) = dict_set k v kv.
Proof.
  induction kv as [|[k' v'] kv IH]; cbn [dict_set].
  - rewrite str_eqb_refl. reflexivity.
  - destruct (str_eqb k' k) eqn:E; cbn [dict_set]; rewrite E; [reflexivity|].
    rewrite IH. reflexivity.
Qed.

Lemma injected_field code_arr ans_arr0 i r k :
  ans_arr0 !! i = Some r -> k <> py "index" ->
  exists r', injected code_arr ans_arr0 i = Some r'
             /\ is_dict r' = is_dict r /\ field k r' = field k r.
Proof.
  intros Hr Hk. unfold injected. rewrite Hr.
  destruct (code_arr !! i) as [[| | | | |code_obj]|]; try (eexists; eauto; fail).
  destruct r as [| | | | |ans_obj]; try (eexists; eauto; fail).
  destruct (dict_get (py "index") code_obj) as [v|]; [|eexists; eauto].
  eexists. split; [reflexivity|]. split; [reflexivity|].
  cbn [field]. apply dict_get_set_ne. congruence.
Qed.

Lemma inject_length code_arr (idxs : list nat) : forall st,
  length (ans_arr (foldl (inject_step code_arr) st idxs)) = length (ans_arr st).
Proof.
  induction idxs as [|i idxs IH]; intros st; [reflexivity|].
  cbn [foldl]. rewrite IH. unfold inject_step.
  destruct (code_arr !! i) as [[| | | | |code_obj]|]; try reflexivity.
  destruct (ans_arr st !! i) as [[| | | | |ans_obj]|]; try reflexivity.
  destruct (dict_get (py "index") code_obj); [|reflexivity].
  cbn [ans_arr]. apply length_insert.
Qed.

(** Every position adds one to the counter or one event to the log. *)
Lemma inject_accounting code_arr (idxs : list nat) : forall st,
  (updated (foldl (inject_step code_arr) st idxs)
   + length (log (foldl (inject_step code_arr) st idxs))
   = updated st + length (log st) + length idxs)%nat.
Proof.
  induction idxs as [|i idxs IH]; intros st; [cbn; lia|].
  cbn [foldl length]. rewrite IH. unfold inject_step.
  destruct (code_arr !! i) as [[| | | | |code_obj]|];
    try (cbn [updated log]; rewrite length_app; cbn; lia).
  destruct (ans_arr st !! i) as [[| | | | |ans_obj]|];
    try (cbn [updated log]; rewrite length_app; cbn; lia).
  destruct (dict_get (py "index") code_obj);
    cbn [updated log]; rewrite ?length_app; cbn; lia.
Qed.

Lemma inject_idempotent_lookup code_arr ans_arr0 i :
  injected code_arr (ans_arr (inject_index_for_pair code_arr ans_arr0)) i
  = injected code_arr ans_arr0 i.
Proof.
  unfold injected at 1. rewrite inject_index_for_pair_lookup.
  unfold injected. destruct (ans_arr0 !! i) as [r|]; [|reflexivity].
  destruct (code_arr !! i) as [[| | | | |code_obj]|]; try reflexivity.
  destruct r as [| | | | |ans_obj]; try reflexivity.
  destruct (dict_get (py "index") code_obj) as [v|]; [|reflexivity].
  rewrite dict_set_set. reflexivity.
Qed.

(** ** The loop over the numbered files *)


(** ** Properties of the index injection *)

(** X18.  Index injection keeps the answer array as long as it was, keeps
    every record an object or not as it was and leaves every field other
    than [index] unchanged; the counter plus the number of logged events
    is the number of positions visited, the shorter of the two lengths;
    the counter is the number of positions where both records are
    objects and the code record has an index. *)
Theorem inject_index_accounting (code_arr ans_arr0 : list json) :
  let st := inject_index_for_pair code_arr ans_arr0 in
  length (ans_arr st) = length ans_arr0
  /\ (forall i r k,
        ans_arr0 !! i = Some r -> k <> py "index" ->
        exists r', ans_arr st !! i = Some r'
                   /\ is_dict r' = is_dict r /\ field k r' = field k r)
  /\ (updated st + length (log st)
      = Nat.min (length code_arr) (length ans_arr0))%nat
  /\ updated st
     = length (filter (fun i => injectable code_arr ans_arr0 i = true)
                 (seq 0 (Nat.min (length code_arr) (length ans_arr0)))).
Proof.
  intros st. subst st. split; [|split; [|split]].
  - unfold inject_index_for_pair. rewrite inject_length. reflexivity.
  - intros i r k Hr Hk. rewrite inject_index_for_pair_lookup.
    apply injected_field; assumption.
  - unfold inject_index_for_pair. rewrite inject_accounting, length_seq.
    reflexivity.
  - unfold inject_index_for_pair.
    set (n := Nat.min (length code_arr) (length ans_arr0)).
    assert (Hn : (n <= Nat.min (length code_arr) (length ans_arr0))%nat) by lia.
    clearbody n. induction n as [|n IH]; [reflexivity|].
    rewrite seq_S, foldl_app, filter_app, length_app. cbn [foldl Nat.add].
    set (st := foldl _ _ (seq 0 n)) in *.
    assert (Hcur : ans_arr st !! n = ans_arr0 !! n).
    { subst st. rewrite inject_prefix by lia.
      destruct (decide (n < n)%nat); [lia|reflexivity]. }
    unfold inject_step. rewrite Hcur.
    assert (Hone : forall b : bool,
              injectable code_arr ans_arr0 n = b ->
              length (filter (fun i => injectable code_arr ans_arr0 i = true) [n])
              = if b then 1%nat else 0%nat).
    { intros b Hb. destruct b.
      - rewrite filter_cons_True by exact Hb. reflexivity.
      - rewrite filter_cons_False by congruence. reflexivity. }
    unfold injectable in Hone at 1.
    destruct (code_arr !! n) as [[| | | | |code_obj]|];
      try (cbn [updated]; rewrite (Hone false eq_refl), IH by lia; lia).
    destruct (ans_arr0 !! n) as [[| | | | |ans_obj]|];
      try (cbn [updated]; rewrite (Hone false eq_refl), IH by lia; lia).
    destruct (dict_get (py "index") code_obj) as [v|]; cbn [updated].
    + rewrite (Hone true), IH by (try lia; apply bool_decide_eq_true_2; eauto).
      lia.
    + rewrite (Hone false), IH
        by (try lia; apply bool_decide_eq_false_2; intros [? ?]; discriminate).
      lia.
Qed.

(** X19.  Index injection is idempotent: run on its own result with the
    same code array, it leaves the answer array as it is. *)
Theorem inject_index_idempotent (code_arr ans_arr0 : list json) :
  ans_arr (inject_index_for_pair code_arr
             (ans_arr (inject_index_for_pair code_arr ans_arr0)))
  = ans_arr (inject_index_for_pair code_arr ans_arr0).
Proof.
  apply list_eq. intros i.
  rewrite (inject_index_for_pair_lookup code_arr
             (ans_arr (inject_index_for_pair code_arr ans_arr0))).
  rewrite inject_idempotent_lookup, inject_index_for_pair_lookup. reflexivity.
Qed.


End InjectFacts.

(** * Data preparation: fenced inputs and numbered chunks *)

Module DataFacts.
Import PyStr PyStrDefs PyStrFacts TrimFacts Json Regex RegexDefs RegexFacts.
Import RunFullPatched RunnerDefs RunnerFacts Aggregate AggregateDefs.
Import AggregateFacts StatsDefs StatsFacts GetPatchedData Divide NPatchDefs.
Import NPatchFacts FullPatchDefs FullPatchFacts PatcherDefs PatcherFacts.
Import DataDefs.

(** ** From patched records to prompts *)

Lemma wrap_string py_str code :
  wrap_c_code_block py_str (JStr code) = fenced_block code.
Proof. reflexivity. Qed.

Lemma input_record_kept v :
  is_input_row (JDict [(py "input", JStr v)]) = true.
Proof. unfold is_input_row. cbn [dict_get]. rewrite str_eqb_refl. reflexivity. Qed.

Lemma entries_of_input_rows py_str rec :
  Forall (fun row => is_input_row row = true) (entries_of py_str rec).
Proof.
  unfold entries_of. destruct (dict_get (py "patched_code") rec) as [pc|];
    [|constructor].
  destruct pc; try (constructor; [apply input_record_kept|constructor]).
  apply Forall_forall. intros row Hrow.
  apply list_elem_of_fmap in Hrow as (seg & -> & _). apply input_record_kept.
Qed.

Lemma extract_patched_entries_rows py_str items :
  Forall (fun row => is_input_row row = true)
         (extract_patched_entries py_str items).
Proof.
  induction items as [|rec items IH]; [constructor|].
  cbn [extract_patched_entries]. apply Forall_app. split; [|exact IH].
  apply entries_of_input_rows.
Qed.

Lemma filter_all {A} (P : A -> Prop) `{forall x, Decision (P x)} (l : list A) :
  Forall P l -> filter P l = l.
Proof.
  induction 1 as [|x l Hx _ IH]; [reflexivity|].
  rewrite filter_cons_True by exact Hx. rewrite IH. reflexivity.
Qed.

Lemma build_prompt_strip sys code :
  build_prompt_from_code sys (strip code) = build_prompt_from_code sys code.
Proof. unfold build_prompt_from_code. rewrite strip_idem. reflexivity. Qed.

Lemma prompt_of_prepared sys py_str code :
  no_backtick code -> strip code <> [] ->
  prompt_of_row sys (JDict [(py "input", JStr (wrap_c_code_block py_str (JStr code)))])
  = Ok (build_prompt_from_code sys code).
Proof.
  intros Hnb Hne. unfold prompt_of_row. cbn [dict_get]. rewrite str_eqb_refl.
  rewrite wrap_string, extract_from_fenced_block by assumption.
  destruct (strip code) as [|c s] eqn:E; [congruence|].
  rewrite <- E, build_prompt_strip. reflexivity.
Qed.


Lemma prompts_of_prepared sys py_str items codes :
  Forall2 (fun rec code =>
             dict_get (py "patched_code") rec = Some (JStr code)
             /\ no_backtick code /\ strip code <> [])
          items codes ->
  build_prompts sys (extract_patched_entries py_str items)
  = Ok (map (build_prompt_from_code sys) codes).
Proof.
  induction 1 as [|rec code items codes (Hpc & Hnb & Hne) _ IH]; [reflexivity|].
  cbn [extract_patched_entries map]. unfold entries_of. rewrite Hpc.
  cbn [app build_prompts].
  rewrite prompt_of_prepared by assumption. rewrite IH. reflexivity.
Qed.


(** ** Properties of the data preparation *)

(** X21.  Round trip between data preparation and the runner: from the
    block [wrap_c_code_block] builds around a code string that has no
    backtick and is not blank, [extract_code_from_input] returns the
    trimmed code. *)
Theorem extract_of_wrapped_code (py_str : json -> str) (code : str) :
  no_backtick code -> strip code <> [] ->
  extract_code_from_input (JStr (wrap_c_code_block py_str (JStr code)))
  = Some (strip code).
Proof. intros Hnb Hne. rewrite wrap_string. apply extract_from_fenced_block; assumption. Qed.

Lemma extract_of_wrapped_code_witness :
  extract_code_from_input
    (JStr (wrap_c_code_block (fun _ => [])
             (JStr ([NL] ++ py "  int f(void) { return 0; }" ++ [NL]))))
  = Some (py "int f(void) { return 0; }").
Proof.
  apply (extract_of_wrapped_code (fun _ => [])
           ([NL] ++ py "  int f(void) { return 0; }" ++ [NL])).
  - unfold no_backtick. apply Forall_forall. intros c Hc.
    vm_compute in Hc. repeat (apply elem_of_cons in Hc as [->|Hc]; [reflexivity|]).
    inversion Hc.
  - vm_compute. discriminate.
Defined.

(** X22.  Whatever document the data preparation reads, the array it
    writes is not empty and every record of it is kept by the input
    filter of the runner: reading it back gives the same array. *)
Theorem prepared_inputs_all_kept (py_str : json -> str) (data : json)
    (recs : list json) :
  GetPatchedData.process_model_dir py_str data = Some recs ->
  recs <> [] /\ read_per_model_inputs (JList recs) = Some recs.
Proof.
  unfold GetPatchedData.process_model_dir.
  destruct (normalize_items data) as [|rec items]; [discriminate|].
  destruct (extract_patched_entries py_str (rec :: items)) as [|r rs] eqn:E;
    [discriminate|].
  intros [= <-]. split; [discriminate|].
  rewrite <- E. unfold read_per_model_inputs. f_equal. apply filter_all.
  apply extract_patched_entries_rows.
Qed.

Lemma prepared_inputs_all_kept_witness :
  exists recs,
    GetPatchedData.process_model_dir (fun _ => [])
      (JDict [(py "data",
               JList [JNull; JDict [(py "patched_code", JStr (py "int x;"))]])])
    = Some recs
    /\ recs <> [] /\ read_per_model_inputs (JList recs) = Some recs.
Proof.
  eexists. split; [vm_compute; reflexivity|].
  apply (prepared_inputs_all_kept (fun _ => [])
           (JDict [(py "data",
                    JList [JNull; JDict [(py "patched_code", JStr (py "int x;"))]])])).
  vm_compute. reflexivity.
Defined.



(** X24.  A failed patch is analysed as if it were code: for an item
    that passes both gates and whose call fails with an error text
    without backtick, the batch patcher writes the sentinel as
    [patched_code], the data preparation wraps it in a block, and the
    runner builds the prompt of that sentinel text. *)
Theorem failed_patch_analysed_as_code (sys : str) (py_str : json -> str)
    (call : str -> str -> FullPatch.api_outcome)
    (kv : list (str * json)) (answer code e : str) :
  dict_get (py "answer") kv = Some (JStr answer) ->
  contains answer FullPatch.insecure_marker = true ->
  dict_get (py "origin_code") kv = Some (JStr code) ->
  strip code <> [] ->
  call code answer = inl e ->
  no_backtick e ->
  exists kvr,
    FullPatch.process_item call (JDict kv) = Some (JDict kvr)
    /\ dict_get (py "patched_code") kvr
       = Some (JStr (py "// PATCHING FAILED: " ++ e))
    /\ build_prompts sys (extract_patched_entries py_str [kvr])
       = Ok [build_prompt_from_code sys (py "// PATCHING FAILED: " ++ e)].
Proof.
  intros Ha Hm Hc Hs Hcall He.
  exists (dict_set (py "patched_code") (JStr (py "// PATCHING FAILED: " ++ e)) kv).
  split; [|split].
  - unfold FullPatch.process_item. rewrite Ha, Hc. cbn [from_option id].
    rewrite Hm. destruct (strip code); [congruence|]. rewrite Hcall. reflexivity.
  - apply dict_get_set_eq.
  - apply (prompts_of_prepared sys py_str _ [py "// PATCHING FAILED: " ++ e]).
    constructor; [|constructor]. split; [apply dict_get_set_eq|]. split.
    + apply Forall_app. split; [|exact He]. repeat constructor.
    + change (py "// PATCHING FAILED: " ++ e)
        with (47 :: py "/ PATCHING FAILED: " ++ e).
      unfold strip. cbn [lstrip]. change (isspace 47) with false. cbv iota.
      destruct (rstrip_cons_nonspace 47 (py "/ PATCHING FAILED: " ++ e) eq_refl)
        as (y & ->).
      discriminate.
Qed.

Lemma failed_patch_analysed_as_code_witness :
  exists kvr,
    FullPatch.process_item (stub_call 0)
      (JDict [(py "answer", JStr (py "# Answer:" ++ [NL] ++ py "Insecure"));
              (py "origin_code", JStr (py "void f(){ strcpy(a,b); }"))])
    = Some (JDict kvr)
    /\ dict_get (py "patched_code") kvr
       = Some (JStr (py "// PATCHING FAILED: " ++ py "timeout"))
    /\ build_prompts (py "Analyse.") (extract_patched_entries (fun _ => []) [kvr])
       = Ok [build_prompt_from_code (py "Analyse.")
               (py "// PATCHING FAILED: " ++ py "timeout")].
Proof.
  apply (failed_patch_analysed_as_code (py "Analyse.") (fun _ => []) (stub_call 0)
           [(py "answer", JStr (py "# Answer:" ++ [NL] ++ py "Insecure"));
            (py "origin_code", JStr (py "void f(){ strcpy(a,b); }"))]
           (py "# Answer:" ++ [NL] ++ py "Insecure")
           (py "void f(){ strcpy(a,b); }") (py "timeout"));
    try (vm_compute; reflexivity).
  - vm_compute. discriminate.
  - unfold no_backtick. repeat constructor.
Defined.

End DataFacts.


(** * Splitting an array into numbered chunks *)

Module SplitFacts.
Import PyStr PyStrDefs PyStrFacts Json Aggregate AggregateDefs.
Import AggregateFacts StatsDefs StatsFacts RunnerDefs RunnerFacts Divide.
Import SplitDefs.

Lemma split_inv_initial chunk_size : split_inv chunk_size [] initial.
Proof. repeat split; constructor. Qed.

Lemma split_inv_step chunk_size done st obj v :
  write_item obj = Some v ->
  split_inv chunk_size done st ->
  exists st', split_step chunk_size st obj = (st', true)
              /\ split_inv chunk_size (done ++ [v]) st'.
Proof.
  intros Hv (Hcat & Hcr & Hfull & Hw). unfold split_step. rewrite Hv.
  unfold open_chunk in Hcat.
  assert (Hpos : (1 <= full chunk_size)%nat) by (unfold full; lia).
  destruct (writer st) as [w|] eqn:Ew.
  - destruct Hw as (Hcount & Hlen & Hd & Hfirst).
    rewrite bool_decide_eq_true_2 by eauto. cbn [negb orb].
    rewrite bool_decide_eq_true_2 in Hcr by eauto.
    destruct (chunk_size <=? count_in_batch st)%Z eqn:Hc.
    + apply Z.leb_le in Hc. unfold close_writer_final, open_new_writer.
      rewrite Ew. cbn [files writer created count_in_batch
                         is_first_in_current_chunk content].
      eexists. split; [reflexivity|].
      unfold split_inv, open_chunk.
      cbn [files writer created count_in_batch is_first_in_current_chunk
             content dangling].
      rewrite bool_decide_eq_true_2 by eauto.
      split; [|split; [|split]].
      * rewrite fmap_app, concat_app. cbn [fmap list_fmap concat app].
        rewrite app_nil_r, Hcat. reflexivity.
      * rewrite length_app. cbn [length]. lia.
      * apply Forall_app. split; [exact Hfull|].
        constructor; [|constructor]. split; [|exact Hd].
        unfold full in *. lia.
      * cbn [app length]. repeat split; lia.
    + apply Z.leb_gt in Hc. rewrite Ew, Hfirst.
      cbn [files writer created count_in_batch is_first_in_current_chunk
             content].
      eexists. split; [reflexivity|].
      unfold split_inv, open_chunk.
      cbn [files writer created count_in_batch is_first_in_current_chunk
             content dangling].
      rewrite bool_decide_eq_true_2 by eauto.
      split; [|split; [|split]].
      * rewrite app_assoc, Hcat. reflexivity.
      * exact Hcr.
      * exact Hfull.
      * rewrite length_app. cbn [length]. unfold full in *.
        repeat split; lia.
  - rewrite bool_decide_eq_false_2 by (intros [? ?]; discriminate).
    rewrite bool_decide_eq_false_2 in Hcr by (intros [? ?]; discriminate).
    cbn [negb orb]. unfold close_writer_final, open_new_writer. rewrite Ew.
    cbn [files writer created count_in_batch is_first_in_current_chunk
           content].
    eexists. split; [reflexivity|].
    unfold split_inv, open_chunk.
    cbn [files writer created count_in_batch is_first_in_current_chunk
           content dangling].
    rewrite bool_decide_eq_true_2 by eauto.
    rewrite Hw in *. cbn in Hcat. subst done.
    split; [|split; [|split]].
    + reflexivity.
    + rewrite Hcr. reflexivity.
    + constructor.
    + cbn [app length]. repeat split; lia.
Qed.

Lemma all_written_cons obj rest :
  all_written (obj :: rest)
  = bool_decide (is_Some (write_item obj)) && all_written rest.
Proof. reflexivity. Qed.

(** The loop keeps the invariant as long as the items can be written; at
    the first item that cannot, it is left in the state of the step that
    raised. *)
Lemma split_loop_spec chunk_size items : forall done st,
  split_inv chunk_size done st ->
  if all_written items
  then split_inv chunk_size (done ++ written items)
         (split_loop chunk_size st items)
  else exists st0 obj,
      split_inv chunk_size (done ++ written items) st0
      /\ write_item obj = None
      /\ split_loop chunk_size st items = (split_step chunk_size st0 obj).1.
Proof.
  induction items as [|obj items IH]; intros done st Hinv.
  - cbn. rewrite app_nil_r. exact Hinv.
  - rewrite all_written_cons. cbn [written split_loop].
    destruct (write_item obj) as [v|] eqn:Hv.
    + destruct (split_inv_step _ _ _ _ _ Hv Hinv) as (st' & -> & Hinv').
      rewrite bool_decide_eq_true_2 by eauto. cbn [andb].
      specialize (IH _ _ Hinv'). rewrite <- app_assoc in IH. exact IH.
    + rewrite bool_decide_eq_false_2 by (intros [? ?]; discriminate).
      cbn [andb]. exists st, obj. rewrite app_nil_r.
      split; [exact Hinv|]. split; [exact Hv|].
      destruct (split_step chunk_size st obj) as [st' c] eqn:Hs.
      assert (c = false) as ->; [|reflexivity].
      unfold split_step in Hs. rewrite Hv in Hs.
      destruct Hinv as (_ & _ & _ & Hw).
      destruct (writer st) as [w|] eqn:Ew.
      * rewrite bool_decide_eq_true_2 in Hs by eauto. cbn [negb orb] in Hs.
        destruct (chunk_size <=? count_in_batch st)%Z.
        -- unfold close_writer_final, open_new_writer in Hs.
           rewrite Ew in Hs. cbn in Hs. congruence.
        -- rewrite Ew in Hs. congruence.
      * rewrite bool_decide_eq_false_2 in Hs by (intros [? ?]; discriminate).
        unfold close_writer_final, open_new_writer in Hs.
        rewrite Ew in Hs. cbn in Hs. congruence.
Qed.

(** The files after the run: none for an empty input; otherwise full
    files followed by a last file, which is a proper chunk when every
    item was written, and otherwise holds the items of the chunk that
    was being written, with a dangling separator unless it is empty. *)
Lemma split_shape chunk_size items :
  let fs := (split_json_array_file chunk_size items).2 in
  (split_json_array_file chunk_size items).1 = length fs
  /\ ((fs = [] /\ written items = [] /\ all_written items = true)
      \/ exists fulls l,
           fs = fulls ++ [l]
           /\ Forall (full_file chunk_size) fulls
           /\ concat (content <$> fulls) ++ content l = written items
           /\ (if all_written items
               then (1 <= length (content l) <= full chunk_size)%nat
                    /\ dangling l = false
               else (length (content l) < full chunk_size)%nat
                    /\ dangling l = bool_decide (content l <> []))).
Proof.
  unfold split_json_array_file. cbn [fst snd].
  pose proof (split_loop_spec chunk_size items [] initial
                (split_inv_initial chunk_size)) as Hspec.
  cbn [app] in Hspec.
  assert (Hpos : (1 <= full chunk_size)%nat) by (unfold full; lia).
  destruct (all_written items).
  - destruct Hspec as (Hcat & Hcr & Hfull & Hw).
    set (st := split_loop chunk_size initial items) in *.
    unfold close_writer_final, open_chunk in *.
    destruct (writer st) as [w|] eqn:Ew.
    + destruct Hw as (_ & Hlen & Hd & _). cbn [files created].
      rewrite bool_decide_eq_true_2 in Hcr by eauto.
      split; [rewrite length_app; cbn [length]; exact Hcr|].
      right. exists (files st), w. auto.
    + rewrite bool_decide_eq_false_2 in Hcr by (intros [? ?]; discriminate).
      rewrite Hw in *. cbn in Hcat, Hcr.
      split; [exact Hcr|]. left. auto.
  - destruct Hspec as (st0 & obj & (Hcat & Hcr & Hfull & Hw) & Hnone & ->).
    unfold split_step. rewrite Hnone. unfold open_chunk in Hcat.
    destruct (writer st0) as [w|] eqn:Ew.
    + destruct Hw as (Hcount & Hlen & Hd & Hfirst).
      rewrite bool_decide_eq_true_2 by eauto. cbn [negb orb].
      rewrite bool_decide_eq_true_2 in Hcr by eauto.
      destruct (chunk_size <=? count_in_batch st0)%Z eqn:Hc.
      * apply Z.leb_le in Hc. unfold close_writer_final, open_new_writer.
        rewrite Ew. cbn. rewrite !length_app. cbn [length].
        split; [lia|]. right.
        exists (files st0 ++ [w]), {| content := []; dangling := false |}.
        split; [reflexivity|]. split.
        { apply Forall_app. split; [exact Hfull|].
          constructor; [|constructor]. split; [|exact Hd].
          unfold full in *. lia. }
        split.
        { rewrite fmap_app, concat_app. cbn.
          rewrite !app_nil_r. exact Hcat. }
        cbn. split; [lia|reflexivity].
      * apply Z.leb_gt in Hc. rewrite Ew, Hfirst.
        unfold close_writer_final. cbn. rewrite length_app. cbn [length].
        split; [lia|]. right.
        exists (files st0), {| content := content w; dangling := true |}.
        split; [reflexivity|]. split; [exact Hfull|].
        split; [exact Hcat|]. cbn. split.
        { unfold full in *. lia. }
        symmetry. apply bool_decide_eq_true_2.
        destruct (content w); [cbn in Hlen; lia|discriminate].
    + rewrite bool_decide_eq_false_2 by (intros [? ?]; discriminate).
      rewrite bool_decide_eq_false_2 in Hcr by (intros [? ?]; discriminate).
      unfold close_writer_final, open_new_writer. rewrite Ew. cbn.
      rewrite Hw in *. cbn in Hcat, Hcr. rewrite Hcr. cbn.
      split; [reflexivity|]. right.
      exists [], {| content := []; dangling := false |}.
      split; [reflexivity|]. split; [constructor|].
      split; [exact Hcat|]. cbn. split; [lia|reflexivity].
Qed.

Lemma loaded_prefix (fs : list (list json)) n :
  loaded (map (fun i => fs !! i) (seq 0 n)) = concat (take n fs).
Proof.
  unfold loaded. f_equal. induction n as [|n IH]; [reflexivity|].
  rewrite seq_S, map_app, omap_app, IH. cbn [Nat.add map].
  destruct (fs !! n) as [f|] eqn:Hn.
  - rewrite (take_S_r _ _ _ Hn). reflexivity.
  - apply lookup_ge_None in Hn. rewrite !take_ge by lia.
    cbn. apply app_nil_r.
Qed.

Lemma concat_full_length (ls : list (list json)) m :
  Forall (fun l => length l = m) ls -> length (concat ls) = (length ls * m)%nat.
Proof.
  induction 1 as [|l ls Hl _ IH]; [reflexivity|].
  cbn [concat length]. rewrite length_app, IH, Hl. lia.
Qed.

(** The first [n] of a sequence of chunks of [m] items, the last of which
    may be shorter, hold the first [n * m] items. *)
Lemma take_chunks (ls : list (list json)) (l : list json) m n :
  Forall (fun l => length l = m) ls -> (length l <= m)%nat ->
  concat (take n (ls ++ [l])) = take (n * m) (concat ls ++ l).
Proof.
  intros Hls Hl. pose proof (concat_full_length ls m Hls) as Hlen.
  destruct (decide (n <= length ls)%nat) as [Hle|Hgt].
  - rewrite take_app_le by exact Hle.
    rewrite take_app_le by (rewrite Hlen; nia).
    rewrite <- (take_drop n ls) at 2. rewrite concat_app.
    assert (Hpre : length (concat (take n ls)) = (n * m)%nat).
    { rewrite (concat_full_length _ m) by (apply Forall_take; exact Hls).
      rewrite length_take. f_equal. lia. }
    rewrite <- Hpre, take_app_length. reflexivity.
  - rewrite take_ge by (rewrite length_app; cbn [length]; lia).
    rewrite concat_app. cbn [concat]. rewrite app_nil_r.
    symmetry. apply take_ge. rewrite length_app, Hlen. nia.
Qed.

Lemma take_full_chunks (ls : list (list json)) m n :
  Forall (fun l => length l = m) ls ->
  concat (take n ls) = take (n * m) (concat ls).
Proof.
  intros Hls.
  pose proof (take_chunks ls [] m n Hls ltac:(cbn; lia)) as H.
  rewrite app_nil_r in H. rewrite <- H.
  destruct (decide (n <= length ls)%nat) as [Hle|Hgt].
  - rewrite take_app_le by exact Hle. reflexivity.
  - rewrite !take_ge by (rewrite ?length_app; cbn [length]; lia).
    rewrite concat_app. cbn. rewrite app_nil_r. reflexivity.
Qed.

(** Files that parse are loaded as their contents. *)
Lemma load_whole_files (fs : list chunk_file) n :
  Forall (fun f => dangling f = false) fs ->
  map (fun i => fs !! i ≫= load_chunk) (seq 0 n)
  = map (fun i => (content <$> fs) !! i) (seq 0 n).
Proof.
  intros Hfs. apply map_ext. intros i. rewrite list_lookup_fmap.
  destruct (fs !! i) as [f|] eqn:Hi; [|reflexivity]. cbn.
  unfold load_chunk. rewrite Forall_lookup in Hfs. rewrite (Hfs i f Hi).
  reflexivity.
Qed.

(** A last file that does not parse is skipped like a missing file. *)
Lemma load_dangling_last (fulls : list chunk_file) (l : chunk_file) n :
  Forall (fun f => dangling f = false) fulls -> dangling l = true ->
  map (fun i => (fulls ++ [l]) !! i ≫= load_chunk) (seq 0 n)
  = map (fun i => (content <$> fulls) !! i) (seq 0 n).
Proof.
  intros Hfs Hl. apply map_ext. intros i. rewrite list_lookup_fmap.
  destruct (Nat.lt_trichotomy i (length fulls)) as [Hlt|[->|Hgt]].
  - rewrite lookup_app_l by exact Hlt.
    destruct (fulls !! i) as [f|] eqn:Hi; [|reflexivity]. cbn.
    unfold load_chunk. rewrite Forall_lookup in Hfs. rewrite (Hfs i f Hi).
    reflexivity.
  - rewrite list_lookup_middle by reflexivity.
    rewrite (proj2 (lookup_ge_None fulls (length fulls))) by lia.
    cbn. unfold load_chunk. rewrite Hl. reflexivity.
  - rewrite !(proj2 (lookup_ge_None _ i))
      by (rewrite ?length_app; cbn [length]; lia).
    reflexivity.
Qed.

Lemma full_files_whole chunk_size (fs : list chunk_file) :
  Forall (full_file chunk_size) fs ->
  Forall (fun f => dangling f = false) fs
  /\ Forall (fun l => length l = full chunk_size) (content <$> fs).
Proof.
  intros H. split.
  - eapply Forall_impl; [exact H|]. intros f [_ Hd]. exact Hd.
  - apply Forall_fmap. eapply Forall_impl; [exact H|]. intros f [Hl _].
    exact Hl.
Qed.

Lemma written_all (items : list ivalue) :
  all_written items = true ->
  Forall2 (fun obj v => write_item obj = Some v) items (written items).
Proof.
  induction items as [|obj items IH]; intros Hall; [constructor|].
  rewrite all_written_cons in Hall. apply andb_true_iff in Hall as [Ho Hall].
  apply bool_decide_eq_true in Ho as [v Hv]. cbn [written]. rewrite Hv.
  constructor; [exact Hv|apply IH, Hall].
Qed.

(** ** Properties of the splitter *)

(** X25.  [split_json_array_file] writes to the numbered files, in order,
    the items that come before the first item whose writing raises (an
    item holding a number that is not an integer, or a surrogate), all
    the items when there is none; the number returned is the number of
    files; every file but the last holds exactly [chunk_size] items, or
    one item when [chunk_size] is not positive, and parses; the last file
    holds at most that many, and it is left with a dangling separator,
    so that it does not parse, exactly when the run was stopped in the
    middle of a chunk; a file is empty only when the run was stopped at
    the first item of a chunk. *)
Theorem split_chunks (chunk_size : Z) (items : list ivalue) :
  let fs := (split_json_array_file chunk_size items).2 in
  concat (content <$> fs) = written items
  /\ (split_json_array_file chunk_size items).1 = length fs
  /\ (forall i f, fs !! i = Some f -> (S i < length fs)%nat ->
        full_file chunk_size f)
  /\ (forall f, last fs = Some f ->
        (length (content f) <= full chunk_size)%nat
        /\ dangling f
           = negb (all_written items) && bool_decide (content f <> [])
        /\ (content f = [] -> all_written items = false))
  /\ (all_written items = true ->
        Forall2 (fun obj v => write_item obj = Some v) items
                (concat (content <$> fs))).
Proof.
  intros fs.
  pose proof (split_shape chunk_size items) as (Hcr & Hshape).
  fold fs in Hcr, Hshape. clearbody fs.
  assert (Hcat : concat (content <$> fs) = written items).
  { destruct Hshape as [(-> & -> & _)|(fulls & l & -> & _ & Hcat & _)];
      [reflexivity|].
    rewrite fmap_app, concat_app. cbn. rewrite app_nil_r. exact Hcat. }
  split; [exact Hcat|]. split; [exact Hcr|]. split; [|split].
  - intros i f Hi Hlt.
    destruct Hshape as [(-> & _)|(fulls & l & -> & Hfull & _)].
    + rewrite lookup_nil in Hi. discriminate.
    + rewrite length_app in Hlt. cbn [length] in Hlt.
      rewrite lookup_app_l in Hi by lia.
      rewrite Forall_lookup in Hfull. eapply Hfull. exact Hi.
  - intros f Hlast.
    destruct Hshape as [(-> & _)|(fulls & l & -> & _ & _ & Hl)];
      [discriminate|].
    rewrite last_snoc in Hlast. injection Hlast as <-.
    destruct (all_written items).
    + destruct Hl as ([H1 H2] & Hd). split; [exact H2|].
      split; [exact Hd|]. intros He. rewrite He in H1. cbn in H1. lia.
    + destruct Hl as (Hlen & Hd). split; [lia|]. split; [exact Hd|].
      reflexivity.
  - intros Hall. rewrite Hcat. apply written_all, Hall.
Qed.

Lemma split_chunks_witness :
  all_written [IInt 1; IStr []; IInt 3] = true
  /\ Forall2 (fun obj v => write_item obj = Some v) [IInt 1; IStr []; IInt 3]
       (concat (content <$> (split_json_array_file 2
                               [IInt 1; IStr []; IInt 3]).2)).
Proof.
  split; [reflexivity|].
  apply (split_chunks 2 [IInt 1; IStr []; IInt 3]). reflexivity.
Defined.

(** With chunks of two, the array [[1, 2.5, 3]] leaves one file, which
    holds [1] and a dangling separator; with chunks of one, it leaves a
    file holding [1] and an empty file.  The item [3] is lost in both
    cases. *)
Example split_with_decimal :
  split_json_array_file 2 with_decimal
  = (1%nat, [{| content := [JInt 1]; dangling := true |}])
  /\ split_json_array_file 1 with_decimal
     = (2%nat, [{| content := [JInt 1]; dangling := false |};
                {| content := []; dangling := false |}]).
Proof. split; reflexivity. Qed.

(** X26.  Ratio aggregation pointed at the files the splitter wrote reads
    the first ten of them and skips one that does not parse: its result
    is the result over the first [10 * chunk_size] of the items that can
    be read back (ten items when [chunk_size] is not positive), which are
    all the items when every item was written, and otherwise the items
    of the full chunks before the item that stopped the run. *)
Theorem ratio_of_split_files (chunk_size : Z) (items : list ivalue) :
  CulFullPatched.process_model_dir
    (ten_files (split_json_array_file chunk_size items).2)
  = CulFullPatched.process_model_dir
      [Some (take (10 * full chunk_size) (readable chunk_size items))].
Proof.
  rewrite !ratio_as_make_stats, loaded_single.
  assert (Hl : loaded (ten_files (split_json_array_file chunk_size items).2)
               = take (10 * full chunk_size) (readable chunk_size items));
    [|rewrite Hl; reflexivity].
  destruct (split_shape chunk_size items) as (_ & Hshape).
  unfold ten_files, readable.
  assert (Hpos : (1 <= full chunk_size)%nat) by (unfold full; lia).
  destruct Hshape as [(-> & -> & ->)|(fulls & l & -> & Hfull & Hcat & Hl)].
  - rewrite take_nil. reflexivity.
  - destruct (full_files_whole _ _ Hfull) as (Hwhole & Hlens).
    pose proof (concat_full_length _ _ Hlens) as Hlen.
    rewrite length_fmap in Hlen.
    destruct (all_written items).
    + destruct Hl as (Hll & Hd).
      rewrite load_whole_files
        by (apply Forall_app; split; [exact Hwhole|repeat constructor; exact Hd]).
      rewrite loaded_prefix, fmap_app. cbn [fmap list_fmap].
      rewrite (take_chunks _ _ (full chunk_size)) by (assumption || lia).
      rewrite Hcat. reflexivity.
    + destruct Hl as (Hll & Hd). rewrite <- Hcat.
      destruct (content l) as [|x c] eqn:Hc.
      * rewrite load_whole_files
          by (apply Forall_app; split; [exact Hwhole|repeat constructor; exact Hd]).
        rewrite loaded_prefix, fmap_app. cbn [fmap list_fmap].
        rewrite (take_chunks _ _ (full chunk_size)) by (rewrite ?Hc; cbn; assumption || lia).
        rewrite Hc, app_nil_r, Hlen, Nat.div_mul by lia.
        rewrite <- Hlen, firstn_all. reflexivity.
      * rewrite load_dangling_last; [|exact Hwhole|exact Hd].
        rewrite loaded_prefix.
        rewrite (take_full_chunks _ (full chunk_size)) by assumption.
        rewrite length_app, Hlen. cbn [length] in *.
        rewrite Nat.div_add_l, Nat.div_small, Nat.add_0_r by lia.
        rewrite <- Hlen, take_app_length. reflexivity.
Qed.

(** The array [[1, 2.5, 3]] split in chunks of two: nothing can be read
    back, and the ratio script counts no item. *)
Example ratio_of_split_with_decimal :
  CulFullPatched.process_model_dir
    (ten_files (split_json_array_file 2 with_decimal).2)
  = Ok {| num := 0; a := 0; pct := float_0 |}.
Proof. reflexivity. Qed.

End SplitFacts.

(** * From variants to coverage: the scripts of RQ3 composed *)

Module PipelineFacts.
Import PyStr PyStrDefs PyStrFacts TrimFacts Json RunFullPatched.
Import RunFullPatchedDefs RunFullPatchedFacts RunnerDefs RunnerFacts.
Import Aggregate AggregateDefs AggregateFacts StatsDefs StatsFacts.
Import NPatchDefs NPatchFacts DelNPatchedDefs DelNPatchedFacts PatcherDefs.
Import PatcherFacts InjectDefs InjectFacts CulNPatched PipelineDefs.

Lemma endswith_secure pre w :
  is_verdict w -> endswith (pre ++ NL :: w) (NL :: SECURE) = str_eqb w SECURE.
Proof.
  unfold endswith. intros [-> | ->].
  - rewrite rev_app_distr, startswith_self. symmetry. apply str_eqb_refl.
  - rewrite rev_app_distr. cbn [rev app startswith]. reflexivity.
Qed.

Lemma recorded_secure text :
  is_secure_answer (JStr (recorded_answer text)) = secure_outcome text.
Proof.
  rewrite is_secure_as_parse. unfold secure_outcome.
  destruct (validate_and_trim_strict text) as [|c r] eqn:Hv.
  - rewrite recorded_rejected, parse_coerced by exact Hv. reflexivity.
  - rewrite recorded_accepted by (rewrite Hv; discriminate).
    destruct (validated_verdict text) as (pre & w & Heq & Hw & Hp);
      [rewrite Hv; discriminate|].
    rewrite Hp. rewrite Hv in Heq. rewrite Heq.
    symmetry. apply endswith_secure. exact Hw.
Qed.

(** The statistics, from the records read. *)
Lemma coverage_stats recs cov :
  merge_array empty_coverage recs = Ok cov ->
  stats_of cov = make_stats (Z.of_nat (size (keys_of recs)))
                            (Z.of_nat (size (covered_keys recs))).
Proof.
  intros Hcov. destruct (coverage_collections _ _ Hcov) as (Hall & Hsec).
  unfold stats_of. rewrite count_true_size, <- size_dom, Hsec, Hall.
  reflexivity.
Qed.

Lemma merge_array_app l1 : forall l2 st,
  merge_array st (l1 ++ l2)
  = match merge_array st l1 with
    | Ok st' => merge_array st' l2
    | Raise e => Raise e
    end.
Proof.
  induction l1 as [|r l1 IH]; intros l2 st; cbn [app merge_array]; [reflexivity|].
  destruct (merge_record st r); [apply IH|reflexivity].
Qed.

Lemma loaded_app f1 f2 : loaded (f1 ++ f2) = loaded f1 ++ loaded f2.
Proof. unfold loaded. rewrite omap_app, concat_app. reflexivity. Qed.

Lemma loaded_cons_Some arr fs : loaded (Some arr :: fs) = arr ++ loaded fs.
Proof. reflexivity. Qed.

(** A record of the runner has no index: merging it changes nothing. *)
Lemma merge_run_records outputs : forall st,
  merge_array st (run_with_vllm_direct outputs) = Ok st.
Proof.
  induction outputs as [|out outputs IH]; intros st; [reflexivity|].
  cbn [run_with_vllm_direct map merge_array]. apply IH.
Qed.

Lemma injected_run_lookup variants outputs i v out k :
  variants !! i = Some v -> outputs !! i = Some out -> index_is v k ->
  DelNPatched.ans_arr
    (DelNPatched.inject_index_for_pair variants (run_with_vllm_direct outputs))
    !! i
  = Some (indexed_answer k out).
Proof.
  intros Hv Hout (kv & -> & Hk).
  rewrite inject_index_for_pair_lookup. unfold injected, run_with_vllm_direct.
  rewrite list_lookup_fmap, Hout, Hv. cbn [fmap option_fmap option_map].
  rewrite Hk. reflexivity.
Qed.

Lemma indexed_answer_facts k out :
  record_key (indexed_answer k out) = Some (KInt (Z.of_nat k))
  /\ record_secure (indexed_answer k out) = secure_outcome (output_text out)
  /\ unhashable (indexed_answer k out) = false.
Proof.
  split; [reflexivity|]. split; [|reflexivity].
  unfold record_secure, indexed_answer. cbn [dict_get].
  rewrite str_eqb_refl. cbn [from_option id]. apply recorded_secure.
Qed.

Lemma index_is_key v k : index_is v k -> record_key v = Some (KInt (Z.of_nat k)).
Proof.
  intros (kv & -> & Hk). unfold record_key, record_index. rewrite Hk. reflexivity.
Qed.

Lemma injected_run_aligned variants outputs :
  Forall (fun v => exists k, index_is v k) variants ->
  length outputs = length variants ->
  Forall2 same_entry
    (DelNPatched.ans_arr
       (DelNPatched.inject_index_for_pair variants (run_with_vllm_direct outputs)))
    (zip variants outputs).
Proof.
  intros Hidx Hlen. apply Forall2_same_length_lookup_2.
  - unfold DelNPatched.inject_index_for_pair. rewrite inject_length.
    cbn [DelNPatched.ans_arr]. unfold run_with_vllm_direct.
    rewrite length_map, length_zip_with. lia.
  - intros i r [v out] Hr Hp.
    apply lookup_zip_with_Some in Hp as (v' & out' & [= <- <-] & Hv & Hout).
    rewrite Forall_lookup in Hidx. destruct (Hidx i v Hv) as (k & Hk).
    rewrite (injected_run_lookup _ _ _ _ _ _ Hv Hout Hk) in Hr.
    injection Hr as <-.
    destruct (indexed_answer_facts k out) as (H1 & H2 & H3).
    unfold same_entry. cbn [fst snd]. rewrite (index_is_key v k Hk). auto.
Qed.

Lemma aligned_keys recs ps :
  Forall2 same_entry recs ps ->
  omap record_key recs = omap record_key ps.*1
  /\ omap record_key (filter (fun r => record_secure r = true) recs)
     = omap (fun p : json * list str =>
               if secure_outcome (output_text p.2) then record_key p.1 else None)
            ps
  /\ existsb unhashable recs = false.
Proof.
  induction 1 as [|r p recs ps (Hk & Hs & Hu) _ (IH1 & IH2 & IH3)].
  - repeat split.
  - split; [|split].
    + cbn [fmap list_fmap omap list_omap]. rewrite Hk, IH1. reflexivity.
    + cbn [omap list_omap]. rewrite <- Hs, <- Hk, <- IH2.
      destruct (record_secure r) eqn:E.
      * rewrite filter_cons_True by exact E. reflexivity.
      * rewrite filter_cons_False by congruence. reflexivity.
    + cbn [existsb]. rewrite Hu, IH3. reflexivity.
Qed.

Lemma coverage_after_injection variants outputs :
  Forall (fun v => exists k, index_is v k) variants ->
  length outputs = length variants ->
  exists st,
    CulNPatched.process_model_dir
      [Some (DelNPatched.ans_arr
               (DelNPatched.inject_index_for_pair variants
                  (run_with_vllm_direct outputs)))] = Ok st
    /\ num st = Z.of_nat (size (keys_of variants))
    /\ a st = Z.of_nat (size (covered_entries variants outputs)).
Proof.
  intros Hidx Hlen.
  destruct (aligned_keys _ _ (injected_run_aligned _ _ Hidx Hlen))
    as (Hkeys & Hcov & Hu).
  rewrite fst_zip in Hkeys by lia.
  set (inj := DelNPatched.ans_arr _) in *.
  destruct (merge_array_ok inj empty_coverage Hu) as (cov & Hm & _).
  unfold CulNPatched.process_model_dir.
  rewrite merge_files_loaded, loaded_single, Hm, (coverage_stats _ _ Hm).
  unfold keys_of, covered_keys. rewrite Hkeys, Hcov.
  fold (keys_of variants). fold (covered_entries variants outputs).
  destruct (make_stats_bounds (Z.of_nat (size (keys_of variants)))
              (Z.of_nat (size (covered_entries variants outputs))))
    as (st & -> & Hn & Ha & _).
  - split; [lia|]. apply inj_le, subseteq_size.
    intros k. unfold covered_entries, keys_of.
    rewrite !elem_of_list_to_set, !list_elem_of_omap.
    intros ([v out] & Hin & Hp). cbn [fst snd] in Hp.
    destruct (secure_outcome (output_text out)); [|discriminate].
    exists v. split; [|exact Hp].
    apply elem_of_zip_l in Hin. exact Hin.
  - exists st. auto.
Qed.

(** ** Properties of the composed scripts *)

(** X27.  Variants, run, injection, coverage.  When the run gives one
    output per variant, coverage aggregation over the answers after index
    injection completes; [num] is the number of distinct source entries
    that have a variant, and [a] the number of those with a variant whose
    output was validated with the verdict [Secure]. *)
Theorem coverage_of_injected_run
    (analyze_vulnerabilities : nat -> str -> result json)
    (create_completion : nat -> nat -> str -> str -> json -> result str)
    (entries : list json) (outputs : list (list str)) :
  let variants :=
    (NPatch.process_entries analyze_vulnerabilities create_completion entries).1 in
  length outputs = length variants ->
  exists st,
    CulNPatched.process_model_dir
      [Some (DelNPatched.ans_arr
               (DelNPatched.inject_index_for_pair variants
                  (run_with_vllm_direct outputs)))] = Ok st
    /\ num st = Z.of_nat (size (keys_of variants))
    /\ a st = Z.of_nat (size (covered_entries variants outputs)).
Proof.
  intros variants Hlen. apply coverage_after_injection; [|exact Hlen].
  apply Forall_forall. intros r Hr.
  apply variant_index_is_position in Hr as (idx & kv & rkv & _ & -> & Hk).
  exists idx, rkv. auto.
Qed.

Lemma coverage_of_injected_run_witness :
  exists st,
    CulNPatched.process_model_dir
      [Some (DelNPatched.ans_arr
               (DelNPatched.inject_index_for_pair
                  (NPatch.process_entries stub_analyze stub_patch
                     [JDict entry1]).1
                  (run_with_vllm_direct [[first_answer_only]])))] = Ok st
    /\ num st = 1%Z /\ a st = 1%Z.
Proof.
  destruct (coverage_of_injected_run stub_analyze stub_patch [JDict entry1]
              [[first_answer_only]] eq_refl) as (st & Hst & Hn & Ha).
  exists st. split; [exact Hst|]. split.
  - rewrite Hn. vm_compute. reflexivity.
  - rewrite Ha. vm_compute. reflexivity.
Defined.

(** X28.  Answer records as the runner writes them carry no index, and
    coverage aggregation ignores them: a file of such records, like the
    tenth answer file, which index injection never visits, contributes
    nothing to the result. *)
Theorem coverage_ignores_uninjected_run
    (before after : list (option (list json))) (outputs : list (list str)) :
  CulNPatched.process_model_dir
    (before ++ Some (run_with_vllm_direct outputs) :: after)
  = CulNPatched.process_model_dir (before ++ after).
Proof.
  unfold CulNPatched.process_model_dir. rewrite !merge_files_loaded.
  rewrite !loaded_app, loaded_cons_Some, !merge_array_app.
  destruct (merge_array empty_coverage (loaded before)); [|reflexivity].
  rewrite merge_array_app, merge_run_records. reflexivity.
Qed.

End PipelineFacts.
